(** * Perfect_Package_Downloader: the conflict resolver and its decoder

    A shallow embedding of [src/solution.py] (class
    [EnhancedAIConflictResolver] and [main]) and of [safe_json_parse],
    [exec] and [exec_with_diagnostics] from [src/runthis.py], followed by
    the properties of the resolution loop, the command runner, the
    consultation budget, the decoder and the first analysis.

    Conventions of the embedding.
    - Python [int] is [Z]; [str] is [string] (the UTF-8 bytes of the text);
      a [dict] with a fixed schema is a record whose optional keys are
      [option] fields, read with the default that the code passes to [.get].
    - [self] is the record [Session]; every method is a function in the
      state monad [M] over [State], which pairs [self] with the position
      reached in the outside world.
    - The outside world (the shell, the clock, the advisory service, the
      analysis file) is the record [Env]: the outcome of the k-th
      [subprocess.run] and of the k-th [addhistory] call are arbitrary
      functions of k, so a statement quantified over [Env] covers every
      behaviour of the shell and of the service.
    - [print] and [time.sleep] have no effect on the state and are left out. *)

From Stdlib Require Import ZArith List Bool Ascii String Lia Arith.
From Stdlib Require Import Sorted Permutation.
From Stdlib Require DecimalString DecimalNat DecimalFacts.
Import ListNotations.
Local Open Scope string_scope.
Local Open Scope Z_scope.

(* ------------------------------------------------------------------ *)
(** ** Python string operations used by the sources *)

Module PyStr.

(** [c.lower()] on one ASCII byte; bytes >= 128 belong to multi-byte UTF-8
    sequences and never take part in a match against an ASCII marker. *)
Definition lower_ascii (c : ascii) : ascii :=
  let n := nat_of_ascii c in
  if ((65 <=? n) && (n <=? 90))%nat then ascii_of_nat (n + 32) else c.

(** [s.lower()] *)
Fixpoint lower (s : string) : string :=
  match s with
  | EmptyString => EmptyString
  | String c rest => String (lower_ascii c) (lower rest)
  end.

(** [s.startswith(p)] *)
Fixpoint startswith (p s : string) : bool :=
  match p, s with
  | EmptyString, _ => true
  | String _ _, EmptyString => false
  | String a p', String b s' => Ascii.eqb a b && startswith p' s'
  end.

(** [sub in s] *)
Fixpoint contains (sub s : string) : bool :=
  startswith sub s ||
  match s with
  | EmptyString => false
  | String _ rest => contains sub rest
  end.

(** [s.find(c)] for a one-character needle: index of the first occurrence,
    or -1. *)
Fixpoint find (c : ascii) (s : string) : Z :=
  match s with
  | EmptyString => -1
  | String a rest =>
      if Ascii.eqb a c then 0
      else let r := find c rest in if r =? -1 then -1 else r + 1
  end.

(** [s.rfind(c)] for a one-character needle: index of the last occurrence,
    or -1. *)
Fixpoint rfind (c : ascii) (s : string) : Z :=
  match s with
  | EmptyString => -1
  | String a rest =>
      let r := rfind c rest in
      if r =? -1 then (if Ascii.eqb a c then 0 else -1) else r + 1
  end.

(** [s[start:stop]] for [0 <= start] and [0 <= stop]. The needles of
    [find] and [rfind] in the sources are ASCII braces, so the slice between
    two found positions is the same text whether positions count bytes or
    code points. *)
Definition slice (s : string) (start stop : Z) : string :=
  substring (Z.to_nat start) (Z.to_nat (stop - start)) s.

End PyStr.

(* ------------------------------------------------------------------ *)
(** ** solution.py: data model *)

Module Resolver.

(** One entry of [recommended_solutions]. *)
Record Solution := {
  solution_type : option string;
  priority : option Z;
  description : option string;
  undo_commands : list string;
  commands : list string;
  verification_command : option string;
  web_verified : bool;
  source : option string
}.

(** The dict appended to [self.execution_log] by [execute_command]. *)
Record ExecutionLogEntry := {
  log_command : string;
  log_success : bool;
  log_output : string;
  log_exit_code : Z;
  log_timestamp : string;
  log_description : string
}.

(** The dict appended to [self.solution_history] by [apply_solution]. *)
Record SolutionHistoryEntry := {
  hist_solution_num : Z;
  hist_description : string;
  hist_commands : list string;
  hist_timestamp : string
}.

(** The dict appended to [failed_commands] by [apply_solution]. *)
Record FailedCommand := {
  fc_command : string;
  fc_output : string;
  fc_exit_code : Z
}.

(** The analysis loaded into [self.data]. *)
Record Diagnosis := {
  overall_status : option string;
  summary : option string;
  diag_recommended_solutions : option (list Solution)
}.

(** A consultation payload (the decoded [main_response], or [ai_data]). *)
Record Payload := {
  recommended_solutions : option (list Solution);
  should_continue : option bool
}.

(** The fields of [self]. *)
Record Session := {
  data : option Diagnosis;
  execution_log : list ExecutionLogEntry;
  max_ai_iterations : Z;
  ai_consultation_count : Z;
  web_search_count : Z;
  solved : bool;
  solution_history : list SolutionHistoryEntry
}.

(** *** The outside world *)

(** What [subprocess.run(..., timeout=300)] does inside [execute_command]. *)
Inductive ProcOutcome :=
| Completed (returncode : Z) (stdout stderr : string)
| TimeoutExpired
| RunRaised (message : string).

(** What is in the file at [self.json_path]. *)
Inductive AnalysisFile :=
| FileNotFound
| InvalidJSON
| Flat (d : Diagnosis)
| Nested (llm : Diagnosis).

(** What the [try] block of [trigger_web_search_consultation] meets:
    an exception, a falsy response, or the last entry [ai_data] of the
    response together with its [main_response] as decoded by
    [safe_json_parse] ([None] when [main_response] is not a string or the
    decoded value cannot be inspected). *)
Inductive AddHistoryOutcome :=
| ConsultRaised
| NoResponse
| Response (parsed : option Payload) (ai_data : Payload).

(** How far the run has gone in the world. *)
Record World := {
  proc_calls : nat;
  oracle_calls : nat
}.

Record Env := {
  HAS_AI : bool;
  subprocess_run : nat -> string -> ProcOutcome;
  addhistory : nat -> AddHistoryOutcome;
  strftime : World -> string;
  json_file : AnalysisFile
}.

Record State := {
  self : Session;
  world : World
}.

(** *** State monad *)

Definition M (A : Type) : Type := State -> A * State.

Definition ret {A} (a : A) : M A := fun st => (a, st).

Definition bind {A B} (m : M A) (k : A -> M B) : M B :=
  fun st => let (a, st') := m st in k a st'.

Definition get_self : M Session := fun st => (self st, st).

Definition get_world : M World := fun st => (world st, st).

Definition modify_self (f : Session -> Session) : M unit :=
  fun st => (tt, {| self := f (self st); world := world st |}).

Definition modify_world (f : World -> World) : M unit :=
  fun st => (tt, {| self := self st; world := f (world st) |}).

Declare Scope resolver_scope.
Delimit Scope resolver_scope with resolver.
Notation "x <- m ;; k" := (bind m (fun x => k))
  (at level 61, m at next level, right associativity) : resolver_scope.
Notation "m ;;; k" := (bind m (fun _ => k))
  (at level 61, right associativity) : resolver_scope.
Local Open Scope resolver_scope.

(** Field updates of [self]. *)
Definition set_data (d : Diagnosis) (s : Session) : Session :=
  {| data := Some d; execution_log := execution_log s;
     max_ai_iterations := max_ai_iterations s;
     ai_consultation_count := ai_consultation_count s;
     web_search_count := web_search_count s; solved := solved s;
     solution_history := solution_history s |}.

Definition append_log (e : ExecutionLogEntry) (s : Session) : Session :=
  {| data := data s; execution_log := execution_log s ++ [e];
     max_ai_iterations := max_ai_iterations s;
     ai_consultation_count := ai_consultation_count s;
     web_search_count := web_search_count s; solved := solved s;
     solution_history := solution_history s |}.

Definition append_history (e : SolutionHistoryEntry) (s : Session) : Session :=
  {| data := data s; execution_log := execution_log s;
     max_ai_iterations := max_ai_iterations s;
     ai_consultation_count := ai_consultation_count s;
     web_search_count := web_search_count s; solved := solved s;
     solution_history := solution_history s ++ [e] |}.

Definition set_solved (s : Session) : Session :=
  {| data := data s; execution_log := execution_log s;
     max_ai_iterations := max_ai_iterations s;
     ai_consultation_count := ai_consultation_count s;
     web_search_count := web_search_count s; solved := true;
     solution_history := solution_history s |}.

Definition count_consultation (s : Session) : Session :=
  {| data := data s; execution_log := execution_log s;
     max_ai_iterations := max_ai_iterations s;
     ai_consultation_count := ai_consultation_count s + 1;
     web_search_count := web_search_count s + 1; solved := solved s;
     solution_history := solution_history s |}.

Definition tick_proc (w : World) : World :=
  {| proc_calls := S (proc_calls w); oracle_calls := oracle_calls w |}.

Definition tick_oracle (w : World) : World :=
  {| proc_calls := proc_calls w; oracle_calls := S (oracle_calls w) |}.

(** [__init__] *)
Definition init (max_ai_iterations : Z) : Session :=
  {| data := None; execution_log := []; max_ai_iterations := max_ai_iterations;
     ai_consultation_count := 0; web_search_count := 0; solved := false;
     solution_history := [] |}.

Definition start_world : World := {| proc_calls := 0; oracle_calls := 0 |}.

(* ------------------------------------------------------------------ *)
(** ** solution.py: the command runner *)

(** The literal list scanned by [execute_command]. *)
Definition failure_markers : list string :=
  ["error:"; "failed"; "could not"; "conflict"].

(** [any(err in output.lower() for err in [...])] *)
Definition has_error (output : string) : bool :=
  existsb (fun err => PyStr.contains err (PyStr.lower output)) failure_markers.

(** [execute_command(command, description)] *)
Definition execute_command (env : Env) (command description : string)
  : M (bool * string) :=
  w <- get_world ;;
  modify_world tick_proc ;;;
  match subprocess_run env (proc_calls w) command with
  | Completed returncode stdout stderr =>
      let output := (stdout ++ stderr)%string in
      let success := returncode =? 0 in
      let actual_success := success && negb (has_error output) in
      now <- get_world ;;
      modify_self (append_log
        {| log_command := command; log_success := actual_success;
           log_output := output; log_exit_code := returncode;
           log_timestamp := strftime env now;
           log_description := description |}) ;;;
      ret (actual_success, output)
  | TimeoutExpired => ret (false, "Command timeout")
  | RunRaised message => ret (false, message)
  end.

(* ------------------------------------------------------------------ *)
(** ** solution.py: the solution applier *)

Definition default {A} (d : A) (o : option A) : A :=
  match o with Some a => a | None => d end.

(** [s.get('solution_type') == 'commands'] *)
Definition is_commands (s : Solution) : bool :=
  match solution_type s with
  | Some t => String.eqb t "commands"
  | None => false
  end.

(** Truth value of [solution.get('verification_command')]: a missing key
    and the empty string are both falsy. *)
Definition truthy_command (o : option string) : option string :=
  match o with
  | Some EmptyString => None
  | other => other
  end.

(** The dict built under [# Track this solution]. *)
Definition history_entry (env : Env) (solution : Solution) (solution_num : Z)
    (now : World) : SolutionHistoryEntry :=
  {| hist_solution_num := solution_num;
     hist_description := default "" (description solution);
     hist_commands := commands solution;
     hist_timestamp := strftime env now |}.

(** [# Track this solution]: the append to [self.solution_history]. *)
Definition record_attempt (env : Env) (solution : Solution) (solution_num : Z)
  : M unit :=
  now <- get_world ;;
  modify_self (append_history (history_entry env solution solution_num now)).

(** [for cmd in undo_commands: self.execute_command(cmd, "Undo previous changes")] *)
Fixpoint run_undo (env : Env) (cmds : list string) : M unit :=
  match cmds with
  | [] => ret tt
  | cmd :: rest =>
      execute_command env cmd "Undo previous changes" ;;;
      run_undo env rest
  end.

(** [for cmd in commands: ...], with the loop variables [all_success] and
    [failed_commands] as accumulators. *)
Fixpoint run_commands (env : Env) (cmds : list string) (all_success : bool)
    (failed_commands : list FailedCommand) : M (bool * list FailedCommand) :=
  match cmds with
  | [] => ret (all_success, failed_commands)
  | cmd :: rest =>
      r <- execute_command env cmd "" ;;
      let (success, output) := r in
      if success then run_commands env rest all_success failed_commands
      else run_commands env rest false
             (failed_commands ++
                [{| fc_command := cmd; fc_output := output; fc_exit_code := 1 |}])
  end.

(** Everything in [apply_solution] after the history append. *)
Definition execute_phase (env : Env) (solution : Solution)
  : M (bool * list FailedCommand) :=
  run_undo env (undo_commands solution) ;;;
  if is_commands solution then
    match commands solution with
    | [] => ret (false, [])
    | cmds =>
        r <- run_commands env cmds true [] ;;
        let (all_success, failed_commands) := r in
        match all_success, truthy_command (verification_command solution) with
        | true, Some verification =>
            v <- execute_command env verification "Verify solution" ;;
            if fst v then
              modify_self set_solved ;;; ret (true, failed_commands)
            else ret (false, failed_commands)
        | _, _ => ret (all_success, failed_commands)
        end
    end
  else ret (false, []).

(** [apply_solution(solution, solution_num)] *)
Definition apply_solution (env : Env) (solution : Solution) (solution_num : Z)
  : M (bool * list FailedCommand) :=
  record_attempt env solution solution_num ;;;
  execute_phase env solution.

(* ------------------------------------------------------------------ *)
(** ** solution.py: the consultation manager *)

(** [trigger_web_search_consultation(failed_solutions, original_issue)].
    The prompt built from the two arguments and from the last ten history
    entries is an input of the advisory service only; the answer of the
    service is [addhistory env k] for the k-th call, whatever the prompt. *)
Definition trigger_web_search_consultation (env : Env)
    (failed_solutions : list FailedCommand) (original_issue : string)
  : M (option Payload) :=
  if negb (HAS_AI env) then ret None
  else
    s <- get_self ;;
    if ai_consultation_count s >=? max_ai_iterations s then ret None
    else
      modify_self count_consultation ;;;
      w <- get_world ;;
      modify_world tick_oracle ;;;
      match addhistory env (oracle_calls w) with
      | ConsultRaised => ret None
      | NoResponse => ret None
      | Response parsed ai_data =>
          match parsed with
          | Some p =>
              match recommended_solutions p with
              | Some _ => ret (Some p)
              | None =>
                  match recommended_solutions ai_data with
                  | Some _ => ret (Some ai_data)
                  | None => ret None
                  end
              end
          | None =>
              match recommended_solutions ai_data with
              | Some _ => ret (Some ai_data)
              | None => ret None
              end
          end
      end.

(* ------------------------------------------------------------------ *)
(** ** solution.py: the resolution loop *)

(** The analysis that [load_json] stores, when the file can be read. *)
Definition loaded_diagnosis (f : AnalysisFile) : option Diagnosis :=
  match f with
  | Flat d => Some d
  | Nested llm => Some llm
  | FileNotFound => None
  | InvalidJSON => None
  end.

(** [load_json] *)
Definition load_json (env : Env) : M bool :=
  match json_file env with
  | FileNotFound => ret false
  | InvalidJSON => ret false
  | Flat d => modify_self (set_data d) ;;; ret true
  | Nested llm => modify_self (set_data llm) ;;; ret true
  end.

(** The key of [solutions.sort(key=lambda x: x.get('priority', 999))]. *)
Definition sort_key (s : Solution) : Z := default 999 (priority s).

Fixpoint insert_by_priority (s : Solution) (sorted : list Solution)
  : list Solution :=
  match sorted with
  | [] => [s]
  | t :: rest =>
      if sort_key s <=? sort_key t then s :: t :: rest
      else t :: insert_by_priority s rest
  end.

(** [list.sort] is stable: equal keys keep their original order. *)
Fixpoint sort_by_priority (l : list Solution) : list Solution :=
  match l with
  | [] => []
  | s :: rest => insert_by_priority s (sort_by_priority rest)
  end.

(** The queue built before the loop: the [commands] solutions only, in
    ascending priority. *)
Definition initial_queue (solutions : list Solution) : list Solution :=
  sort_by_priority (filter is_commands solutions).

(** How one traversal of [for i, solution in enumerate(solutions, 1)] ends:
    by [return True] from inside the loop, or by running off the end of the
    queue with the loop variables as they then stand. *)
Inductive PassResult :=
| PassReturnedTrue
| PassDone (success_count consecutive_failures : Z)
           (all_failed_commands : list FailedCommand).

Fixpoint run_pass (env : Env) (solutions : list Solution) (i : Z)
    (success_count consecutive_failures : Z)
    (all_failed_commands : list FailedCommand) : M PassResult :=
  match solutions with
  | [] => ret (PassDone success_count consecutive_failures all_failed_commands)
  | solution :: rest =>
      r <- apply_solution env solution i ;;
      let (success, failed_cmds) := r in
      if success then
        v <- execute_command env "pip check" "Final dependency check" ;;
        if fst v then
          modify_self set_solved ;;; ret PassReturnedTrue
        else
          run_pass env rest (i + 1) (success_count + 1) 0 all_failed_commands
      else
        run_pass env rest (i + 1) success_count (consecutive_failures + 1)
          (all_failed_commands ++ failed_cmds)
  end.

(** [ai_response and not ai_response.get('should_continue', True)] *)
Definition stop_requested (ai_response : option Payload) : bool :=
  match ai_response with
  | Some p => negb (default true (should_continue p))
  | None => false
  end.

(** The filtered [new_solutions] of the escalation branch; [[]] also when
    the consultation failed or carries no [recommended_solutions]. *)
Definition new_solutions_of (ai_response : option Payload) : list Solution :=
  match ai_response with
  | Some p => filter is_commands (default [] (recommended_solutions p))
  | None => []
  end.

Definition max_total_iterations : nat := 20.

(** [while iteration < max_total_iterations and not self.solved], with
    [remaining = max_total_iterations - iteration]. Leaving the loop by
    [break] or by its condition reaches the final [return False]. *)
Fixpoint resolution_while (env : Env) (remaining : nat)
    (solutions : list Solution) (original_issue : string)
    (consecutive_failures : Z) : M bool :=
  match remaining with
  | O => ret false
  | S remaining' =>
      s <- get_self ;;
      if solved s then ret false
      else
        match solutions with
        | [] => ret false
        | _ :: _ =>
            r <- run_pass env solutions 1 0 consecutive_failures [] ;;
            match r with
            | PassReturnedTrue => ret true
            | PassDone success_count consecutive_failures all_failed_commands =>
                if (success_count =? 0) && HAS_AI env then
                  ai_response <- trigger_web_search_consultation env
                                   all_failed_commands original_issue ;;
                  match new_solutions_of ai_response with
                  | (_ :: _) as new_solutions =>
                      resolution_while env remaining' new_solutions
                        original_issue 0
                  | [] =>
                      if stop_requested ai_response then ret false
                      else resolution_while env remaining' solutions
                             original_issue consecutive_failures
                  end
                else if success_count =? 0 then ret false
                else resolution_while env remaining' solutions
                       original_issue consecutive_failures
            end
        end
  end.

(** [self.data.get('overall_status') == 'success'] *)
Definition status_is_success (d : Diagnosis) : bool :=
  match overall_status d with
  | Some t => String.eqb t "success"
  | None => false
  end.

(** [continuous_resolution_loop] *)
Definition continuous_resolution_loop (env : Env) : M bool :=
  loaded <- load_json env ;;
  if negb loaded then ret false
  else
    s <- get_self ;;
    match data s with
    | None => ret false
    | Some d =>
        if status_is_success d then ret true
        else
          match default [] (diag_recommended_solutions d) with
          | [] => ret false
          | (_ :: _) as solutions =>
              resolution_while env max_total_iterations
                (initial_queue solutions)
                (default "Package conflict" (summary d)) 0
          end
    end.

(* ------------------------------------------------------------------ *)
(** ** solution.py: the persisted log and [main] *)

(** The [log_data] dict written by [save_execution_log]. *)
Record LogData := {
  resolution_status : string;
  ai_consultations : Z;
  web_searches : Z;
  total_commands : nat;
  successful_commands : nat;
  logged_solution_history : list SolutionHistoryEntry;
  logged_execution_log : list ExecutionLogEntry
}.

(** [save_execution_log] *)
Definition save_execution_log (s : Session) : LogData :=
  {| resolution_status := if solved s then "SOLVED" else "INCOMPLETE";
     ai_consultations := ai_consultation_count s;
     web_searches := web_search_count s;
     total_commands := List.length (execution_log s);
     successful_commands := List.length (filter log_success (execution_log s));
     logged_solution_history := solution_history s;
     logged_execution_log := execution_log s |}.

(** The parsed command line. *)
Record Args := {
  arg_max_ai_iterations : Z;
  arg_no_ai : bool
}.

(** [if args.no_ai: HAS_AI = False] *)
Definition disable_ai (env : Env) : Env :=
  {| HAS_AI := false; subprocess_run := subprocess_run env;
     addhistory := addhistory env; strftime := strftime env;
     json_file := json_file env |}.

(** [main]: the argument of [sys.exit] and the log that was saved. *)
Definition main (env : Env) (args : Args) : Z * LogData :=
  let env := if arg_no_ai args then disable_ai env else env in
  let resolver := init (arg_max_ai_iterations args) in
  let (success, final) :=
    continuous_resolution_loop env {| self := resolver; world := start_world |} in
  (if success then 0 else 1, save_execution_log (self final)).

End Resolver.

(* ------------------------------------------------------------------ *)
(** ** runthis.py: the decoder *)

Module Decoder.

(** The Python values that [json.loads] builds. A float keeps its lexeme. *)
#[local] Unset Elimination Schemes.
Inductive json :=
| JNull
| JBool (b : bool)
| JInt (n : Z)
| JFloat (lexeme : string)
| JStr (s : string)
| JList (items : list json)
| JDict (pairs : list (string * json)).
#[local] Set Elimination Schemes.

(** What a call of [json.loads] does: it returns, raises
    [json.JSONDecodeError], or raises something else ([RecursionError] on
    deeply nested input). The first handler of [safe_json_parse] names
    [json.JSONDecodeError] only, the second one is bare. *)
Inductive LoadsOutcome :=
| Decoded (v : json)
| JSONDecodeError
| OtherError.

(** What a call of [safe_json_parse] does. *)
Inductive Outcome :=
| Returns (v : json)
| Raises.

(** The dict literal returned when both attempts fail. *)
Definition sentinel (response_text : string) : json :=
  JDict [("overall_status", JStr "critical_error");
         ("summary", JStr "Failed to parse LLM response as JSON");
         ("issues_found", JList []);
         ("recommended_solutions", JList []);
         ("prevention_tips", JList [JStr "Ensure LLM returns valid JSON format"]);
         ("raw_response", JStr response_text)].

(** [safe_json_parse(response_text)], over the behaviour [loads] of
    [json.loads]. *)
Definition safe_json_parse (loads : string -> LoadsOutcome)
    (response_text : string) : Outcome :=
  match loads response_text with
  | Decoded v => Returns v
  | OtherError => Raises
  | JSONDecodeError =>
      let start := PyStr.find "{" response_text in
      let end_ := PyStr.rfind "}" response_text + 1 in
      if negb (start =? -1) && (end_ >? start) then
        let json_str := PyStr.slice response_text start end_ in
        match loads json_str with
        | Decoded v => Returns v
        | JSONDecodeError => Returns (sentinel response_text)
        | OtherError => Returns (sentinel response_text)
        end
      else Returns (sentinel response_text)
  end.

(** [d[key]] / [key in d] on the pairs of a dict. *)
Fixpoint lookup (key : string) (pairs : list (string * json)) : option json :=
  match pairs with
  | [] => None
  | (k, v) :: rest => if String.eqb k key then Some v else lookup key rest
  end.

(** [d.get(key)] on a decoded value that is a dict. *)
Definition get (key : string) (j : json) : option json :=
  match j with
  | JDict pairs => lookup key pairs
  | _ => None
  end.

(** *** A model of [json.loads] on [str]

    The grammar of the [json] module's decoder with its default settings:
    whitespace is space, tab, line feed and carriage return; [NaN],
    [Infinity] and [-Infinity] are accepted; control characters inside
    strings are rejected; an object keeps the first position and the last
    value of a repeated key. *)

(** How a scan ends: with a value and the text after it, with a syntax
    error, with too many open containers, or out of [fuel]. *)
Inductive Scan :=
| Scanned (v : json) (rest : string)
| Malformed
| TooDeep
| Exhausted.

Definition is_ws (c : ascii) : bool :=
  Ascii.eqb c " " || Ascii.eqb c "009" || Ascii.eqb c "010" || Ascii.eqb c "013".

Fixpoint skip_ws (s : string) : string :=
  match s with
  | String c rest => if is_ws c then skip_ws rest else s
  | EmptyString => s
  end.

Definition is_digit (c : ascii) : bool :=
  let n := nat_of_ascii c in ((48 <=? n) && (n <=? 57))%nat.

(** The longest prefix of digits, and what follows it. *)
Fixpoint span_digits (s : string) : string * string :=
  match s with
  | String c rest =>
      if is_digit c then
        let (ds, r) := span_digits rest in (String c ds, r)
      else (EmptyString, s)
  | EmptyString => (EmptyString, s)
  end.

Fixpoint digits_value (ds : string) (acc : Z) : Z :=
  match ds with
  | String c rest => digits_value rest (10 * acc + (Z.of_nat (nat_of_ascii c) - 48))
  | EmptyString => acc
  end.

(** The optional fraction of the number pattern: a dot and at least one
    digit. *)
Definition scan_frac (s : string) : string * string :=
  match s with
  | String c rest =>
      if Ascii.eqb c "." then
        match span_digits rest with
        | (EmptyString, _) => (EmptyString, s)
        | (ds, r) => (String c ds, r)
        end
      else (EmptyString, s)
  | EmptyString => (EmptyString, s)
  end.

(** The optional exponent of the number pattern: e or E, an optional sign
    and at least one digit. *)
Definition scan_exp (s : string) : string * string :=
  match s with
  | String e rest =>
      if Ascii.eqb e "e" || Ascii.eqb e "E" then
        match rest with
        | String sign rest' =>
            if Ascii.eqb sign "+" || Ascii.eqb sign "-" then
              match span_digits rest' with
              | (EmptyString, _) => (EmptyString, s)
              | (ds, r) => (String e (String sign ds), r)
              end
            else
              match span_digits rest with
              | (EmptyString, _) => (EmptyString, s)
              | (ds, r) => (String e ds, r)
              end
        | EmptyString => (EmptyString, s)
        end
      else (EmptyString, s)
  | EmptyString => (EmptyString, s)
  end.

(** The integer part of the number pattern, an optional minus followed by
    a single zero or by a nonzero digit and more digits: the sign, the
    digits and what follows. *)
Definition scan_integer (s : string) : option (bool * string * string) :=
  let (negative, body) :=
    match s with
    | String c rest => if Ascii.eqb c "-" then (true, rest) else (false, s)
    | EmptyString => (false, s)
    end in
  match body with
  | String d rest =>
      if Ascii.eqb d "0" then Some (negative, String d EmptyString, rest)
      else if is_digit d then
        let (ds, r) := span_digits body in Some (negative, ds, r)
      else None
  | EmptyString => None
  end.

Definition scan_number (s : string) : option (json * string) :=
  match scan_integer s with
  | None => None
  | Some (negative, ds, r) =>
      let (frac, r1) := scan_frac r in
      let (exp, r2) := scan_exp r1 in
      match frac, exp with
      | EmptyString, EmptyString =>
          let n := digits_value ds 0 in
          Some (JInt (if negative then - n else n), r2)
      | _, _ =>
          Some (JFloat ((if negative then "-" else "") ++ ds ++ frac ++ exp), r2)
      end
  end.

(** [s] without the prefix [p], when [s] starts with [p]. *)
Fixpoint strip_prefix (p s : string) : option string :=
  match p, s with
  | EmptyString, _ => Some s
  | String a p', String b s' =>
      if Ascii.eqb a b then strip_prefix p' s' else None
  | String _ _, EmptyString => None
  end.

Definition hex_value (c : ascii) : option Z :=
  let n := nat_of_ascii c in
  if ((48 <=? n) && (n <=? 57))%nat then Some (Z.of_nat n - 48)
  else if ((65 <=? n) && (n <=? 70))%nat then Some (Z.of_nat n - 55)
  else if ((97 <=? n) && (n <=? 102))%nat then Some (Z.of_nat n - 87)
  else None.

Definition hex4 (a b c d : ascii) : option Z :=
  match hex_value a, hex_value b, hex_value c, hex_value d with
  | Some x, Some y, Some z, Some w => Some (((x * 16 + y) * 16 + z) * 16 + w)
  | _, _, _, _ => None
  end.

Definition byte (z : Z) : ascii := ascii_of_nat (Z.to_nat z).

(** [chr(uni)] as UTF-8 bytes. *)
Definition chr (uni : Z) : string :=
  if uni <? 128 then String (byte uni) EmptyString
  else if uni <? 2048 then
    String (byte (192 + Z.shiftr uni 6))
      (String (byte (128 + Z.land uni 63)) EmptyString)
  else if uni <? 65536 then
    String (byte (224 + Z.shiftr uni 12))
      (String (byte (128 + Z.land (Z.shiftr uni 6) 63))
         (String (byte (128 + Z.land uni 63)) EmptyString))
  else
    String (byte (240 + Z.shiftr uni 18))
      (String (byte (128 + Z.land (Z.shiftr uni 12) 63))
         (String (byte (128 + Z.land (Z.shiftr uni 6) 63))
            (String (byte (128 + Z.land uni 63)) EmptyString))).

(** The character of a one-letter escape. *)
Definition backslash (esc : ascii) : option ascii :=
  if Ascii.eqb esc "034" then Some "034"%char
  else if Ascii.eqb esc "\" then Some "\"%char
  else if Ascii.eqb esc "/" then Some "/"%char
  else if Ascii.eqb esc "b" then Some "008"%char
  else if Ascii.eqb esc "f" then Some "012"%char
  else if Ascii.eqb esc "n" then Some "010"%char
  else if Ascii.eqb esc "r" then Some "013"%char
  else if Ascii.eqb esc "t" then Some "009"%char
  else None.

(** [scanstring]: the text after an opening quote, up to the closing one. *)
Fixpoint scanstring (s : string) (acc : string) : option (string * string) :=
  match s with
  | EmptyString => None
  | String c rest =>
      if Ascii.eqb c "034" then Some (acc, rest)
      else if (nat_of_ascii c <? 32)%nat then None
      else if Ascii.eqb c "\" then
        match rest with
        | EmptyString => None
        | String esc rest1 =>
            if Ascii.eqb esc "u" then
              match rest1 with
              | String h1 (String h2 (String h3 (String h4 rest2))) =>
                  match hex4 h1 h2 h3 h4 with
                  | None => None
                  | Some uni =>
                      if (55296 <=? uni) && (uni <=? 56319) then
                        match rest2 with
                        | String b (String u (String l1 (String l2
                            (String l3 (String l4 rest3))))) =>
                            if Ascii.eqb b "\" && Ascii.eqb u "u" then
                              match hex4 l1 l2 l3 l4 with
                              | None => None
                              | Some uni2 =>
                                  if (56320 <=? uni2) && (uni2 <=? 57343) then
                                    scanstring rest3
                                      (acc ++ chr (65536 +
                                         Z.lor (Z.shiftl (uni - 55296) 10)
                                               (uni2 - 56320)))
                                  else scanstring rest2 (acc ++ chr uni)
                              end
                            else scanstring rest2 (acc ++ chr uni)
                        | _ => scanstring rest2 (acc ++ chr uni)
                        end
                      else scanstring rest2 (acc ++ chr uni)
                  end
              | _ => None
              end
            else
              match backslash esc with
              | Some ch => scanstring rest1 (acc ++ String ch EmptyString)
              | None => None
              end
        end
      else scanstring rest (acc ++ String c EmptyString)
  end.

(** [dict(pairs)]: a repeated key keeps its first position and takes the
    last value. *)
Fixpoint dict_set (key : string) (v : json) (pairs : list (string * json))
  : list (string * json) :=
  match pairs with
  | [] => [(key, v)]
  | (k, old) :: rest =>
      if String.eqb k key then (k, v) :: rest
      else (k, old) :: dict_set key v rest
  end.

(** A value that is neither a string nor a container: a literal or a
    number. *)
Definition scan_scalar (s : string) : Scan :=
  match strip_prefix "null" s, strip_prefix "true" s, strip_prefix "false" s with
  | Some r, _, _ => Scanned JNull r
  | _, Some r, _ => Scanned (JBool true) r
  | _, _, Some r => Scanned (JBool false) r
  | None, None, None =>
      match scan_number s with
      | Some (v, r) => Scanned v r
      | None =>
          match strip_prefix "NaN" s, strip_prefix "Infinity" s,
                strip_prefix "-Infinity" s with
          | Some r, _, _ => Scanned (JFloat "NaN") r
          | _, Some r, _ => Scanned (JFloat "Infinity") r
          | _, _, Some r => Scanned (JFloat "-Infinity") r
          | None, None, None => Malformed
          end
      end
  end.

(** The scanner: [scan_once] reads one value; [scan_items] the elements of
    an array from the first one on; [scan_members] the members of an
    object from just after the opening quote of a key. [depth] is the
    number of nested containers that may still be opened before Python
    raises [RecursionError]; [fuel] bounds the number of calls. *)
Fixpoint scan_once (fuel depth : nat) (s : string) : Scan :=
  match fuel with
  | O => Exhausted
  | S fuel' =>
      match s with
      | EmptyString => Malformed
      | String c rest =>
          if Ascii.eqb c "034" then
            match scanstring rest EmptyString with
            | Some (str, r) => Scanned (JStr str) r
            | None => Malformed
            end
          else if Ascii.eqb c "{" then
            match depth with
            | O => TooDeep
            | S depth' =>
                match skip_ws rest with
                | String q r =>
                    if Ascii.eqb q "}" then Scanned (JDict []) r
                    else if Ascii.eqb q "034" then scan_members fuel' depth' r []
                    else Malformed
                | EmptyString => Malformed
                end
            end
          else if Ascii.eqb c "[" then
            match depth with
            | O => TooDeep
            | S depth' =>
                match skip_ws rest with
                | String q r =>
                    if Ascii.eqb q "]" then Scanned (JList []) r
                    else scan_items fuel' depth' (String q r) []
                | EmptyString => Malformed
                end
            end
          else scan_scalar s
      end
  end

with scan_items (fuel depth : nat) (s : string) (acc : list json) : Scan :=
  match fuel with
  | O => Exhausted
  | S fuel' =>
      match scan_once fuel' depth s with
      | Scanned v r =>
          match skip_ws r with
          | String c r1 =>
              if Ascii.eqb c "]" then Scanned (JList (acc ++ [v])) r1
              else if Ascii.eqb c "," then
                scan_items fuel' depth (skip_ws r1) (acc ++ [v])
              else Malformed
          | EmptyString => Malformed
          end
      | Malformed => Malformed
      | TooDeep => TooDeep
      | Exhausted => Exhausted
      end
  end

with scan_members (fuel depth : nat) (s : string) (acc : list (string * json))
  : Scan :=
  match fuel with
  | O => Exhausted
  | S fuel' =>
      match scanstring s EmptyString with
      | None => Malformed
      | Some (key, r) =>
          match skip_ws r with
          | String colon r1 =>
              if Ascii.eqb colon ":" then
                match scan_once fuel' depth (skip_ws r1) with
                | Scanned v r2 =>
                    match skip_ws r2 with
                    | String c r3 =>
                        if Ascii.eqb c "}" then
                          Scanned (JDict (dict_set key v acc)) r3
                        else if Ascii.eqb c "," then
                          match skip_ws r3 with
                          | String q r4 =>
                              if Ascii.eqb q "034" then
                                scan_members fuel' depth r4 (dict_set key v acc)
                              else Malformed
                          | EmptyString => Malformed
                          end
                        else Malformed
                    | EmptyString => Malformed
                    end
                | Malformed => Malformed
                | TooDeep => TooDeep
                | Exhausted => Exhausted
                end
              else Malformed
          | EmptyString => Malformed
          end
      end
  end.

(** The fuel that [json_loads] gives the scanner; it is never used up
    (lemma [json_loads_fuel_suffices]). *)
Definition enough_fuel (s : string) : nat := 2 * String.length s + 2.

(** [json.loads(s)] for a [str], with [recursion_limit] the nesting depth
    that the interpreter allows: surrounding whitespace is accepted, any
    other trailing text is an error. *)
Definition json_loads (recursion_limit : nat) (s : string) : LoadsOutcome :=
  match scan_once (enough_fuel s) recursion_limit (skip_ws s) with
  | Scanned v rest =>
      match skip_ws rest with
      | EmptyString => Decoded v
      | String _ _ => JSONDecodeError
      end
  | Malformed => JSONDecodeError
  | TooDeep => OtherError
  | Exhausted => JSONDecodeError
  end.

End Decoder.

(* ------------------------------------------------------------------ *)
(** ** Properties stated by the specification *)

(** [marker] occurs in [output] up to the case of ASCII letters: some
    substring of [output] has the lower-case form of [marker]. *)
Definition occurs_ignoring_case (marker output : string) : Prop :=
  exists pre mid post,
    output = (pre ++ mid ++ post)%string /\ PyStr.lower mid = PyStr.lower marker.

(** [a] and [b] are the same character up to the case of a letter: equal,
    or the capital and the small form of one of the 26 letters A to Z.
    Written without the string functions of the sources. *)
Definition same_up_to_case (a b : ascii) : Prop :=
  a = b \/
  exists k : nat,
    (k < 26)%nat /\
    ((a = ascii_of_nat (65 + k) /\ b = ascii_of_nat (97 + k)) \/
     (a = ascii_of_nat (97 + k) /\ b = ascii_of_nat (65 + k))).

(** Two texts of the same length whose characters agree up to case. *)
Fixpoint same_text_up_to_case (s t : string) : Prop :=
  match s, t with
  | EmptyString, EmptyString => True
  | String a s', String b t' => same_up_to_case a b /\ same_text_up_to_case s' t'
  | _, _ => False
  end.

(** [marker] is a case-insensitive substring of [output]. *)
Definition occurs_case_insensitively (marker output : string) : Prop :=
  exists pre mid post,
    output = (pre ++ mid ++ post)%string /\ same_text_up_to_case mid marker.

(** The consultation budget is respected. *)
Definition budget_ok (s : Resolver.Session) : Prop :=
  Resolver.ai_consultation_count s <= Resolver.max_ai_iterations s.

(** [block] is the part of [text] from its first opening brace to its last
    closing brace, both included. *)
Definition brace_block (text block : string) : Prop :=
  exists pre mid post,
    text = (pre ++ block ++ post)%string /\
    block = ("{" ++ mid ++ "}")%string /\
    PyStr.contains "{" pre = false /\
    PyStr.contains "}" post = false.

(** What running commands leaves alone in [self]: everything but the
    execution log and the [solved] flag. *)
Definition frame (s s' : Resolver.Session) : Prop :=
  Resolver.data s' = Resolver.data s /\
  Resolver.max_ai_iterations s' = Resolver.max_ai_iterations s /\
  Resolver.ai_consultation_count s' = Resolver.ai_consultation_count s /\
  Resolver.web_search_count s' = Resolver.web_search_count s /\
  Resolver.solution_history s' = Resolver.solution_history s.

(** The budget fields of [self]. *)
Definition counters (s : Resolver.Session) : Z * Z * Z :=
  (Resolver.max_ai_iterations s, Resolver.ai_consultation_count s,
   Resolver.web_search_count s).

(* ------------------------------------------------------------------ *)
(** ** Concrete runs *)

Module Scenario.
Import Resolver.

Definition clock (w : World) : string := "2025-01-01 00:00:00".

(** A [commands] solution with one command. *)
Definition install (cmd : string) (verification : option string) : Solution :=
  {| solution_type := Some "commands"; priority := Some 1;
     description := Some "install"; undo_commands := [];
     commands := [cmd]; verification_command := verification;
     web_verified := false; source := None |}.

(** A [commands] solution without commands. *)
Definition hollow : Solution :=
  {| solution_type := Some "commands"; priority := Some 1;
     description := Some "nothing to run"; undo_commands := [];
     commands := []; verification_command := None;
     web_verified := false; source := None |}.

(** A solution for the operator, not for the loop. *)
Definition manual_step : Solution :=
  {| solution_type := Some "user_action"; priority := Some 1;
     description := Some "recreate the virtual environment";
     undo_commands := ["pip uninstall -y a"]; commands := ["pip install a"];
     verification_command := Some "pip check";
     web_verified := false; source := None |}.

Definition diagnosis (status : string) (solutions : list Solution) : Diagnosis :=
  {| overall_status := Some status; summary := Some "numpy and pandas clash";
     diag_recommended_solutions := Some solutions |}.

(** Shells. *)
Definition shell_ok (k : nat) (cmd : string) : ProcOutcome :=
  Completed 0 "Requirement already satisfied" "".

Definition shell_fails (k : nat) (cmd : string) : ProcOutcome :=
  Completed 1 "" "ERROR: No matching distribution found".

(** Exit code 0 with a complaint of the resolver on stderr. *)
Definition shell_warns (k : nat) (cmd : string) : ProcOutcome :=
  Completed 0 "Successfully installed a-1.0"
    "a 1.0 requires b>=2, but you have b 1.0 which is incompatible: CONFLICT".

Definition shell_hangs (k : nat) (cmd : string) : ProcOutcome := TimeoutExpired.

(** Everything works except the final [pip check]. *)
Definition shell_check_fails (k : nat) (cmd : string) : ProcOutcome :=
  if String.eqb cmd "pip check" then Completed 1 "a 1.0 has requirement b>=2" ""
  else Completed 0 "Requirement already satisfied" "".

(** Advisory services. *)
Definition silent (k : nat) : AddHistoryOutcome := NoResponse.

Definition no_payload : Payload :=
  {| recommended_solutions := None; should_continue := None |}.

(** The first answer says stop and still proposes a command; every later
    answer says stop and proposes nothing. *)
Definition stop_with_commands : Payload :=
  {| recommended_solutions := Some [install "pip install b" None];
     should_continue := Some false |}.

Definition stop_without_commands : Payload :=
  {| recommended_solutions := Some [manual_step];
     should_continue := Some false |}.

Definition says_stop (k : nat) : AddHistoryOutcome :=
  match k with
  | O => Response (Some stop_with_commands) no_payload
  | S _ => Response (Some stop_without_commands) no_payload
  end.

Definition env_of (ai : bool) (shell : nat -> string -> ProcOutcome)
    (service : nat -> AddHistoryOutcome) (file : AnalysisFile) : Env :=
  {| HAS_AI := ai; subprocess_run := shell; addhistory := service;
     strftime := clock; json_file := file |}.

Definition fresh (max_ai_iterations : Z) : State :=
  {| self := init max_ai_iterations; world := start_world |}.

Definition default_args : Args :=
  {| arg_max_ai_iterations := 8; arg_no_ai := false |}.

(** The analysis reports success. *)
Definition env_success : Env :=
  env_of true shell_ok silent (Flat (diagnosis "success" [])).

(** One solution whose commands and verification pass while [pip check]
    fails. *)
Definition env_check_fails : Env :=
  env_of true shell_check_fails silent
    (Flat (diagnosis "needs_attention"
             [install "pip install a" (Some "python -c 'import a'")])).

(** One failing solution, and a service that says stop. *)
Definition env_stop : Env :=
  env_of true shell_fails says_stop
    (Flat (diagnosis "needs_attention" [install "pip install a" None])).

(** An answer of the service: a payload between two lines of prose. *)
Definition quoted (s : string) : string :=
  (String "034" EmptyString ++ s ++ String "034" EmptyString)%string.

Definition wrapped_payload : string :=
  ("Here is my analysis: {" ++ quoted "should_continue" ++ ": false, "
     ++ quoted "recommended_solutions" ++ ": []} Good luck!")%string.

End Scenario.

(* ------------------------------------------------------------------ *)
(** ** Further predicates and runs *)

(** [l'] is [l] with entries added at the end. *)
Definition extends {A : Type} (l l' : list A) : Prop :=
  exists suffix, l' = (l ++ suffix)%list.

(** The verdict of [execute_command] on what the shell did. *)
Definition judged_success (o : Resolver.ProcOutcome) : bool :=
  match o with
  | Resolver.Completed returncode stdout stderr =>
      (returncode =? 0) && negb (Resolver.has_error (stdout ++ stderr))
  | Resolver.TimeoutExpired => false
  | Resolver.RunRaised _ => false
  end.

(** A log entry whose success flag is the verdict on its own exit code and
    output. *)
Definition entry_consistent (e : Resolver.ExecutionLogEntry) : Prop :=
  Resolver.log_success e
  = (Resolver.log_exit_code e =? 0)
    && negb (Resolver.has_error (Resolver.log_output e)).

(** A shell in which no command is ever judged successful. *)
Definition never_succeeds (env : Resolver.Env) : Prop :=
  forall k command, judged_success (Resolver.subprocess_run env k command) = false.

(** A shell in which every command completes: no timeout, no exception. *)
Definition always_completes (env : Resolver.Env) : Prop :=
  forall k command, exists returncode stdout stderr,
    Resolver.subprocess_run env k command
    = Resolver.Completed returncode stdout stderr.

(** An answer of the advisory service from which
    [trigger_web_search_consultation] extracts nothing. *)
Definition no_advice (o : Resolver.AddHistoryOutcome) : Prop :=
  match o with
  | Resolver.ConsultRaised => True
  | Resolver.NoResponse => True
  | Resolver.Response parsed ai_data =>
      match parsed with
      | Some p => Resolver.recommended_solutions p = None
      | None => True
      end /\ Resolver.recommended_solutions ai_data = None
  end.

(** What a pass leaves in the history for the queue [solutions], numbered
    from [i]: ordinal, description and commands of each solution. *)
Fixpoint expected_history (i : Z) (solutions : list Resolver.Solution)
  : list (Z * string * list string) :=
  match solutions with
  | [] => []
  | s :: rest =>
      (i, Resolver.default "" (Resolver.description s), Resolver.commands s)
        :: expected_history (i + 1) rest
  end.

Definition history_key (e : Resolver.SolutionHistoryEntry)
  : Z * string * list string :=
  (Resolver.hist_solution_num e, Resolver.hist_description e,
   Resolver.hist_commands e).

(** What no method of the resolver undoes: the two ledgers only grow, a
    set [solved] flag stays set, the two consultation counters stay equal
    and the log entries stay consistent. *)
Definition session_grows (st st' : Resolver.State) : Prop :=
  extends (Resolver.execution_log (Resolver.self st))
          (Resolver.execution_log (Resolver.self st')) /\
  extends (Resolver.solution_history (Resolver.self st))
          (Resolver.solution_history (Resolver.self st')) /\
  (Resolver.solved (Resolver.self st) = true ->
   Resolver.solved (Resolver.self st') = true) /\
  (Resolver.web_search_count (Resolver.self st)
     = Resolver.ai_consultation_count (Resolver.self st) ->
   Resolver.web_search_count (Resolver.self st')
     = Resolver.ai_consultation_count (Resolver.self st')) /\
  (Forall entry_consistent (Resolver.execution_log (Resolver.self st)) ->
   Forall entry_consistent (Resolver.execution_log (Resolver.self st'))).

(** What a run without advisory support leaves alone: the budget fields
    and the position reached in the answers of the service. *)
Definition consultation_free (st st' : Resolver.State) : Prop :=
  counters (Resolver.self st') = counters (Resolver.self st) /\
  Resolver.oracle_calls (Resolver.world st')
    = Resolver.oracle_calls (Resolver.world st).

(** The order in which the queue is traversed. *)
Definition by_priority (a b : Resolver.Solution) : Prop :=
  Resolver.sort_key a <= Resolver.sort_key b.

(** ** The run without the solutions that are not commands *)

Module Erased.
Import Resolver.

(** A list of solutions without those that are not of type commands. *)
Definition solutions (l : option (list Solution)) : option (list Solution) :=
  option_map (filter is_commands) l.

Definition diagnosis (d : Diagnosis) : Diagnosis :=
  {| overall_status := overall_status d; summary := summary d;
     diag_recommended_solutions := solutions (diag_recommended_solutions d) |}.

Definition payload (p : Payload) : Payload :=
  {| recommended_solutions := solutions (recommended_solutions p);
     should_continue := should_continue p |}.

Definition answer (o : AddHistoryOutcome) : AddHistoryOutcome :=
  match o with
  | Response parsed ai_data => Response (option_map payload parsed) (payload ai_data)
  | other => other
  end.

Definition file (f : AnalysisFile) : AnalysisFile :=
  match f with
  | Flat d => Flat (diagnosis d)
  | Nested llm => Nested (diagnosis llm)
  | other => other
  end.

(** The same world, with every solution that is not of type commands taken
    out of the analysis file and out of every answer of the service. *)
Definition world_of (env : Env) : Env :=
  {| HAS_AI := HAS_AI env; subprocess_run := subprocess_run env;
     addhistory := fun k => answer (addhistory env k);
     strftime := strftime env; json_file := file (json_file env) |}.

(** [st] with another analysis in [self.data]. *)
Definition with_data (x : option Diagnosis) (st : State) : State :=
  {| self := {| data := x; execution_log := execution_log (self st);
                max_ai_iterations := max_ai_iterations (self st);
                ai_consultation_count := ai_consultation_count (self st);
                web_search_count := web_search_count (self st);
                solved := solved (self st);
                solution_history := solution_history (self st) |};
     world := world st |}.

(** The result of a method, with the state moved to [x]. *)
Definition moved {A} (x : option Diagnosis) (r : A * State) : A * State :=
  (fst r, with_data x (snd r)).

End Erased.

(** More concrete runs. *)
Module Cases.
Import Resolver.

(** Two commands and a verification. *)
Definition two_step : Solution :=
  {| solution_type := Some "commands"; priority := Some 2;
     description := Some "pin both packages";
     undo_commands := ["pip uninstall -y a"];
     commands := ["pip install a==1.0"; "pip install b==2.0"];
     verification_command := Some "pip show a";
     web_verified := false; source := None |}.

(** A solution without priority. *)
Definition unranked : Solution :=
  {| solution_type := Some "commands"; priority := None;
     description := None; undo_commands := [];
     commands := ["pip install c"]; verification_command := None;
     web_verified := true; source := Some "https://pypi.org/project/c" |}.

Definition analysis : Diagnosis :=
  Scenario.diagnosis "needs_attention"
    [unranked; Scenario.manual_step; two_step; Scenario.install "pip install a" None].

(** Every command works. *)
Definition env_works : Env :=
  Scenario.env_of true Scenario.shell_ok Scenario.silent (Flat analysis).

(** Every command fails and the service stays silent. *)
Definition env_fails : Env :=
  Scenario.env_of true Scenario.shell_fails Scenario.silent (Flat analysis).

(** The analysis file is missing. *)
Definition env_missing : Env :=
  Scenario.env_of true Scenario.shell_ok Scenario.silent FileNotFound.

Definition no_ai_args : Args :=
  {| arg_max_ai_iterations := 8; arg_no_ai := true |}.

(** The process ends in time with exit code 0, but its output is not valid
    UTF-8: [subprocess.run(..., text=True)] raises UnicodeDecodeError when
    it decodes the output, and [execute_command] gets the exception, not a
    result. *)
Definition decode_message : string :=
  "'utf-8' codec can't decode byte 0xff in position 0: invalid start byte".

Definition shell_undecodable (k : nat) (cmd : string) : ProcOutcome :=
  RunRaised decode_message.

(** The decoded [main_response] says stop and has no key
    recommended_solutions; [ai_data] has none either. *)
Definition stop_only : Payload :=
  {| recommended_solutions := None; should_continue := Some false |}.

Definition says_stop_only (k : nat) : AddHistoryOutcome :=
  Response (Some stop_only) Scenario.no_payload.

(** One failing solution, and a service that only says stop. *)
Definition env_stop_only : Env :=
  Scenario.env_of true Scenario.shell_fails says_stop_only
    (Flat (Scenario.diagnosis "needs_attention"
             [Scenario.install "pip install a" None])).

(** A commands solution after one for the operator. *)
Definition env_mixed : Env :=
  Scenario.env_of true Scenario.shell_fails Scenario.says_stop
    (Flat (Scenario.diagnosis "needs_attention"
             [Scenario.manual_step; Scenario.install "pip install a" None])).

End Cases.

(* ------------------------------------------------------------------ *)
(** ** runthis.py: the first analysis *)

Module PyText.

(** The characters that [str.strip()] removes, as UTF-8: U+0009 to U+000D,
    U+001C to U+0020, U+0085, U+00A0, U+1680, U+2000 to U+200A, U+2028,
    U+2029, U+202F, U+205F and U+3000. *)
Definition one (a : ascii) : string := String a EmptyString.
Definition two (a b : ascii) : string := String a (String b EmptyString).
Definition three (a b c : ascii) : string :=
  String a (String b (String c EmptyString)).

Definition whitespace : list string :=
  [one "009"; one "010"; one "011"; one "012"; one "013";
   one "028"; one "029"; one "030"; one "031"; one "032";
   two "194" "133"; two "194" "160";
   three "225" "154" "128";
   three "226" "128" "128"; three "226" "128" "129"; three "226" "128" "130";
   three "226" "128" "131"; three "226" "128" "132"; three "226" "128" "133";
   three "226" "128" "134"; three "226" "128" "135"; three "226" "128" "136";
   three "226" "128" "137"; three "226" "128" "138";
   three "226" "128" "168"; three "226" "128" "169"; three "226" "128" "175";
   three "226" "129" "159";
   three "227" "128" "128"].

(** [s] is the encoding of one whitespace character. *)
Definition is_space (s : string) : bool := existsb (String.eqb s) whitespace.

(** [s.lstrip()] *)
Fixpoint lstrip (s : string) : string :=
  match s with
  | EmptyString => EmptyString
  | String a rest =>
      if is_space (one a) then lstrip rest
      else
        match rest with
        | EmptyString => s
        | String b rest2 =>
            if is_space (two a b) then lstrip rest2
            else
              match rest2 with
              | EmptyString => s
              | String c rest3 =>
                  if is_space (three a b c) then lstrip rest3 else s
              end
        end
  end.

(** [s.rstrip()]: what is left of [s] once the text from some position on
    is whitespace only. *)
Fixpoint rstrip (s : string) : string :=
  match s with
  | EmptyString => EmptyString
  | String a rest =>
      let kept := rstrip rest in
      if is_space (String a kept) then EmptyString else String a kept
  end.

(** [s.strip()] *)
Definition strip (s : string) : string := rstrip (lstrip s).

(** [str(n)] for a natural number. *)
Definition str (n : nat) : string := DecimalString.NilZero.string_of_uint (Nat.to_uint n).

End PyText.

Module Analysis.

(** What [subprocess.run(i, shell=True, capture_output=True, text=True)]
    returns. *)
Record CompletedProcess := {
  returncode : Z;
  stdout : string;
  stderr : string
}.

(** The shell as [exec] meets it: the k-th call runs a command and returns,
    or raises ([None]); nothing in [exec] catches the exception. *)
Definition Shell : Type := nat -> string -> option CompletedProcess.

(** The text that both functions keep of a run. *)
Definition console (result : CompletedProcess) : string :=
  if returncode result =? 0 then PyText.strip (stdout result)
  else PyText.strip (stderr result).

(** The first loop of [exec] and of [exec_with_diagnostics]: [allconsole],
    with [k] the number of commands run before. *)
Fixpoint run_all (shell : Shell) (k : nat) (cmds : list string)
  : option (list string) :=
  match cmds with
  | [] => Some []
  | i :: rest =>
      match shell k i with
      | None => None
      | Some result =>
          match run_all shell (S k) rest with
          | None => None
          | Some allconsole => Some (console result :: allconsole)
          end
      end
  end.

(** One value of the dict [problems] of [exec]. *)
Record Problem := {
  command_executed : string;
  output : string;
  everything_good_and_no_errors_in_console : bool;
  analysis_required : bool
}.

(** The test behind [everything_good_and_no_errors_in_console]. *)
Definition looks_good (output : string) : bool :=
  negb (PyStr.contains "error" (PyStr.lower output))
  && negb (PyStr.contains "conflict" (PyStr.lower output)).

(** The second loop of [exec], from [idx] on: [None] stands for the
    IndexError of [allconsole[idx-1]]. *)
Fixpoint build_problems (allconsole : list string) (idx : nat)
    (cmds : list string) : option (list (string * Problem)) :=
  match cmds with
  | [] => Some []
  | cmd :: rest =>
      match nth_error allconsole (idx - 1) with
      | None => None
      | Some output =>
          match build_problems allconsole (S idx) rest with
          | None => None
          | Some problems =>
              Some ((PyText.str idx,
                     {| command_executed := cmd; output := output;
                        everything_good_and_no_errors_in_console :=
                          looks_good output;
                        analysis_required := true |}) :: problems)
          end
      end
  end.

(** [exec(cmdslist)] up to the call of the advisory service: the dict
    [problems] that the prompt carries, or [None] when an exception leaves
    the function. [k] is the number of commands run before. *)
Definition exec_problems (shell : Shell) (k : nat) (cmdslist : list string)
  : option (list (string * Problem)) :=
  match run_all shell k cmdslist with
  | None => None
  | Some allconsole => build_problems allconsole 1 cmdslist
  end.

(** The literal list of [exec_with_diagnostics]. *)
Definition diagnostic_cmds (include_env_info : bool) : list string :=
  if include_env_info then
    ["python --version"; "pip --version"; "pip list"; "pip check"]
  else [].

(** One value of [diagnostic_info] and of [main_problems]. *)
Record Diagnostic := {
  diag_command : string;
  diag_output : string
}.

Record MainProblem := {
  main_command_executed : string;
  main_output : string;
  return_code : Z;
  main_analysis_required : bool
}.

(** [for idx, cmd in enumerate(diagnostic_cmds)], from [idx] on. *)
Fixpoint build_diagnostics (allconsole : list string) (idx : nat)
    (cmds : list string) : option (list (string * Diagnostic)) :=
  match cmds with
  | [] => Some []
  | cmd :: rest =>
      match nth_error allconsole idx with
      | None => None
      | Some output =>
          match build_diagnostics allconsole (S idx) rest with
          | None => None
          | Some info =>
              Some (("diagnostic_" ++ PyText.str (idx + 1),
                     {| diag_command := cmd; diag_output := output |}) :: info)
          end
      end
  end.

(** [for idx, cmd in enumerate(cmdslist)], from [idx] on. *)
Fixpoint build_main_problems (allconsole : list string) (start_idx idx : nat)
    (cmds : list string) : option (list (string * MainProblem)) :=
  match cmds with
  | [] => Some []
  | cmd :: rest =>
      match nth_error allconsole (start_idx + idx) with
      | None => None
      | Some output =>
          match build_main_problems allconsole start_idx (S idx) rest with
          | None => None
          | Some problems =>
              Some ((PyText.str (idx + 1),
                     {| main_command_executed := cmd; main_output := output;
                        return_code := 0; main_analysis_required := true |})
                      :: problems)
          end
      end
  end.

(** [exec_with_diagnostics(cmdslist, include_env_info)] up to the call of
    the advisory service: [diagnostic_info] and [main_problems]. *)
Definition exec_with_diagnostics_problems (shell : Shell) (k : nat)
    (cmdslist : list string) (include_env_info : bool)
  : option (list (string * Diagnostic) * list (string * MainProblem)) :=
  let all_cmds := (diagnostic_cmds include_env_info ++ cmdslist)%list in
  match run_all shell k all_cmds with
  | None => None
  | Some allconsole =>
      match (if include_env_info
             then build_diagnostics allconsole 0 (diagnostic_cmds include_env_info)
             else Some []) with
      | None => None
      | Some diagnostic_info =>
          match build_main_problems allconsole
                  (List.length (diagnostic_cmds include_env_info)) 0 cmdslist with
          | None => None
          | Some main_problems => Some (diagnostic_info, main_problems)
          end
      end
  end.

End Analysis.

(** Whether the byte [b] occurs in [m]. *)
Fixpoint mentions (b : ascii) (m : string) : bool :=
  match m with
  | EmptyString => false
  | String c m' => Ascii.eqb c b || mentions b m'
  end.

(** Whether some byte of [w] occurs in [m]. *)
Fixpoint shares_byte (w m : string) : bool :=
  match w with
  | EmptyString => false
  | String b w' => mentions b m || shares_byte w' m
  end.

(** [m] has no byte in common with the encoding of a whitespace character
    (and these encodings hold no upper-case ASCII letter). *)
Definition clear_of_whitespace (m : string) : bool :=
  forallb (fun w => String.eqb (PyStr.lower w) w && negb (shares_byte w m))
          PyText.whitespace.

(** Every run of [cmds], the first being call number [k], returns. *)
Definition completes (shell : Analysis.Shell) (k : nat) (cmds : list string) : Prop :=
  forall n cmd, nth_error cmds n = Some cmd ->
    exists result, shell (k + n)%nat cmd = Some result.

(** A shell for the examples: one command fails, the others succeed with a
    warning on stderr. *)
Module Probe.

Definition failed : Analysis.CompletedProcess :=
  {| Analysis.returncode := 2;
     Analysis.stdout := "Usage: pip install [options]";
     Analysis.stderr := "no such option: -y" |}.

Definition passed : Analysis.CompletedProcess :=
  {| Analysis.returncode := 0;
     Analysis.stdout := "Requirement already satisfied: six ";
     Analysis.stderr := "WARNING: dependency conflict" |}.

Definition shell : Analysis.Shell := fun _ cmd =>
  if String.eqb cmd "pip install bad -y" then Some failed else Some passed.

Definition cmdslist : list string :=
  ["pip install six -y"; "pip install bad -y"; "pip install six -y"].

Definition problems : list (string * Analysis.Problem) :=
  match Analysis.exec_problems shell 0 cmdslist with
  | Some problems => problems
  | None => []
  end.

End Probe.

(* ------------------------------------------------------------------ *)
(** * Proofs *)

(** Runs the state monad one layer down. *)
Ltac run_monad :=
  cbv [Resolver.bind Resolver.ret Resolver.get_self Resolver.get_world
       Resolver.modify_self Resolver.modify_world];
  cbn [fst snd Resolver.self Resolver.world].

(** ** Strings *)

Section StringFacts.
Import PyStr.

Lemma startswith_spec (p s : string) :
  startswith p s = true <-> exists post, s = (p ++ post)%string.
Proof.
  revert s; induction p as [|a p IH]; intros s; simpl.
  - split; [intros _; now exists s | reflexivity].
  - destruct s as [|b s]; simpl.
    + split; [discriminate | intros [post H]; discriminate].
    + rewrite andb_true_iff, IH, Ascii.eqb_eq. split.
      * intros [-> [post ->]]. now exists post.
      * intros [post H]. injection H as -> ->. split; [reflexivity | now exists post].
Qed.

Lemma contains_spec (sub s : string) :
  contains sub s = true <-> exists pre post, s = (pre ++ sub ++ post)%string.
Proof.
  induction s as [|c s IH].
  - simpl. rewrite orb_false_r, startswith_spec. split.
    + intros [post H]. now exists EmptyString, post.
    + intros [pre [post H]]. destruct pre; simpl in H; [now exists post | discriminate].
  - cbn [contains]. rewrite orb_true_iff, startswith_spec, IH. split.
    + intros [[post H] | [pre [post H]]].
      * now exists EmptyString, post.
      * exists (String c pre), post. simpl. now rewrite H.
    + intros [pre [post H]]. destruct pre as [|a pre]; simpl in H.
      * left. now exists post.
      * right. injection H as _ H. now exists pre, post.
Qed.

Lemma lower_app (a b : string) :
  lower (a ++ b) = (lower a ++ lower b)%string.
Proof. induction a as [|c a IH]; simpl; [reflexivity | now rewrite IH]. Qed.

Lemma lower_split (s a b : string) :
  lower s = (a ++ b)%string ->
  exists s1 s2, s = (s1 ++ s2)%string /\ lower s1 = a /\ lower s2 = b.
Proof.
  revert s; induction a as [|c a IH]; intros s H; simpl in H.
  - now exists EmptyString, s.
  - destruct s as [|d s]; simpl in H; [discriminate |].
    injection H as Hc H. destruct (IH _ H) as [s1 [s2 [-> [H1 H2]]]].
    exists (String d s1), s2. simpl. now rewrite Hc, H1.
Qed.

(** [marker.lower() in output.lower()] is the case-insensitive occurrence. *)
Lemma contains_lower_iff (marker output : string) :
  contains (lower marker) (lower output) = true <->
  occurs_ignoring_case marker output.
Proof.
  rewrite contains_spec. split.
  - intros [a [b H]].
    destruct (lower_split _ _ _ H) as [pre [rest [-> [Hpre Hrest]]]].
    destruct (lower_split _ _ _ Hrest) as [mid [post [-> [Hmid Hpost]]]].
    now exists pre, mid, post.
  - intros [pre [mid [post [-> Hmid]]]].
    exists (lower pre), (lower post). now rewrite !lower_app, Hmid.
Qed.

Lemma failure_markers_lower (marker : string) :
  In marker Resolver.failure_markers -> lower marker = marker.
Proof.
  simpl. intros [<- | [<- | [<- | [<- | []]]]]; reflexivity.
Qed.

(** The scan of [execute_command] finds a marker exactly when one of the
    four occurs in the output up to case. *)
Lemma has_error_iff (output : string) :
  Resolver.has_error output = true <->
  exists marker, In marker Resolver.failure_markers /\
                 occurs_ignoring_case marker output.
Proof.
  unfold Resolver.has_error. rewrite existsb_exists. split.
  - intros [m [Hin H]]. exists m. split; [exact Hin |].
    apply contains_lower_iff. now rewrite (failure_markers_lower _ Hin).
  - intros [m [Hin H]]. exists m. split; [exact Hin |].
    apply contains_lower_iff in H. now rewrite (failure_markers_lower _ Hin) in H.
Qed.

End StringFacts.

(** ** The command runner *)

Section CommandRunner.
Import Resolver.
Variable env : Env.

(** The three ways a call of [execute_command] ends. *)
Lemma execute_command_unfold (command description : string) (st : State) :
  execute_command env command description st =
  let w := tick_proc (world st) in
  match subprocess_run env (proc_calls (world st)) command with
  | Completed returncode stdout stderr =>
      let output := (stdout ++ stderr)%string in
      let actual_success := (returncode =? 0) && negb (has_error output) in
      ((actual_success, output),
       {| self := append_log
                    {| log_command := command; log_success := actual_success;
                       log_output := output; log_exit_code := returncode;
                       log_timestamp := strftime env w;
                       log_description := description |} (self st);
          world := w |})
  | TimeoutExpired =>
      ((false, "Command timeout"), {| self := self st; world := w |})
  | RunRaised message =>
      ((false, message), {| self := self st; world := w |})
  end.
Proof.
  unfold execute_command. run_monad.
  destruct (subprocess_run env (proc_calls (world st)) command); reflexivity.
Qed.

(** A command touches nothing of [self] but the execution log. *)
Lemma execute_command_frame (command description : string) (st : State) :
  let s' := self (snd (execute_command env command description st)) in
  data s' = data (self st) /\
  max_ai_iterations s' = max_ai_iterations (self st) /\
  ai_consultation_count s' = ai_consultation_count (self st) /\
  web_search_count s' = web_search_count (self st) /\
  solved s' = solved (self st) /\
  solution_history s' = solution_history (self st).
Proof.
  rewrite execute_command_unfold.
  destruct (subprocess_run env (proc_calls (world st)) command);
    cbn; repeat split; reflexivity.
Qed.

(** The log never shrinks and grows by at most one entry per command. *)
Lemma execute_command_log (command description : string) (st : State) :
  let s' := self (snd (execute_command env command description st)) in
  execution_log s' = execution_log (self st) \/
  exists e, execution_log s' = (execution_log (self st) ++ [e])%list /\
            log_command e = command.
Proof.
  rewrite execute_command_unfold.
  destruct (subprocess_run env (proc_calls (world st)) command); cbn;
    [right; eexists; split; reflexivity | left; reflexivity ..].
Qed.

(** The verdict on a command that returned a result, in terms of the scan
    of the sources. *)
Lemma execute_command_completed_verdict
    (command description : string) (st : State)
    (returncode : Z) (stdout stderr : string) :
  subprocess_run env (proc_calls (world st)) command
    = Completed returncode stdout stderr ->
  fst (fst (execute_command env command description st)) = true <->
  (returncode = 0 /\
   forall marker, In marker failure_markers ->
     ~ occurs_ignoring_case marker (stdout ++ stderr)).
Proof.
  intros Hrun. rewrite execute_command_unfold, Hrun. cbn [fst].
  rewrite andb_true_iff, negb_true_iff, Z.eqb_eq. split.
  - intros [Hcode Hscan]. split; [exact Hcode |].
    intros marker Hin Hocc.
    assert (has_error (stdout ++ stderr) = true) as Hyes
      by (apply has_error_iff; now exists marker).
    congruence.
  - intros [Hcode Hnone]. split; [exact Hcode |].
    destruct (has_error (stdout ++ stderr)) eqn:Hscan; [| reflexivity].
    apply has_error_iff in Hscan. destruct Hscan as [marker [Hin Hocc]].
    destruct (Hnone marker Hin Hocc).
Qed.

(** A completed command is logged once, with its real exit code. *)
Lemma execute_command_completed_logged
    (command description : string) (st : State)
    (returncode : Z) (stdout stderr : string) :
  subprocess_run env (proc_calls (world st)) command
    = Completed returncode stdout stderr ->
  exists e,
    execution_log (self (snd (execute_command env command description st)))
      = (execution_log (self st) ++ [e])%list /\
    log_command e = command /\ log_exit_code e = returncode /\
    log_output e = (stdout ++ stderr)%string /\
    log_success e = fst (fst (execute_command env command description st)).
Proof.
  intros Hrun. rewrite execute_command_unfold, Hrun. cbn.
  eexists; repeat split; reflexivity.
Qed.

End CommandRunner.

(** ** The solution applier *)

Lemma frame_refl (s : Resolver.Session) : frame s s.
Proof. repeat split. Qed.

Lemma frame_trans (s1 s2 s3 : Resolver.Session) :
  frame s1 s2 -> frame s2 s3 -> frame s1 s3.
Proof.
  unfold frame. intros (A1 & A2 & A3 & A4 & A5) (B1 & B2 & B3 & B4 & B5).
  repeat split; congruence.
Qed.

Section Applier.
Import Resolver.
Variable env : Env.

Lemma execute_command_keeps (command description : string) (st : State) :
  frame (self st) (self (snd (execute_command env command description st))).
Proof.
  destruct (execute_command_frame env command description st)
    as (H1 & H2 & H3 & H4 & _ & H6).
  repeat split; assumption.
Qed.

Lemma run_undo_keeps (cmds : list string) (st : State) :
  frame (self st) (self (snd (run_undo env cmds st))) /\
  solved (self (snd (run_undo env cmds st))) = solved (self st).
Proof.
  revert st; induction cmds as [|cmd rest IH]; intros st; simpl.
  - split; [apply frame_refl | reflexivity].
  - unfold bind.
    pose proof (execute_command_keeps cmd "Undo previous changes" st) as Hk.
    pose proof (execute_command_frame env cmd "Undo previous changes" st)
      as (_ & _ & _ & _ & Hs & _).
    destruct (execute_command env cmd "Undo previous changes" st) as [r st1].
    cbn [snd] in Hk, Hs. destruct (IH st1) as [Hf Hsolved]. split.
    + eapply frame_trans; eassumption.
    + congruence.
Qed.

Lemma run_commands_keeps (cmds : list string) (all_success : bool)
    (failed : list FailedCommand) (st : State) :
  frame (self st)
        (self (snd (run_commands env cmds all_success failed st))) /\
  solved (self (snd (run_commands env cmds all_success failed st)))
    = solved (self st).
Proof.
  revert all_success failed st;
    induction cmds as [|cmd rest IH]; intros all_success failed st; simpl.
  - split; [apply frame_refl | reflexivity].
  - unfold bind.
    pose proof (execute_command_keeps cmd "" st) as Hk.
    pose proof (execute_command_frame env cmd "" st)
      as (_ & _ & _ & _ & Hs & _).
    destruct (execute_command env cmd "" st) as [[success output] st1].
    cbn [snd] in Hk, Hs.
    destruct success;
      match goal with
      | |- context [run_commands env rest ?a ?f st1] =>
          destruct (IH a f st1) as [Hf Hsolved]
      end;
      (split; [eapply frame_trans; eassumption | congruence]).
Qed.

(** Every entry that [apply_solution] puts in [failed_commands] carries the
    literal exit code 1. *)
Lemma run_commands_exit_codes (cmds : list string) (all_success : bool)
    (failed : list FailedCommand) (st : State) :
  Forall (fun f => fc_exit_code f = 1) failed ->
  Forall (fun f => fc_exit_code f = 1)
         (snd (fst (run_commands env cmds all_success failed st))).
Proof.
  revert all_success failed st;
    induction cmds as [|cmd rest IH]; intros all_success failed st Hall; simpl.
  - exact Hall.
  - unfold bind.
    destruct (execute_command env cmd "" st) as [[success output] st1].
    destruct success; apply IH; [exact Hall |].
    apply Forall_app. split; [exact Hall |].
    constructor; [reflexivity | constructor].
Qed.

Lemma execute_phase_keeps (solution : Solution) (st : State) :
  frame (self st) (self (snd (execute_phase env solution st))).
Proof.
  unfold execute_phase, bind.
  destruct (run_undo_keeps (undo_commands solution) st) as [Hundo _].
  destruct (run_undo env (undo_commands solution) st) as [u st1].
  cbn [snd] in Hundo.
  destruct (is_commands solution); [| exact Hundo].
  destruct (commands solution) as [|cmd rest] eqn:Hcmds; [exact Hundo |].
  destruct (run_commands_keeps (cmd :: rest) true [] st1) as [Hrun _].
  destruct (run_commands env (cmd :: rest) true [] st1)
    as [[all_success failed] st2].
  cbn [snd] in Hrun.
  assert (frame (self st) (self st2)) as H2 by (eapply frame_trans; eassumption).
  destruct all_success; [| exact H2].
  destruct (truthy_command (verification_command solution)) as [v|]; [| exact H2].
  pose proof (execute_command_keeps v "Verify solution" st2) as Hv.
  destruct (execute_command env v "Verify solution" st2) as [[ok out] st3].
  cbn [snd fst] in *.
  destruct ok; run_monad.
  - eapply frame_trans; [exact H2 |].
    destruct Hv as (A1 & A2 & A3 & A4 & A5). repeat split; assumption.
  - eapply frame_trans; eassumption.
Qed.

Lemma execute_phase_exit_codes (solution : Solution) (st : State) :
  Forall (fun f => fc_exit_code f = 1)
         (snd (fst (execute_phase env solution st))).
Proof.
  unfold execute_phase, bind.
  destruct (run_undo env (undo_commands solution) st) as [u st1].
  destruct (is_commands solution); [| constructor].
  destruct (commands solution) as [|cmd rest]; [constructor |].
  pose proof (run_commands_exit_codes (cmd :: rest) true [] st1
                (Forall_nil _)) as Hrun.
  destruct (run_commands env (cmd :: rest) true [] st1)
    as [[all_success failed] st2].
  cbn [snd fst] in Hrun.
  destruct all_success; [| exact Hrun].
  destruct (truthy_command (verification_command solution)) as [v|];
    [| exact Hrun].
  destruct (execute_command env v "Verify solution" st2) as [[ok out] st3].
  destruct ok; exact Hrun.
Qed.

Lemma record_attempt_unfold (solution : Solution) (solution_num : Z) (st : State) :
  record_attempt env solution solution_num st =
  (tt, {| self := append_history (history_entry env solution solution_num (world st)) (self st);
          world := world st |}).
Proof. reflexivity. Qed.

(** The history append comes first and is the only one of the call. *)
Lemma apply_solution_history
    (solution : Solution) (solution_num : Z) (st : State) :
  let recorded := snd (record_attempt env solution solution_num st) in
  let final := snd (apply_solution env solution solution_num st) in
  apply_solution env solution solution_num st
    = execute_phase env solution recorded /\
  solution_history (self recorded)
    = (solution_history (self st) ++ [history_entry env solution solution_num (world st)])%list /\
  execution_log (self recorded) = execution_log (self st) /\
  world recorded = world st /\
  solution_history (self final)
    = (solution_history (self st) ++ [history_entry env solution solution_num (world st)])%list /\
  List.length (solution_history (self final))
    = S (List.length (solution_history (self st))).
Proof.
  intros recorded final.
  assert (apply_solution env solution solution_num st
          = execute_phase env solution recorded) as Happly by reflexivity.
  assert (solution_history (self final)
          = (solution_history (self st)
               ++ [history_entry env solution solution_num (world st)])%list) as Hfinal.
  { subst final. rewrite Happly.
    destruct (execute_phase_keeps solution recorded) as (_ & _ & _ & _ & Hh).
    rewrite Hh. reflexivity. }
  repeat split; try reflexivity; try exact Hfinal.
  rewrite Hfinal, length_app. simpl. lia.
Qed.

Lemma apply_solution_exit_codes
    (solution : Solution) (solution_num : Z) (st : State) :
  Forall (fun f => fc_exit_code f = 1)
         (snd (fst (apply_solution env solution solution_num st))).
Proof.
  unfold apply_solution, bind. rewrite record_attempt_unfold.
  apply execute_phase_exit_codes.
Qed.

End Applier.

(** ** The consultation manager *)

Section Consultation.
Import Resolver.
Variable env : Env.

(** With the budget exhausted the call returns [None] and changes nothing:
    no counter moves and the service is not called. *)
Lemma trigger_exhausted (failed : list FailedCommand) (issue : string) (st : State) :
  ai_consultation_count (self st) >= max_ai_iterations (self st) ->
  trigger_web_search_consultation env failed issue st = (None, st).
Proof.
  intros Hfull. unfold trigger_web_search_consultation.
  destruct (HAS_AI env); cbn [negb]; [| reflexivity].
  run_monad.
  destruct (ai_consultation_count (self st) >=? max_ai_iterations (self st)) eqn:Hge;
    [reflexivity |].
  rewrite Z.geb_leb in Hge. apply Z.leb_gt in Hge. lia.
Qed.

(** Past both guards the two counters move by one, whatever the service
    does, and nothing else of [self] changes. *)
Lemma trigger_spends (failed : list FailedCommand) (issue : string) (st : State) :
  HAS_AI env = true ->
  ai_consultation_count (self st) < max_ai_iterations (self st) ->
  let s' := self (snd (trigger_web_search_consultation env failed issue st)) in
  s' = count_consultation (self st).
Proof.
  intros Hai Hroom. unfold trigger_web_search_consultation.
  rewrite Hai. cbn [negb]. run_monad.
  destruct (ai_consultation_count (self st) >=? max_ai_iterations (self st)) eqn:Hge.
  - rewrite Z.geb_leb in Hge. apply Z.leb_le in Hge. lia.
  - destruct (addhistory env (oracle_calls (world st))) as [| | parsed ai_data];
      try reflexivity.
    destruct parsed as [p|].
    + destruct (recommended_solutions p); [reflexivity |].
      destruct (recommended_solutions ai_data); reflexivity.
    + destruct (recommended_solutions ai_data); reflexivity.
Qed.

(** Without advisory support the call returns [None] and changes nothing. *)
Lemma trigger_without_ai (failed : list FailedCommand) (issue : string) (st : State) :
  HAS_AI env = false ->
  trigger_web_search_consultation env failed issue st = (None, st).
Proof.
  intros Hai. unfold trigger_web_search_consultation. now rewrite Hai.
Qed.

(** A call either leaves [self] alone or spends one consultation that the
    budget still allowed. *)
Lemma trigger_cases (failed : list FailedCommand) (issue : string) (st : State) :
  let s' := self (snd (trigger_web_search_consultation env failed issue st)) in
  s' = self st \/
  (s' = count_consultation (self st) /\
   ai_consultation_count (self st) < max_ai_iterations (self st)).
Proof.
  destruct (HAS_AI env) eqn:Hai.
  - destruct (Z_lt_ge_dec (ai_consultation_count (self st))
                          (max_ai_iterations (self st))) as [Hroom | Hfull].
    + right. split; [now apply trigger_spends | exact Hroom].
    + left. now rewrite trigger_exhausted.
  - left. now rewrite trigger_without_ai.
Qed.

(** A payload that comes back always carries [recommended_solutions]. *)
Lemma trigger_returns_solutions (failed : list FailedCommand) (issue : string)
    (st : State) (p : Payload) :
  fst (trigger_web_search_consultation env failed issue st) = Some p ->
  recommended_solutions p <> None.
Proof.
  unfold trigger_web_search_consultation.
  destruct (HAS_AI env); cbn [negb]; [| discriminate].
  run_monad.
  destruct (ai_consultation_count (self st) >=? max_ai_iterations (self st));
    [discriminate |].
  destruct (addhistory env (oracle_calls (world st))) as [| | parsed ai_data];
    try discriminate.
  destruct parsed as [q|].
  - destruct (recommended_solutions q) eqn:Hq.
    + cbn. intros [= <-]. congruence.
    + destruct (recommended_solutions ai_data) eqn:Ha; cbn;
        [intros [= <-]; congruence | discriminate].
  - destruct (recommended_solutions ai_data) eqn:Ha; cbn;
      [intros [= <-]; congruence | discriminate].
Qed.

Lemma trigger_budget (failed : list FailedCommand) (issue : string) (st : State) :
  budget_ok (self st) ->
  budget_ok (self (snd (trigger_web_search_consultation env failed issue st))).
Proof.
  intros Hok. destruct (trigger_cases failed issue st) as [-> | [-> Hroom]].
  - exact Hok.
  - unfold budget_ok. cbn. lia.
Qed.

End Consultation.

(** ** The resolution loop *)

Section Loop.
Import Resolver.
Variable env : Env.

Lemma frame_counters (s s' : Session) : frame s s' -> counters s' = counters s.
Proof. intros (_ & H2 & H3 & H4 & _). unfold counters. congruence. Qed.

Lemma apply_solution_counters (solution : Solution) (n : Z) (st : State) :
  counters (self (snd (apply_solution env solution n st))) = counters (self st).
Proof.
  destruct (apply_solution_history env solution n st) as (-> & _).
  rewrite (frame_counters _ _ (execute_phase_keeps env solution _)).
  reflexivity.
Qed.

Lemma execute_command_counters (command description : string) (st : State) :
  counters (self (snd (execute_command env command description st)))
    = counters (self st).
Proof. apply frame_counters, execute_command_keeps. Qed.

Lemma run_pass_counters (solutions : list Solution) (i sc cf : Z)
    (failed : list FailedCommand) (st : State) :
  counters (self (snd (run_pass env solutions i sc cf failed st)))
    = counters (self st).
Proof.
  revert i sc cf failed st;
    induction solutions as [|solution rest IH]; intros i sc cf failed st.
  - reflexivity.
  - cbn [run_pass]. unfold bind at 1.
    pose proof (apply_solution_counters solution i st) as Ha.
    destruct (apply_solution env solution i st) as [[success failed_cmds] st1].
    cbn [snd] in Ha. destruct success.
    + unfold bind at 1.
      pose proof (execute_command_counters "pip check" "Final dependency check" st1)
        as Hc.
      destruct (execute_command env "pip check" "Final dependency check" st1)
        as [[ok out] st2].
      cbn [snd fst] in *. destruct ok.
      * run_monad. unfold counters in *. cbn. congruence.
      * rewrite IH. congruence.
    + rewrite IH. exact Ha.
Qed.

(** A pass that runs off the end of the queue has applied every solution of
    it; a pass that returns from inside has applied at least one and at most
    all of them. Each application left one history entry. *)
Lemma run_pass_history (solutions : list Solution) (i sc cf : Z)
    (failed : list FailedCommand) (st st' : State) (r : PassResult) :
  run_pass env solutions i sc cf failed st = (r, st') ->
  let before := List.length (solution_history (self st)) in
  let after := List.length (solution_history (self st')) in
  match r with
  | PassDone _ _ _ => after = (before + List.length solutions)%nat
  | PassReturnedTrue =>
      (before + 1 <= after /\ after <= before + List.length solutions)%nat
  end.
Proof.
  revert i sc cf failed st;
    induction solutions as [|solution rest IH]; intros i sc cf failed st.
  - cbn. intros [= <- <-]. cbn. lia.
  - cbn [run_pass]. unfold bind at 1.
    destruct (apply_solution_history env solution i st)
      as (_ & _ & _ & _ & _ & Hlen).
    destruct (apply_solution env solution i st) as [[success failed_cmds] st1].
    cbn [snd] in Hlen.
    assert (forall c d,
      solution_history (self (snd (execute_command env c d st1)))
        = solution_history (self st1)) as Hcmd
      by (intros c d; apply execute_command_frame).
    destruct success.
    + unfold bind at 1.
      specialize (Hcmd "pip check" "Final dependency check").
      destruct (execute_command env "pip check" "Final dependency check" st1)
        as [[ok out] st2].
      cbn [snd fst] in *. destruct ok.
      * run_monad. intros [= <- <-]. cbn.
        rewrite Hcmd, Hlen. cbn [List.length]. lia.
      * intros Hrest. apply IH in Hrest. cbn zeta in Hrest.
        rewrite Hcmd, Hlen in Hrest.
        destruct r; cbn [List.length]; lia.
    + intros Hrest. apply IH in Hrest. cbn zeta in Hrest.
      rewrite Hlen in Hrest.
      destruct r; cbn [List.length]; lia.
Qed.

(** The failed commands handed to the consultation all carry exit code 1. *)
Lemma run_pass_exit_codes (solutions : list Solution) (i sc cf : Z)
    (failed : list FailedCommand) (st : State) :
  Forall (fun f => fc_exit_code f = 1) failed ->
  match fst (run_pass env solutions i sc cf failed st) with
  | PassDone _ _ all_failed => Forall (fun f => fc_exit_code f = 1) all_failed
  | PassReturnedTrue => True
  end.
Proof.
  revert i sc cf failed st;
    induction solutions as [|solution rest IH]; intros i sc cf failed st Hall.
  - exact Hall.
  - cbn [run_pass]. unfold bind at 1.
    pose proof (apply_solution_exit_codes env solution i st) as Hf.
    destruct (apply_solution env solution i st) as [[success failed_cmds] st1].
    cbn [snd fst] in Hf. destruct success.
    + unfold bind at 1.
      destruct (execute_command env "pip check" "Final dependency check" st1)
        as [[ok out] st2].
      cbn [fst]. destruct ok; [exact I | now apply IH].
    + apply IH. apply Forall_app. now split.
Qed.

End Loop.

Section While.
Import Resolver.
Variable env : Env.

(** One turn of the [while] loop on an unsolved session with a queue. *)
Lemma resolution_while_step (remaining : nat) (solution : Solution)
    (rest : list Solution) (issue : string) (cf : Z) (st : State) :
  solved (self st) = false ->
  resolution_while env (S remaining) (solution :: rest) issue cf st =
  let (r, st1) := run_pass env (solution :: rest) 1 0 cf [] st in
  match r with
  | PassReturnedTrue => (true, st1)
  | PassDone success_count cf' all_failed =>
      if (success_count =? 0) && HAS_AI env then
        let (ai_response, st2) :=
          trigger_web_search_consultation env all_failed issue st1 in
        match new_solutions_of ai_response with
        | (_ :: _) as new_solutions =>
            resolution_while env remaining new_solutions issue 0 st2
        | [] =>
            if stop_requested ai_response then (false, st2)
            else resolution_while env remaining (solution :: rest) issue cf' st2
        end
      else if success_count =? 0 then (false, st1)
      else resolution_while env remaining (solution :: rest) issue cf' st1
  end.
Proof.
  intros Hunsolved. cbn [resolution_while].
  unfold bind at 1. unfold get_self at 1. rewrite Hunsolved.
  unfold bind at 1.
  destruct (run_pass env (solution :: rest) 1 0 cf [] st) as [r st1].
  destruct r as [|success_count cf' all_failed]; [reflexivity |].
  destruct (success_count =? 0); destruct (HAS_AI env); cbn [andb];
    try reflexivity.
  unfold bind at 1.
  destruct (trigger_web_search_consultation env all_failed issue st1)
    as [ai_response st2].
  destruct (new_solutions_of ai_response); [| reflexivity].
  destruct (stop_requested ai_response); reflexivity.
Qed.

(** The loop stops at once on a solved session, on an empty queue and at
    the iteration cap. *)
Lemma resolution_while_stops (remaining : nat) (solutions : list Solution)
    (issue : string) (cf : Z) (st : State) :
  remaining = O \/ solved (self st) = true \/ solutions = [] ->
  resolution_while env remaining solutions issue cf st = (false, st).
Proof.
  destruct remaining as [|remaining]; [reflexivity |].
  intros [Hcap | [Hsolved | Hempty]]; [discriminate | |];
    cbn [resolution_while]; unfold bind at 1; unfold get_self at 1.
  - now rewrite Hsolved.
  - subst solutions. now destruct (solved (self st)).
Qed.

Lemma resolution_while_counters (remaining : nat) (solutions : list Solution)
    (issue : string) (cf : Z) (st : State) :
  budget_ok (self st) ->
  let s' := self (snd (resolution_while env remaining solutions issue cf st)) in
  budget_ok s' /\ max_ai_iterations s' = max_ai_iterations (self st).
Proof.
  revert solutions cf st;
    induction remaining as [|remaining IH]; intros solutions cf st Hok.
  - split; [exact Hok | reflexivity].
  - destruct (solved (self st)) eqn:Hsolved.
    { rewrite resolution_while_stops by auto. split; [exact Hok | reflexivity]. }
    destruct solutions as [|solution rest].
    { rewrite resolution_while_stops by auto. split; [exact Hok | reflexivity]. }
    rewrite resolution_while_step by exact Hsolved.
    pose proof (run_pass_counters env (solution :: rest) 1 0 cf [] st) as Hpass.
    destruct (run_pass env (solution :: rest) 1 0 cf [] st) as [r st1].
    cbn [snd] in Hpass. unfold counters in Hpass.
    injection Hpass as Hmax Hcount _.
    assert (budget_ok (self st1)) as Hok1 by (unfold budget_ok in *; lia).
    destruct r as [|success_count cf' all_failed].
    { cbn [snd]. split; [exact Hok1 | exact Hmax]. }
    destruct ((success_count =? 0) && HAS_AI env).
    + pose proof (trigger_budget env all_failed issue st1 Hok1) as Hok2.
      pose proof (trigger_cases env all_failed issue st1) as Hcases.
      destruct (trigger_web_search_consultation env all_failed issue st1)
        as [ai_response st2].
      cbn [snd] in Hok2, Hcases.
      assert (max_ai_iterations (self st2) = max_ai_iterations (self st)) as Hmax2.
      { destruct Hcases as [Hsame | [Hspent _]];
          [rewrite Hsame | rewrite Hspent; cbn]; exact Hmax. }
      destruct (new_solutions_of ai_response) as [|new rest'].
      * destruct (stop_requested ai_response).
        -- cbn [snd]. split; assumption.
        -- destruct (IH (solution :: rest) cf' st2 Hok2) as [H1 H2].
           split; [exact H1 | congruence].
      * destruct (IH (new :: rest') 0 st2 Hok2) as [H1 H2].
        split; [exact H1 | congruence].
    + destruct (success_count =? 0).
      * cbn [snd]. split; assumption.
      * destruct (IH (solution :: rest) cf' st1 Hok1) as [H1 H2].
        split; [exact H1 | congruence].
Qed.

(** What [load_json] does to the state. *)
Lemma load_json_unfold (st : State) :
  load_json env st =
  match loaded_diagnosis (json_file env) with
  | Some d => (true, {| self := set_data d (self st); world := world st |})
  | None => (false, st)
  end.
Proof. unfold load_json. destruct (json_file env); reflexivity. Qed.

(** The loop before its [while]: load, look at the status, build the queue. *)
Lemma continuous_resolution_loop_unfold (st : State) :
  continuous_resolution_loop env st =
  match loaded_diagnosis (json_file env) with
  | None => (false, st)
  | Some d =>
      let st1 := {| self := set_data d (self st); world := world st |} in
      if status_is_success d then (true, st1)
      else
        match default [] (diag_recommended_solutions d) with
        | [] => (false, st1)
        | (_ :: _) as solutions =>
            resolution_while env max_total_iterations (initial_queue solutions)
              (default "Package conflict" (summary d)) 0 st1
        end
  end.
Proof.
  unfold continuous_resolution_loop.
  unfold bind at 1. rewrite load_json_unfold.
  destruct (loaded_diagnosis (json_file env)) as [d|]; cbn [negb];
    [| reflexivity].
  run_monad. cbn [data set_data].
  destruct (status_is_success d); [reflexivity |].
  destruct (default [] (diag_recommended_solutions d)); reflexivity.
Qed.

Lemma continuous_resolution_loop_counters (st : State) :
  budget_ok (self st) ->
  let s' := self (snd (continuous_resolution_loop env st)) in
  budget_ok s' /\ max_ai_iterations s' = max_ai_iterations (self st).
Proof.
  intros Hok. rewrite continuous_resolution_loop_unfold.
  destruct (loaded_diagnosis (json_file env)) as [d|];
    [| split; [exact Hok | reflexivity]].
  cbn zeta.
  destruct (status_is_success d); [split; [exact Hok | reflexivity] |].
  destruct (default [] (diag_recommended_solutions d)) as [|s0 rest];
    [split; [exact Hok | reflexivity] |].
  apply (resolution_while_counters max_total_iterations
           (initial_queue (s0 :: rest)) _ 0
           {| self := set_data d (self st); world := world st |}).
  exact Hok.
Qed.

(** A diagnosis that reports success ends the loop before anything runs. *)
Lemma continuous_resolution_loop_success (d : Diagnosis) (st : State) :
  loaded_diagnosis (json_file env) = Some d ->
  status_is_success d = true ->
  continuous_resolution_loop env st
    = (true, {| self := set_data d (self st); world := world st |}).
Proof.
  intros Hload Hstatus.
  rewrite continuous_resolution_loop_unfold, Hload. cbn zeta.
  now rewrite Hstatus.
Qed.

(** Sorting by priority keeps the queue a queue of [commands] solutions. *)
Lemma insert_by_priority_all (P : Solution -> Prop) (s : Solution)
    (l : list Solution) :
  P s -> Forall P l -> Forall P (insert_by_priority s l).
Proof.
  intros Hs Hl. induction Hl as [|t rest Ht Hrest IH]; cbn.
  - now constructor.
  - destruct (sort_key s <=? sort_key t); repeat constructor; assumption.
Qed.

Lemma sort_by_priority_all (P : Solution -> Prop) (l : list Solution) :
  Forall P l -> Forall P (sort_by_priority l).
Proof.
  intros Hl. induction Hl as [|s rest Hs Hrest IH]; cbn.
  - constructor.
  - now apply insert_by_priority_all.
Qed.

Lemma filter_all {A} (f : A -> bool) (l : list A) :
  Forall (fun a => f a = true) (filter f l).
Proof.
  apply Forall_forall. intros a Hin. now apply filter_In in Hin.
Qed.

Lemma initial_queue_commands (solutions : list Solution) :
  Forall (fun s => is_commands s = true) (initial_queue solutions).
Proof. apply sort_by_priority_all, filter_all. Qed.

Lemma new_solutions_commands (ai_response : option Payload) :
  Forall (fun s => is_commands s = true) (new_solutions_of ai_response).
Proof.
  destruct ai_response as [p|]; cbn; [apply filter_all | constructor].
Qed.

(** A solution that is not of type [commands] gets its history entry and
    its undo commands, and then the same answer as a failed solution. *)
Lemma apply_solution_not_commands (solution : Solution) (n : Z) (st : State) :
  is_commands solution = false ->
  apply_solution env solution n st =
  ((false, []),
   snd (run_undo env (undo_commands solution)
          (snd (record_attempt env solution n st)))).
Proof.
  intros Htype. unfold apply_solution, execute_phase.
  unfold bind at 1. rewrite record_attempt_unfold. cbn [snd].
  unfold bind at 1.
  destruct (run_undo env (undo_commands solution) _) as [u st1].
  now rewrite Htype.
Qed.

End While.

(** ** The decoder *)

Section DecoderFacts.
Import PyStr Decoder.

Lemma contains_char_cons (c a : ascii) (s : string) :
  contains (String c EmptyString) (String a s)
    = Ascii.eqb c a || contains (String c EmptyString) s.
Proof.
  cbn [contains startswith]. now rewrite andb_true_r.
Qed.

Lemma find_bounds (c : ascii) (s : string) :
  -1 <= find c s < Z.of_nat (String.length s).
Proof.
  induction s as [|a s IH]; cbn [find String.length]; [lia |].
  destruct (Ascii.eqb a c); [lia |].
  destruct (find c s =? -1) eqn:E; lia.
Qed.

Lemma rfind_bounds (c : ascii) (s : string) :
  -1 <= rfind c s < Z.of_nat (String.length s).
Proof.
  induction s as [|a s IH]; cbn [rfind String.length]; [lia |].
  destruct (rfind c s =? -1) eqn:E; [destruct (Ascii.eqb a c) |]; lia.
Qed.

(** [find] answers -1 exactly when the character does not occur. *)
Lemma find_absent (c : ascii) (s : string) :
  find c s = -1 <-> contains (String c EmptyString) s = false.
Proof.
  induction s as [|a s IH].
  - cbn. tauto.
  - rewrite contains_char_cons, orb_false_iff, <- IH. cbn [find].
    rewrite (Ascii.eqb_sym c a).
    pose proof (find_bounds c s) as Hb.
    destruct (Ascii.eqb a c).
    + split; [lia | intros [H _]; discriminate].
    + destruct (find c s =? -1) eqn:E.
      * apply Z.eqb_eq in E. tauto.
      * apply Z.eqb_neq in E. split; [lia | tauto].
Qed.

Lemma rfind_absent (c : ascii) (s : string) :
  rfind c s = -1 <-> contains (String c EmptyString) s = false.
Proof.
  induction s as [|a s IH].
  - cbn. tauto.
  - rewrite contains_char_cons, orb_false_iff, <- IH. cbn [rfind].
    rewrite (Ascii.eqb_sym c a).
    pose proof (rfind_bounds c s) as Hb.
    destruct (rfind c s =? -1) eqn:E.
    + apply Z.eqb_eq in E. destruct (Ascii.eqb a c).
      * split; [lia | intros [H _]; discriminate].
      * tauto.
    + apply Z.eqb_neq in E. split; [lia | tauto].
Qed.

(** [find] answers the length of the text before the first occurrence. *)
Lemma find_first (c : ascii) (pre rest : string) :
  contains (String c EmptyString) pre = false ->
  find c (pre ++ String c rest) = Z.of_nat (String.length pre).
Proof.
  induction pre as [|a pre IH]; intros Hpre.
  - cbn. now rewrite Ascii.eqb_refl.
  - rewrite contains_char_cons, orb_false_iff in Hpre. destruct Hpre as [Ha Hpre].
    cbn [append find String.length]. rewrite Ascii.eqb_sym, Ha, (IH Hpre).
    destruct (Z.of_nat (String.length pre) =? -1) eqn:E; [| lia].
    apply Z.eqb_eq in E. lia.
Qed.

(** [rfind] answers the length of the text before the last occurrence. *)
Lemma rfind_last (c : ascii) (pre post : string) :
  contains (String c EmptyString) post = false ->
  rfind c (pre ++ String c post) = Z.of_nat (String.length pre).
Proof.
  intros Hpost. apply rfind_absent in Hpost.
  induction pre as [|a pre IH].
  - cbn. now rewrite Hpost, Ascii.eqb_refl.
  - cbn [append rfind String.length]. rewrite IH.
    destruct (Z.of_nat (String.length pre) =? -1) eqn:E; [| lia].
    apply Z.eqb_eq in E. lia.
Qed.

(** Conversely a found position splits the text at the first occurrence. *)
Lemma find_splits (c : ascii) (s : string) :
  find c s <> -1 ->
  exists pre rest,
    s = (pre ++ String c rest)%string /\
    contains (String c EmptyString) pre = false /\
    find c s = Z.of_nat (String.length pre).
Proof.
  induction s as [|a s IH]; cbn [find]; [congruence |].
  destruct (Ascii.eqb a c) eqn:Hac.
  - intros _. apply Ascii.eqb_eq in Hac. subst a.
    exists EmptyString, s. repeat split.
  - destruct (find c s =? -1) eqn:E; [congruence |].
    apply Z.eqb_neq in E. intros _.
    destruct (IH E) as (pre & rest & -> & Hpre & Hfind).
    exists (String a pre), rest. repeat split.
    + rewrite contains_char_cons, (Ascii.eqb_sym c a), Hac, Hpre. reflexivity.
    + rewrite Hfind. cbn [String.length]. lia.
Qed.

Lemma rfind_splits (c : ascii) (s : string) :
  rfind c s <> -1 ->
  exists pre post,
    s = (pre ++ String c post)%string /\
    contains (String c EmptyString) post = false /\
    rfind c s = Z.of_nat (String.length pre).
Proof.
  induction s as [|a s IH]; cbn [rfind]; [congruence |].
  destruct (rfind c s =? -1) eqn:E.
  - apply Z.eqb_eq in E. destruct (Ascii.eqb a c) eqn:Hac; [| congruence].
    intros _. apply Ascii.eqb_eq in Hac. subst a.
    exists EmptyString, s. repeat split. now apply rfind_absent.
  - apply Z.eqb_neq in E. intros _.
    destruct (IH E) as (pre & post & -> & Hpost & Hfind).
    exists (String a pre), post. repeat split; [exact Hpost |].
    rewrite Hfind. cbn [String.length]. lia.
Qed.

Lemma string_length_app (a b : string) :
  String.length (a ++ b) = (String.length a + String.length b)%nat.
Proof. induction a as [|c a IH]; cbn; [reflexivity | now rewrite IH]. Qed.

Lemma substring_middle (pre mid post : string) :
  substring (String.length pre) (String.length mid) (pre ++ mid ++ post) = mid.
Proof.
  induction pre as [|c pre IH]; cbn [append String.length substring].
  - induction mid as [|d mid IHm]; cbn.
    + now destruct post.
    + now rewrite IHm.
  - exact IH.
Qed.

Lemma string_app_assoc (a b c : string) :
  ((a ++ b) ++ c = a ++ b ++ c)%string.
Proof. induction a as [|x a IH]; cbn; [reflexivity | now rewrite IH]. Qed.

Lemma app_inv_length (a b a' b' : string) :
  (a ++ b = a' ++ b')%string -> String.length a = String.length a' ->
  a = a' /\ b = b'.
Proof.
  revert a'; induction a as [|x a IH]; intros [|y a'] H Hlen;
    cbn in *; try discriminate.
  - now split.
  - injection H as -> H. injection Hlen as Hlen.
    destruct (IH _ H Hlen) as [-> ->]. now split.
Qed.

(** What the two searches and the slice of [safe_json_parse] compute, in
    terms of the text: the block from the first opening brace to the last
    closing brace, when the closing one comes after the opening one. *)
Lemma brace_block_found (text block : string) :
  brace_block text block ->
  find "{" text <> -1 /\
  rfind "}" text + 1 > find "{" text /\
  slice text (find "{" text) (rfind "}" text + 1) = block.
Proof.
  intros (pre & mid & post & -> & -> & Hpre & Hpost).
  assert (find "{" (pre ++ ("{" ++ mid ++ "}") ++ post)
          = Z.of_nat (String.length pre)) as Hfind
    by (cbn [append]; now apply find_first).
  assert (rfind "}" (pre ++ ("{" ++ mid ++ "}") ++ post)
          = Z.of_nat (String.length (pre ++ "{" ++ mid))) as Hrfind.
  { replace (pre ++ ("{" ++ mid ++ "}") ++ post)%string
      with ((pre ++ "{" ++ mid) ++ String "}" post)%string
      by (rewrite !string_app_assoc; cbn [append]; now rewrite ?string_app_assoc).
    now apply rfind_last. }
  rewrite Hfind, Hrfind, !string_length_app. cbn [String.length].
  repeat split; try lia.
  unfold slice.
  replace (Z.to_nat (Z.of_nat (String.length pre))) with (String.length pre) by lia.
  match goal with
  | |- substring _ ?n _ = _ =>
      replace n with (String.length ("{" ++ mid ++ "}"))
  end.
  - apply substring_middle.
  - cbn [append String.length]. rewrite string_length_app. cbn [String.length]. lia.
Qed.

Lemma brace_block_exists (text : string) :
  find "{" text <> -1 ->
  rfind "}" text + 1 > find "{" text ->
  exists block, brace_block text block.
Proof.
  intros Hfind Horder.
  destruct (find_splits "{" text Hfind) as (pre & rest & Htext & Hpre & Hi).
  assert (rfind "}" text <> -1) as Hrfind
    by (pose proof (find_bounds "{" text); lia).
  destruct (rfind_splits "}" text Hrfind) as (pre' & post & Htext' & Hpost & Hj).
  (* the closing brace lies in [rest] *)
  assert (String.length pre < String.length pre')%nat as Hlt.
  { assert (String.length pre <> String.length pre') as Hne.
    { intros Heq. rewrite Htext' in Htext.
      destruct (app_inv_length _ _ _ _ Htext (eq_sym Heq)) as [_ Hc].
      discriminate. }
    lia. }
  clear Hi Hj Horder Hfind Hrfind.
  subst text. revert pre' Htext' Hlt.
  induction pre as [|a pre IH]; intros pre' Htext' Hlt.
  - destruct pre' as [|b pre']; [cbn in Hlt; lia |].
    cbn [append] in Htext'. injection Htext' as <- Hrest.
    exists ("{" ++ pre' ++ "}")%string, EmptyString, pre', post.
    repeat split; [| exact Hpost].
    cbn [append]. rewrite Hrest, ?string_app_assoc. reflexivity.
  - destruct pre' as [|b pre']; [cbn in Hlt; lia |].
    cbn [append] in Htext'. injection Htext' as <- Htext'.
    rewrite contains_char_cons, orb_false_iff in Hpre.
    destruct Hpre as [Ha Hpre].
    cbn [String.length] in Hlt.
    destruct (IH Hpre pre' Htext' ltac:(lia))
      as (block & p & m & q & Hsplit & Hblock & Hp & Hq).
    exists block, (String a p), m, q. repeat split; try assumption.
    + cbn [append]. now rewrite Hsplit.
    + now rewrite contains_char_cons, Ha, Hp.
Qed.

(** The decoder, case by case. *)
Lemma safe_json_parse_strict (loads : string -> LoadsOutcome)
    (text : string) (v : json) :
  loads text = Decoded v -> safe_json_parse loads text = Returns v.
Proof. intros H. unfold safe_json_parse. now rewrite H. Qed.

Lemma safe_json_parse_raises (loads : string -> LoadsOutcome) (text : string) :
  safe_json_parse loads text = Raises <-> loads text = OtherError.
Proof.
  unfold safe_json_parse. destruct (loads text); split; try discriminate;
    try reflexivity.
  destruct (negb (find "{" text =? -1) && (rfind "}" text + 1 >? find "{" text));
    [| discriminate].
  destruct (loads _); discriminate.
Qed.

Lemma safe_json_parse_block (loads : string -> LoadsOutcome)
    (text block : string) :
  loads text = JSONDecodeError -> brace_block text block ->
  safe_json_parse loads text =
  match loads block with
  | Decoded v => Returns v
  | JSONDecodeError => Returns (sentinel text)
  | OtherError => Returns (sentinel text)
  end.
Proof.
  intros Hstrict Hblock. unfold safe_json_parse. rewrite Hstrict.
  destruct (brace_block_found text block Hblock) as (Hfind & Horder & ->).
  apply Z.eqb_neq in Hfind. rewrite Hfind. cbn [negb andb].
  apply Z.gt_lt, Z.gtb_lt in Horder. rewrite Horder. reflexivity.
Qed.

Lemma safe_json_parse_no_block (loads : string -> LoadsOutcome) (text : string) :
  loads text = JSONDecodeError -> (forall block, ~ brace_block text block) ->
  safe_json_parse loads text = Returns (sentinel text).
Proof.
  intros Hstrict Hnone. unfold safe_json_parse. rewrite Hstrict.
  destruct (find "{" text =? -1) eqn:Hfind; [reflexivity |].
  destruct (rfind "}" text + 1 >? find "{" text) eqn:Horder; [| reflexivity].
  apply Z.eqb_neq in Hfind. apply Z.gtb_lt, Z.lt_gt in Horder.
  destruct (brace_block_exists text Hfind Horder) as [block Hblock].
  destruct (Hnone block Hblock).
Qed.

(** A text with a brace block holds both braces. *)
Lemma brace_block_needs_braces (text block : string) :
  brace_block text block ->
  contains "{" text = true /\ contains "}" text = true.
Proof.
  intros Hblock.
  destruct (brace_block_found text block Hblock) as (Hfind & Horder & _).
  pose proof (find_bounds "{" text) as Hb.
  split.
  - destruct (contains "{" text) eqn:E; [reflexivity |].
    apply find_absent in E. contradiction.
  - destruct (contains "}" text) eqn:E; [reflexivity |].
    apply rfind_absent in E. lia.
Qed.

End DecoderFacts.

(** ** The model of [json.loads] always answers *)

Section ScannerFuel.
Import Decoder.
Local Open Scope nat_scope.

Lemma skip_ws_length (s : string) : String.length (skip_ws s) <= String.length s.
Proof.
  induction s as [|c s IH]; cbn [skip_ws]; [lia |].
  destruct (is_ws c); cbn [String.length]; lia.
Qed.

Lemma strip_prefix_length (p s r : string) :
  strip_prefix p s = Some r ->
  String.length s = String.length p + String.length r.
Proof.
  revert s; induction p as [|a p IH]; intros s; cbn [strip_prefix].
  - intros [= ->]. reflexivity.
  - destruct s as [|b s]; [discriminate |].
    destruct (Ascii.eqb a b); [| discriminate].
    intros H. apply IH in H. cbn [String.length]. lia.
Qed.

Lemma span_digits_length (s ds r : string) :
  span_digits s = (ds, r) ->
  String.length s = String.length ds + String.length r.
Proof.
  revert ds r; induction s as [|c s IH]; intros ds r; cbn [span_digits].
  - intros [= <- <-]. reflexivity.
  - destruct (is_digit c).
    + destruct (span_digits s) as [ds' r'] eqn:E. intros [= <- <-].
      cbn [String.length]. rewrite (IH ds' r' eq_refl). lia.
    + intros [= <- <-]. reflexivity.
Qed.

Lemma scan_frac_length (s f r : string) :
  scan_frac s = (f, r) -> String.length r <= String.length s.
Proof.
  unfold scan_frac. destruct s as [|c rest]; [intros [= <- <-]; lia |].
  destruct (Ascii.eqb c "."); [| intros [= <- <-]; lia].
  destruct (span_digits rest) as [ds r'] eqn:E.
  apply span_digits_length in E.
  destruct ds; intros [= <- <-]; cbn [String.length] in *; lia.
Qed.

Lemma scan_exp_length (s e r : string) :
  scan_exp s = (e, r) -> String.length r <= String.length s.
Proof.
  unfold scan_exp. destruct s as [|c rest]; [intros [= <- <-]; lia |].
  destruct (Ascii.eqb c "e" || Ascii.eqb c "E"); [| intros [= <- <-]; lia].
  destruct rest as [|sign rest']; [intros [= <- <-]; lia |].
  destruct (Ascii.eqb sign "+" || Ascii.eqb sign "-").
  - destruct (span_digits rest') as [ds r'] eqn:E.
    apply span_digits_length in E.
    destruct ds; intros [= <- <-]; cbn [String.length] in *; lia.
  - destruct (span_digits (String sign rest')) as [ds r'] eqn:E.
    apply span_digits_length in E.
    destruct ds; intros [= <- <-]; cbn [String.length] in *; lia.
Qed.

Lemma scan_integer_shorter (s ds r : string) (negative : bool) :
  scan_integer s = Some (negative, ds, r) ->
  String.length r < String.length s.
Proof.
  unfold scan_integer.
  assert (forall body, String.length body <= String.length s ->
    match body with
    | String d rest =>
        if Ascii.eqb d "0" then Some (negative, String d EmptyString, rest)
        else if is_digit d then
          let (ds, r) := span_digits body in Some (negative, ds, r)
        else None
    | EmptyString => None
    end = Some (negative, ds, r) -> String.length r < String.length s) as Hbody.
  { intros body Hlen. destruct body as [|d rest]; [discriminate |].
    cbn [String.length] in Hlen.
    destruct (Ascii.eqb d "0"); [intros [= <- <-]; lia |].
    destruct (is_digit d) eqn:Hd; [| discriminate].
    cbn [span_digits]. rewrite Hd.
    destruct (span_digits rest) as [ds' r'] eqn:E.
    apply span_digits_length in E. intros [= <- <-]. lia. }
  destruct s as [|c rest].
  - discriminate.
  - destruct (Ascii.eqb c "-").
    + intros H.
      assert (negative = true) as ->.
      { destruct rest as [|d rest']; [discriminate |].
        destruct (Ascii.eqb d "0"); [now injection H |].
        destruct (is_digit d); [| discriminate].
        destruct (span_digits (String d rest')). now injection H. }
      apply (Hbody rest); [cbn [String.length]; lia | exact H].
    + intros H.
      assert (negative = false) as ->.
      { destruct (Ascii.eqb c "0"); [now injection H |].
        destruct (is_digit c); [| discriminate].
        destruct (span_digits (String c rest)). now injection H. }
      apply (Hbody (String c rest)); [lia | exact H].
Qed.

Lemma scan_number_shorter (s : string) (v : json) (r : string) :
  scan_number s = Some (v, r) -> String.length r < String.length s.
Proof.
  unfold scan_number.
  destruct (scan_integer s) as [[[negative ds] r0]|] eqn:Hint; [| discriminate].
  apply scan_integer_shorter in Hint.
  destruct (scan_frac r0) as [frac r1] eqn:Hfrac. apply scan_frac_length in Hfrac.
  destruct (scan_exp r1) as [exp r2] eqn:Hexp. apply scan_exp_length in Hexp.
  destruct frac; destruct exp; intros [= _ <-]; lia.
Qed.

Lemma scan_scalar_shorter (s : string) (v : json) (r : string) :
  scan_scalar s = Scanned v r -> String.length r < String.length s.
Proof.
  unfold scan_scalar.
  destruct (strip_prefix "null" s) eqn:E1.
  { apply strip_prefix_length in E1. intros [= _ <-]. cbn in E1. lia. }
  destruct (strip_prefix "true" s) eqn:E2.
  { apply strip_prefix_length in E2. intros [= _ <-]. cbn in E2. lia. }
  destruct (strip_prefix "false" s) eqn:E3.
  { apply strip_prefix_length in E3. intros [= _ <-]. cbn in E3. lia. }
  destruct (scan_number s) as [[v' r']|] eqn:E4.
  { apply scan_number_shorter in E4. intros [= _ <-]. exact E4. }
  destruct (strip_prefix "NaN" s) eqn:E5.
  { apply strip_prefix_length in E5. intros [= _ <-]. cbn in E5. lia. }
  destruct (strip_prefix "Infinity" s) eqn:E6.
  { apply strip_prefix_length in E6. intros [= _ <-]. cbn in E6. lia. }
  destruct (strip_prefix "-Infinity" s) eqn:E7.
  { apply strip_prefix_length in E7. intros [= _ <-]. cbn in E7. lia. }
  discriminate.
Qed.

Lemma scan_scalar_not_exhausted (s : string) : scan_scalar s <> Exhausted.
Proof.
  unfold scan_scalar.
  destruct (strip_prefix "null" s); [discriminate |].
  destruct (strip_prefix "true" s); [discriminate |].
  destruct (strip_prefix "false" s); [discriminate |].
  destruct (scan_number s) as [[v' r']|]; [discriminate |].
  destruct (strip_prefix "NaN" s); [discriminate |].
  destruct (strip_prefix "Infinity" s); [discriminate |].
  destruct (strip_prefix "-Infinity" s); discriminate.
Qed.

Lemma scanstring_shorter (n : nat) :
  forall s acc str r,
    String.length s <= n ->
    scanstring s acc = Some (str, r) -> String.length r < String.length s.
Proof.
  induction n as [|n IH]; intros s acc str r Hn.
  - destruct s; [discriminate | cbn in Hn; lia].
  - destruct s as [|c rest]; [discriminate |].
    cbn [String.length] in Hn. cbn [scanstring].
    destruct (Ascii.eqb c "034"); [intros [= _ <-]; cbn [String.length]; lia |].
    destruct (nat_of_ascii c <? 32); [discriminate |].
    assert (forall t acc', String.length t <= String.length rest ->
              scanstring t acc' = Some (str, r) ->
              String.length r < String.length (String c rest)) as Hgo.
    { intros t acc' Ht H. apply IH in H; [cbn [String.length]; lia | lia]. }
    destruct (Ascii.eqb c "\"); [| apply Hgo; lia].
    destruct rest as [|esc rest1]; [discriminate |].
    destruct (Ascii.eqb esc "u").
    + destruct rest1 as [|h1 [|h2 [|h3 [|h4 rest2]]]]; try discriminate.
      destruct (hex4 h1 h2 h3 h4) as [uni|]; [| discriminate].
      destruct ((55296 <=? uni)%Z && (uni <=? 56319)%Z);
        [| apply Hgo; cbn [String.length]; lia].
      destruct rest2 as [|b [|u [|l1 [|l2 [|l3 [|l4 rest3]]]]]];
        try (apply Hgo; cbn [String.length]; lia).
      destruct (Ascii.eqb b "\" && Ascii.eqb u "u");
        [| apply Hgo; cbn [String.length]; lia].
      destruct (hex4 l1 l2 l3 l4) as [uni2|]; [| discriminate].
      destruct ((56320 <=? uni2)%Z && (uni2 <=? 57343)%Z);
        apply Hgo; cbn [String.length]; lia.
    + destruct (backslash esc); [| discriminate].
      apply Hgo. cbn [String.length]. lia.
Qed.

Lemma scan_shorter (fuel : nat) :
  (forall depth s v r,
     scan_once fuel depth s = Scanned v r -> String.length r < String.length s) /\
  (forall depth s acc v r,
     scan_items fuel depth s acc = Scanned v r ->
     String.length r < String.length s) /\
  (forall depth s acc v r,
     scan_members fuel depth s acc = Scanned v r ->
     String.length r < String.length s).
Proof.
  induction fuel as [|fuel (IHonce & IHitems & IHmembers)].
  - repeat split; intros; discriminate.
  - split; [| split].
    + intros depth s v r. cbn [scan_once].
      destruct s as [|c rest]; [discriminate |].
      destruct (Ascii.eqb c "034").
      { destruct (scanstring rest EmptyString) as [[str r']|] eqn:E;
          [| discriminate].
        apply (scanstring_shorter _ _ _ _ _ (le_n _)) in E.
        intros [= _ <-]. cbn [String.length]. lia. }
      destruct (Ascii.eqb c "{").
      { destruct depth as [|depth']; [discriminate |].
        pose proof (skip_ws_length rest) as Hws.
        destruct (skip_ws rest) as [|q r']; [discriminate |].
        cbn [String.length] in *.
        destruct (Ascii.eqb q "}"); [intros [= _ <-]; lia |].
        destruct (Ascii.eqb q "034"); [| discriminate].
        intros H. apply IHmembers in H. lia. }
      destruct (Ascii.eqb c "[").
      { destruct depth as [|depth']; [discriminate |].
        pose proof (skip_ws_length rest) as Hws.
        destruct (skip_ws rest) as [|q r']; [discriminate |].
        cbn [String.length] in *.
        destruct (Ascii.eqb q "]"); [intros [= _ <-]; lia |].
        intros H. apply IHitems in H. cbn [String.length] in H. lia. }
      apply scan_scalar_shorter.
    + intros depth s acc v r. cbn [scan_items].
      destruct (scan_once fuel depth s) as [v' r'| | |] eqn:E; try discriminate.
      apply IHonce in E.
      pose proof (skip_ws_length r') as Hws.
      destruct (skip_ws r') as [|c r1]; [discriminate |].
      cbn [String.length] in Hws.
      destruct (Ascii.eqb c "]"); [intros [= _ <-]; lia |].
      destruct (Ascii.eqb c ","); [| discriminate].
      intros H. apply IHitems in H.
      pose proof (skip_ws_length r1). lia.
    + intros depth s acc v r. cbn [scan_members].
      destruct (scanstring s EmptyString) as [[key r0]|] eqn:E; [| discriminate].
      apply (scanstring_shorter _ _ _ _ _ (le_n _)) in E.
      pose proof (skip_ws_length r0) as Hws0.
      destruct (skip_ws r0) as [|colon r1]; [discriminate |].
      cbn [String.length] in Hws0.
      destruct (Ascii.eqb colon ":"); [| discriminate].
      pose proof (skip_ws_length r1) as Hws1.
      destruct (scan_once fuel depth (skip_ws r1)) as [v' r2| | |] eqn:E2;
        try discriminate.
      apply IHonce in E2.
      pose proof (skip_ws_length r2) as Hws2.
      destruct (skip_ws r2) as [|c r3]; [discriminate |].
      cbn [String.length] in Hws2.
      destruct (Ascii.eqb c "}"); [intros [= _ <-]; lia |].
      destruct (Ascii.eqb c ","); [| discriminate].
      pose proof (skip_ws_length r3) as Hws3.
      destruct (skip_ws r3) as [|q r4]; [discriminate |].
      cbn [String.length] in Hws3.
      destruct (Ascii.eqb q "034"); [| discriminate].
      intros H. apply IHmembers in H. lia.
Qed.

Lemma scan_fuel (fuel : nat) :
  (forall depth s,
     2 * String.length s + 1 <= fuel -> scan_once fuel depth s <> Exhausted) /\
  (forall depth s acc,
     2 * String.length s + 2 <= fuel -> scan_items fuel depth s acc <> Exhausted) /\
  (forall depth s acc,
     2 * String.length s + 2 <= fuel -> scan_members fuel depth s acc <> Exhausted).
Proof.
  induction fuel as [|fuel (IHonce & IHitems & IHmembers)].
  - repeat split; intros; lia.
  - split; [| split].
    + intros depth s Hfuel. cbn [scan_once].
      destruct s as [|c rest]; [discriminate |].
      cbn [String.length] in Hfuel.
      destruct (Ascii.eqb c "034").
      { destruct (scanstring rest EmptyString) as [[str r']|]; discriminate. }
      destruct (Ascii.eqb c "{").
      { destruct depth as [|depth']; [discriminate |].
        pose proof (skip_ws_length rest) as Hws.
        destruct (skip_ws rest) as [|q r']; [discriminate |].
        cbn [String.length] in Hws.
        destruct (Ascii.eqb q "}"); [discriminate |].
        destruct (Ascii.eqb q "034"); [| discriminate].
        apply IHmembers. lia. }
      destruct (Ascii.eqb c "[").
      { destruct depth as [|depth']; [discriminate |].
        pose proof (skip_ws_length rest) as Hws.
        destruct (skip_ws rest) as [|q r']; [discriminate |].
        destruct (Ascii.eqb q "]"); [discriminate |].
        apply IHitems. lia. }
      apply scan_scalar_not_exhausted.
    + intros depth s acc Hfuel. cbn [scan_items].
      pose proof (IHonce depth s ltac:(lia)) as Honce.
      destruct (scan_once fuel depth s) as [v' r'| | |] eqn:E;
        try discriminate; [| congruence].
      apply scan_shorter in E.
      pose proof (skip_ws_length r') as Hws.
      destruct (skip_ws r') as [|c r1]; [discriminate |].
      cbn [String.length] in Hws.
      destruct (Ascii.eqb c "]"); [discriminate |].
      destruct (Ascii.eqb c ","); [| discriminate].
      apply IHitems. pose proof (skip_ws_length r1). lia.
    + intros depth s acc Hfuel. cbn [scan_members].
      destruct (scanstring s EmptyString) as [[key r0]|] eqn:E; [| discriminate].
      apply (scanstring_shorter _ _ _ _ _ (le_n _)) in E.
      pose proof (skip_ws_length r0) as Hws0.
      destruct (skip_ws r0) as [|colon r1]; [discriminate |].
      cbn [String.length] in Hws0.
      destruct (Ascii.eqb colon ":"); [| discriminate].
      pose proof (skip_ws_length r1) as Hws1.
      pose proof (IHonce depth (skip_ws r1) ltac:(lia)) as Honce.
      destruct (scan_once fuel depth (skip_ws r1)) as [v' r2| | |] eqn:E2;
        try discriminate; [| congruence].
      apply scan_shorter in E2.
      pose proof (skip_ws_length r2) as Hws2.
      destruct (skip_ws r2) as [|c r3]; [discriminate |].
      cbn [String.length] in Hws2.
      destruct (Ascii.eqb c "}"); [discriminate |].
      destruct (Ascii.eqb c ","); [| discriminate].
      pose proof (skip_ws_length r3) as Hws3.
      destruct (skip_ws r3) as [|q r4]; [discriminate |].
      cbn [String.length] in Hws3.
      destruct (Ascii.eqb q "034"); [| discriminate].
      apply IHmembers. lia.
Qed.

(** The scanner never runs out of the fuel that [json_loads] gives it. *)
Lemma json_loads_fuel_suffices (recursion_limit : nat) (s : string) :
  scan_once (enough_fuel s) recursion_limit (skip_ws s) <> Exhausted.
Proof.
  apply scan_fuel. unfold enough_fuel.
  pose proof (skip_ws_length s). lia.
Qed.

End ScannerFuel.


(** ** Where the loop answers True *)

Section Verdict.
Import Resolver.
Variable env : Env.

(** A pass returns from inside only after setting [self.solved]. *)
Lemma run_pass_returned_solved (solutions : list Solution) (i sc cf : Z)
    (failed : list FailedCommand) (st st' : State) :
  run_pass env solutions i sc cf failed st = (PassReturnedTrue, st') ->
  solved (self st') = true.
Proof.
  revert i sc cf failed st;
    induction solutions as [|solution rest IH]; intros i sc cf failed st.
  - cbn. discriminate.
  - cbn [run_pass]. unfold bind at 1.
    destruct (apply_solution env solution i st) as [[success failed_cmds] st1].
    destruct success; [| apply IH].
    unfold bind at 1.
    destruct (execute_command env "pip check" "Final dependency check" st1)
      as [[ok out] st2].
    cbn [fst]. destruct ok; [| apply IH].
    run_monad. intros [= <-]. reflexivity.
Qed.

(** The [while] loop answers True only with [self.solved] set. *)
Lemma resolution_while_true_solved (remaining : nat) (solutions : list Solution)
    (issue : string) (cf : Z) (st st' : State) :
  resolution_while env remaining solutions issue cf st = (true, st') ->
  solved (self st') = true.
Proof.
  revert solutions cf st;
    induction remaining as [|remaining IH]; intros solutions cf st.
  - cbn. discriminate.
  - destruct (solved (self st)) eqn:Hsolved.
    { rewrite resolution_while_stops by auto. discriminate. }
    destruct solutions as [|solution rest].
    { rewrite resolution_while_stops by auto. discriminate. }
    rewrite resolution_while_step by exact Hsolved.
    destruct (run_pass env (solution :: rest) 1 0 cf [] st) as [r st1] eqn:Hpass.
    destruct r as [|success_count cf' all_failed].
    { intros [= <-]. eapply run_pass_returned_solved; eassumption. }
    destruct ((success_count =? 0) && HAS_AI env).
    + destruct (trigger_web_search_consultation env all_failed issue st1)
        as [ai_response st2].
      destruct (new_solutions_of ai_response); [| apply IH].
      destruct (stop_requested ai_response); [discriminate | apply IH].
    + destruct (success_count =? 0); [discriminate | apply IH].
Qed.

(** The loop answers True in two ways only: the analysis reported success,
    or a solution passed the final check and [self.solved] is set. *)
Lemma continuous_resolution_loop_true (st st' : State) :
  continuous_resolution_loop env st = (true, st') ->
  (exists d, loaded_diagnosis (json_file env) = Some d /\
             status_is_success d = true /\
             st' = {| self := set_data d (self st); world := world st |}) \/
  solved (self st') = true.
Proof.
  rewrite continuous_resolution_loop_unfold.
  destruct (loaded_diagnosis (json_file env)) as [d|]; [| discriminate].
  cbn zeta. destruct (status_is_success d) eqn:Hstatus.
  - intros [= <-]. left. exists d. repeat split. exact Hstatus.
  - destruct (default [] (diag_recommended_solutions d)); [discriminate |].
    intros Hloop. right. eapply resolution_while_true_solved; eassumption.
Qed.

End Verdict.

(** ** Case-insensitive substrings *)

Section CaseFolding.
Import PyStr.

Lemma lower_ascii_code (a : ascii) :
  lower_ascii a =
  if ((65 <=? nat_of_ascii a) && (nat_of_ascii a <=? 90))%nat
  then ascii_of_nat (nat_of_ascii a + 32) else a.
Proof. reflexivity. Qed.

Lemma lower_ascii_eq_iff (a b : ascii) :
  lower_ascii a = lower_ascii b <-> same_up_to_case a b.
Proof.
  rewrite !lower_ascii_code.
  pose proof (nat_ascii_bounded a) as Ha. pose proof (nat_ascii_bounded b) as Hb.
  pose proof (ascii_nat_embedding a) as Ea. pose proof (ascii_nat_embedding b) as Eb.
  set (n := nat_of_ascii a) in *. set (m := nat_of_ascii b) in *.
  split.
  - destruct ((65 <=? n) && (n <=? 90))%nat eqn:Un;
      destruct ((65 <=? m) && (m <=? 90))%nat eqn:Um;
      try (apply andb_true_iff in Un as [Un1 Un2];
           apply Nat.leb_le in Un1; apply Nat.leb_le in Un2);
      try (apply andb_true_iff in Um as [Um1 Um2];
           apply Nat.leb_le in Um1; apply Nat.leb_le in Um2);
      intros H.
    + left. apply (f_equal nat_of_ascii) in H.
      rewrite !nat_ascii_embedding in H by lia.
      rewrite <- Ea, <- Eb. f_equal. lia.
    + right. exists (n - 65)%nat. split; [lia |]. left.
      rewrite <- Ea at 1. rewrite <- H. split; f_equal; lia.
    + right. exists (m - 65)%nat. split; [lia |]. right.
      rewrite <- Eb at 1. rewrite H. split; f_equal; lia.
    + now left.
  - intros [-> | (k & Hk & [[-> ->] | [-> ->]])]; [reflexivity | |].
    + subst n m. rewrite !nat_ascii_embedding by lia.
      replace ((65 <=? 65 + k) && (65 + k <=? 90))%nat with true
        by (symmetry; apply andb_true_iff; split; apply Nat.leb_le; lia).
      replace ((65 <=? 97 + k) && (97 + k <=? 90))%nat with false
        by (symmetry; apply andb_false_iff; right; apply Nat.leb_gt; lia).
      f_equal. lia.
    + subst n m. rewrite !nat_ascii_embedding by lia.
      replace ((65 <=? 65 + k) && (65 + k <=? 90))%nat with true
        by (symmetry; apply andb_true_iff; split; apply Nat.leb_le; lia).
      replace ((65 <=? 97 + k) && (97 + k <=? 90))%nat with false
        by (symmetry; apply andb_false_iff; right; apply Nat.leb_gt; lia).
      f_equal. lia.
Qed.

Lemma lower_eq_iff (s t : string) :
  lower s = lower t <-> same_text_up_to_case s t.
Proof.
  revert t. induction s as [|a s IH]; intros [|b t]; cbn [lower same_text_up_to_case].
  - tauto.
  - split; [discriminate | tauto].
  - split; [discriminate | tauto].
  - rewrite <- IH, <- lower_ascii_eq_iff. split.
    + intros H. now injection H.
    + intros [-> ->]. reflexivity.
Qed.

(** The folding of the sources finds exactly the case-insensitive
    substrings. *)
Lemma occurs_ignoring_case_iff (marker output : string) :
  occurs_ignoring_case marker output <-> occurs_case_insensitively marker output.
Proof.
  unfold occurs_ignoring_case, occurs_case_insensitively.
  split; intros (pre & mid & post & H & Hmid); exists pre, mid, post;
    (split; [exact H | now apply lower_eq_iff]).
Qed.

End CaseFolding.

(** ** The run without the other solutions *)

Section Erasure.
Import Resolver.
Variable env : Env.
Variable x : option Diagnosis.


Lemma execute_command_erased (command description : string) (st : State) :
  execute_command (Erased.world_of env) command description (Erased.with_data x st)
  = Erased.moved x (execute_command env command description st).
Proof.
  rewrite !execute_command_unfold.
  cbn [Erased.world_of Erased.with_data subprocess_run strftime world self].
  destruct (subprocess_run env (proc_calls (world st)) command); reflexivity.
Qed.

Lemma run_undo_erased (cmds : list string) :
  forall st,
    run_undo (Erased.world_of env) cmds (Erased.with_data x st) = Erased.moved x (run_undo env cmds st).
Proof.
  induction cmds as [|cmd rest IH]; intros st; [reflexivity |].
  cbn [run_undo]. unfold bind. rewrite execute_command_erased. unfold Erased.moved.
  destruct (execute_command env cmd _ st) as [r st1]. cbn [fst snd]. apply IH.
Qed.

Lemma run_commands_erased (cmds : list string) :
  forall all_success failed st,
    run_commands (Erased.world_of env) cmds all_success failed (Erased.with_data x st)
    = Erased.moved x (run_commands env cmds all_success failed st).
Proof.
  induction cmds as [|cmd rest IH]; intros all_success failed st; [reflexivity |].
  cbn [run_commands]. unfold bind. rewrite execute_command_erased. unfold Erased.moved.
  destruct (execute_command env cmd _ st) as [[success output] st1].
  cbn [fst snd]. destruct success; apply IH.
Qed.

Lemma apply_solution_erased (solution : Solution) (n : Z) (st : State) :
  apply_solution (Erased.world_of env) solution n (Erased.with_data x st)
  = Erased.moved x (apply_solution env solution n st).
Proof.
  unfold apply_solution, record_attempt, execute_phase. run_monad.
  match goal with
  | |- context [run_undo (Erased.world_of env) _ ?s] =>
      change s with
        (Erased.with_data x
           {| self := append_history
                        (history_entry env solution n (world st)) (self st);
              world := world st |})
  end.
  rewrite run_undo_erased. unfold Erased.moved.
  destruct (run_undo env (undo_commands solution) _) as [[] st1]. cbn [fst snd].
  destruct (is_commands solution); [| reflexivity].
  destruct (commands solution) as [|cmd cmds]; [reflexivity |].
  rewrite run_commands_erased. unfold Erased.moved.
  destruct (run_commands env (cmd :: cmds) true [] st1) as [[ok failed] st2].
  cbn [fst snd].
  destruct ok; [| reflexivity].
  destruct (truthy_command (verification_command solution)); [| reflexivity].
  rewrite execute_command_erased. unfold Erased.moved.
  destruct (execute_command env _ _ st2) as [[v out] st3]. cbn [fst snd].
  destruct v; reflexivity.
Qed.

Lemma run_pass_erased (solutions : list Solution) :
  forall i sc cf failed st,
    run_pass (Erased.world_of env) solutions i sc cf failed (Erased.with_data x st)
    = Erased.moved x (run_pass env solutions i sc cf failed st).
Proof.
  induction solutions as [|s rest IH]; intros i sc cf failed st; [reflexivity |].
  cbn [run_pass]. unfold bind. rewrite apply_solution_erased. unfold Erased.moved.
  destruct (apply_solution env s i st) as [[success failed_cmds] st1].
  cbn [fst snd]. destruct success; [| apply IH].
  rewrite execute_command_erased. unfold Erased.moved.
  destruct (execute_command env _ _ st1) as [[v out] st2]. cbn [fst snd].
  destruct v; [reflexivity | apply IH].
Qed.

Lemma filter_is_commands_twice (l : list Solution) :
  filter is_commands (filter is_commands l) = filter is_commands l.
Proof.
  induction l as [|s l IH]; [reflexivity |]. cbn [filter].
  destruct (is_commands s) eqn:Hs; [| exact IH].
  cbn [filter]. now rewrite Hs, IH.
Qed.

Lemma new_solutions_of_erased (r : option Payload) :
  new_solutions_of (option_map Erased.payload r) = new_solutions_of r.
Proof.
  destruct r as [p|]; [| reflexivity].
  cbn. destruct (recommended_solutions p); [| reflexivity].
  apply filter_is_commands_twice.
Qed.

Lemma stop_requested_erased (r : option Payload) :
  stop_requested (option_map Erased.payload r) = stop_requested r.
Proof. destruct r; reflexivity. Qed.

(** The consultation returns the erased payload and moves the same
    counters. *)
Lemma trigger_erased (failed : list FailedCommand) (issue : string) (st : State) :
  trigger_web_search_consultation (Erased.world_of env) failed issue (Erased.with_data x st)
  = (option_map Erased.payload
       (fst (trigger_web_search_consultation env failed issue st)),
     Erased.with_data x (snd (trigger_web_search_consultation env failed issue st))).
Proof.
  unfold trigger_web_search_consultation.
  cbn [Erased.world_of HAS_AI addhistory].
  destruct (HAS_AI env); cbn [negb]; [| reflexivity].
  run_monad. cbn [Erased.with_data self world ai_consultation_count
                  max_ai_iterations].
  destruct (ai_consultation_count (self st) >=? max_ai_iterations (self st));
    [reflexivity |].
  change (world (Erased.with_data x st)) with (world st).
  destruct (addhistory env (oracle_calls (world st))) as [| | parsed ai_data];
    try reflexivity.
  cbn [Erased.answer].
  destruct parsed as [p|]; cbn [option_map Erased.payload recommended_solutions].
  - destruct (recommended_solutions p); cbn [Erased.solutions option_map];
      [reflexivity |].
    destruct (recommended_solutions ai_data); reflexivity.
  - destruct (recommended_solutions ai_data); reflexivity.
Qed.

Lemma resolution_while_erased (remaining : nat) :
  forall solutions issue cf st,
    resolution_while (Erased.world_of env) remaining solutions issue cf
      (Erased.with_data x st)
    = Erased.moved x (resolution_while env remaining solutions issue cf st).
Proof.
  induction remaining as [|n IH]; intros solutions issue cf st; [reflexivity |].
  destruct (solved (self st)) eqn:Hsolved.
  { rewrite !resolution_while_stops by (right; left; exact Hsolved). reflexivity. }
  destruct solutions as [|s rest].
  { rewrite !resolution_while_stops by (right; right; reflexivity). reflexivity. }
  rewrite (resolution_while_step (Erased.world_of env)) by exact Hsolved.
  rewrite (resolution_while_step env) by exact Hsolved.
  rewrite run_pass_erased. unfold Erased.moved at 1.
  destruct (run_pass env (s :: rest) 1 0 cf [] st) as [r st1]. cbn [fst snd].
  destruct r as [|sc cf' failed]; [reflexivity |].
  cbn [Erased.world_of HAS_AI].
  destruct (sc =? 0); destruct (HAS_AI env); cbn [andb]; try reflexivity;
    try apply IH.
  rewrite trigger_erased.
  destruct (trigger_web_search_consultation env failed issue st1) as [r st2].
  cbn [fst snd]. rewrite new_solutions_of_erased, stop_requested_erased.
  destruct (new_solutions_of r); [| apply IH].
  destruct (stop_requested r); [reflexivity | apply IH].
Qed.

End Erasure.

Section ErasedLoop.
Import Resolver.

Lemma initial_queue_erased (l : list Solution) :
  initial_queue (filter is_commands l) = initial_queue l.
Proof. unfold initial_queue. now rewrite filter_is_commands_twice. Qed.

Lemma loaded_diagnosis_erased (f : AnalysisFile) :
  loaded_diagnosis (Erased.file f) = option_map Erased.diagnosis (loaded_diagnosis f).
Proof. destruct f; reflexivity. Qed.

(** Taking the other solutions out changes neither the answer of the loop
    nor anything of the final state but the stored analysis. *)
Lemma continuous_resolution_loop_erased (env : Env) (st : State) :
  exists x,
    continuous_resolution_loop (Erased.world_of env) st
    = Erased.moved x (continuous_resolution_loop env st).
Proof.
  rewrite !continuous_resolution_loop_unfold.
  change (json_file (Erased.world_of env)) with (Erased.file (json_file env)).
  rewrite loaded_diagnosis_erased.
  destruct (loaded_diagnosis (json_file env)) as [d|]; cbn [option_map].
  2:{ exists (data (self st)). destruct st as [[] ?]. reflexivity. }
  exists (Some (Erased.diagnosis d)). cbv zeta.
  change (status_is_success (Erased.diagnosis d)) with (status_is_success d).
  destruct (status_is_success d); [reflexivity |].
  change (default [] (diag_recommended_solutions (Erased.diagnosis d)))
    with (default [] (Erased.solutions (diag_recommended_solutions d))).
  change (summary (Erased.diagnosis d)) with (summary d).
  generalize max_total_iterations. intros n.
  set (s := {| self := set_data d (self st); world := world st |}).
  change {| self := set_data (Erased.diagnosis d) (self st); world := world st |}
    with (Erased.with_data (Some (Erased.diagnosis d)) s).
  destruct (diag_recommended_solutions d) as [l|]; [| reflexivity].
  cbn [Erased.solutions option_map default].
  destruct l as [|s0 l]; [reflexivity |].
  rewrite <- (initial_queue_erased (s0 :: l)).
  destruct (filter is_commands (s0 :: l)) as [|f fs] eqn:Hf.
  - change (initial_queue []) with (@nil Solution).
    rewrite resolution_while_stops by auto. reflexivity.
  - apply resolution_while_erased.
Qed.

Lemma main_erased (env : Env) (args : Args) :
  main (Erased.world_of env) args = main env args.
Proof.
  unfold main. cbv zeta.
  set (st := {| self := init (arg_max_ai_iterations args); world := start_world |}).
  assert (exists x,
            continuous_resolution_loop
              (if arg_no_ai args then disable_ai (Erased.world_of env)
               else Erased.world_of env) st
            = Erased.moved x
                (continuous_resolution_loop
                   (if arg_no_ai args then disable_ai env else env) st))
    as [x ->].
  { destruct (arg_no_ai args).
    - apply (continuous_resolution_loop_erased (disable_ai env) st).
    - apply continuous_resolution_loop_erased. }
  unfold Erased.moved.
  destruct (continuous_resolution_loop _ st) as [success final]. reflexivity.
Qed.

End ErasedLoop.

(* ------------------------------------------------------------------ *)
(** * The claims *)

Section Claims.
Import Resolver.

(** C1 (the code at the failing input). Whenever the analysis reports
    success, [main] exits with code 0 while [self.solved] is still False
    and the saved log says INCOMPLETE: the early [return True] of the loop
    does not set the flag that the other [return True] sets. *)
Theorem main_exit_code_disagrees_with_saved_status
    (env : Env) (d : Diagnosis) (args : Args) :
  loaded_diagnosis (json_file env) = Some d ->
  overall_status d = Some "success" ->
  fst (main env args) = 0 /\
  resolution_status (snd (main env args)) = "INCOMPLETE".
Proof.
  intros Hload Hstatus.
  assert (status_is_success d = true) as Hsuccess
    by (unfold status_is_success; now rewrite Hstatus).
  unfold main. destruct (arg_no_ai args).
  - rewrite (continuous_resolution_loop_success (disable_ai env) d _ Hload Hsuccess).
    split; reflexivity.
  - rewrite (continuous_resolution_loop_success env d _ Hload Hsuccess).
    split; reflexivity.
Qed.

Lemma main_exit_code_disagrees_with_saved_status_witness :
  fst (main Scenario.env_success Scenario.default_args) = 0 /\
  resolution_status (snd (main Scenario.env_success Scenario.default_args))
    = "INCOMPLETE".
Proof.
  exact (main_exit_code_disagrees_with_saved_status Scenario.env_success
           (Scenario.diagnosis "success" []) Scenario.default_args
           eq_refl eq_refl).
Defined.

(** The disagreement the other way round: the solution passes its own
    verification, which sets [self.solved], the final pip check fails, the
    [while] condition ends the loop and [main] exits with code 1 while the
    saved log says SOLVED. *)
Example main_exits_1_with_status_solved :
  fst (main Scenario.env_check_fails Scenario.default_args) = 1 /\
  resolution_status (snd (main Scenario.env_check_fails Scenario.default_args))
    = "SOLVED".
Proof. vm_compute. split; reflexivity. Qed.

(** Apart from the success analysis, exit code 0 does mean SOLVED. *)
Lemma main_exit_0_cases (env : Env) (args : Args) :
  fst (main env args) = 0 ->
  resolution_status (snd (main env args)) = "SOLVED" \/
  exists d, loaded_diagnosis (json_file env) = Some d /\
            status_is_success d = true.
Proof.
  unfold main.
  set (env' := if arg_no_ai args then disable_ai env else env).
  assert (json_file env' = json_file env) as Hfile
    by (subst env'; now destruct (arg_no_ai args)).
  destruct (continuous_resolution_loop env' _) as [success final] eqn:Hloop.
  cbn [fst snd]. destruct success; [intros _ | discriminate].
  destruct (continuous_resolution_loop_true env' _ _ Hloop)
    as [(d & Hload & Hstatus & _) | Hsolved].
  - right. exists d. rewrite <- Hfile. now split.
  - left. unfold save_execution_log. cbn. now rewrite Hsolved.
Qed.

(** C2 (counterexample). A session created with a negative budget starts,
    runs and ends with [ai_consultation_count = 0] above
    [max_ai_iterations = -1]. *)
Lemma negative_budget_is_exceeded_at_once :
  ~ budget_ok (init (-1)) /\
  ~ budget_ok
      (self (snd (continuous_resolution_loop Scenario.env_stop
                    (Scenario.fresh (-1))))).
Proof. split; vm_compute; intros H; apply H; reflexivity. Qed.

(** C2 (amended). For every session created with a budget
    [max_ai_iterations >= 0]: [ai_consultation_count <= max_ai_iterations]
    holds initially, is kept by every method of the resolver and holds at
    the end of the run and in the saved log; a consultation attempted with
    [ai_consultation_count >= max_ai_iterations] returns none and changes
    nothing; every attempt past the guards (advisory support present and
    budget left) raises [ai_consultation_count] and [web_search_count] by
    exactly 1 whatever the service answers. *)
Theorem consultation_budget_respected (env : Env) (args : Args) :
  0 <= arg_max_ai_iterations args ->
  budget_ok (init (arg_max_ai_iterations args)) /\
  (forall st, budget_ok (self st) ->
     (forall command description,
        budget_ok (self (snd (execute_command env command description st)))) /\
     (forall solution n,
        budget_ok (self (snd (apply_solution env solution n st)))) /\
     (forall failed issue,
        budget_ok (self (snd (trigger_web_search_consultation env failed issue st)))) /\
     (forall solutions i sc cf failed,
        budget_ok (self (snd (run_pass env solutions i sc cf failed st)))) /\
     (forall remaining solutions issue cf,
        budget_ok (self (snd (resolution_while env remaining solutions issue cf st)))) /\
     budget_ok (self (snd (continuous_resolution_loop env st)))) /\
  ai_consultations (snd (main env args)) <= arg_max_ai_iterations args /\
  (forall st failed issue,
     ai_consultation_count (self st) >= max_ai_iterations (self st) ->
     trigger_web_search_consultation env failed issue st = (None, st)) /\
  (forall st failed issue,
     HAS_AI env = true ->
     ai_consultation_count (self st) < max_ai_iterations (self st) ->
     let s' := self (snd (trigger_web_search_consultation env failed issue st)) in
     ai_consultation_count s' = ai_consultation_count (self st) + 1 /\
     web_search_count s' = web_search_count (self st) + 1 /\
     max_ai_iterations s' = max_ai_iterations (self st)).
Proof.
  intros Hmax.
  assert (budget_ok (init (arg_max_ai_iterations args))) as Hinit
    by (unfold budget_ok; cbn; lia).
  assert (forall s s', counters s' = counters s -> budget_ok s -> budget_ok s')
    as Hkeep.
  { unfold counters, budget_ok. intros s s' [= H1 H2 _] H. lia. }
  split; [exact Hinit |]. split; [| split; [| split]].
  - intros st Hok. repeat split.
    + intros c d. eapply Hkeep; [apply execute_command_counters | exact Hok].
    + intros sol n. eapply Hkeep; [apply apply_solution_counters | exact Hok].
    + intros failed issue. now apply trigger_budget.
    + intros q i sc cf failed. eapply Hkeep; [apply run_pass_counters | exact Hok].
    + intros n q issue cf. now apply resolution_while_counters.
    + now apply continuous_resolution_loop_counters.
  - unfold main.
    pose proof (continuous_resolution_loop_counters
                  (if arg_no_ai args then disable_ai env else env)
                  {| self := init (arg_max_ai_iterations args);
                     world := start_world |} Hinit) as [Hok Hsame].
    destruct (continuous_resolution_loop _ _) as [success final].
    cbn [snd save_execution_log ai_consultations self] in *.
    unfold budget_ok in Hok. cbn in Hsame. lia.
  - intros st failed issue. apply trigger_exhausted.
  - intros st failed issue Hai Hroom. cbn zeta.
    rewrite (trigger_spends env failed issue st Hai Hroom). cbn.
    repeat split.
Qed.

Lemma consultation_budget_respected_witness :
  0 <= 8 /\
  ai_consultations (snd (main Scenario.env_stop Scenario.default_args)) <= 8.
Proof.
  split; [lia |].
  apply (consultation_budget_respected Scenario.env_stop Scenario.default_args).
  cbn. lia.
Defined.

(** C3 (the code at the failing input). A command that times out, or whose
    launch raises, is reported as failed and leaves the execution log as it
    was: no entry is appended for it. *)
Theorem execute_command_timeout_not_logged
    (env : Env) (command description : string) (st : State) :
  subprocess_run env (proc_calls (world st)) command = TimeoutExpired \/
  (exists message,
     subprocess_run env (proc_calls (world st)) command = RunRaised message) ->
  fst (fst (execute_command env command description st)) = false /\
  execution_log (self (snd (execute_command env command description st)))
    = execution_log (self st).
Proof.
  intros [Hrun | [message Hrun]];
    rewrite execute_command_unfold, Hrun; cbn; split; reflexivity.
Qed.

Lemma execute_command_timeout_not_logged_witness :
  execution_log
    (self (snd (execute_command
                  (Scenario.env_of true Scenario.shell_hangs Scenario.silent
                     FileNotFound)
                  "pip install a" "" (Scenario.fresh 8))))
  = [].
Proof.
  apply (execute_command_timeout_not_logged
           (Scenario.env_of true Scenario.shell_hangs Scenario.silent FileNotFound)
           "pip install a" "" (Scenario.fresh 8)).
  left. reflexivity.
Defined.

(** C4 (counterexample). A solution for the operator gets from
    [apply_solution] the very answer of a failed [commands] solution,
    [(False, [])], and a pass that is handed it counts it as a failure:
    [consecutive_failures] goes from 0 to 1. Only its undo command ran. *)
Lemma not_applicable_is_reported_as_failure :
  let env := Scenario.env_of true Scenario.shell_ok Scenario.silent FileNotFound in
  is_commands Scenario.manual_step = false /\
  fst (apply_solution env Scenario.manual_step 1 (Scenario.fresh 8))
    = fst (apply_solution env Scenario.hollow 1 (Scenario.fresh 8)) /\
  fst (apply_solution env Scenario.manual_step 1 (Scenario.fresh 8)) = (false, []) /\
  fst (run_pass env [Scenario.manual_step] 1 0 0 [] (Scenario.fresh 8))
    = PassDone 0 1 [] /\
  map log_command
      (execution_log
         (self (snd (apply_solution env Scenario.manual_step 1 (Scenario.fresh 8)))))
    = ["pip uninstall -y a"].
Proof. vm_compute. repeat split; reflexivity. Qed.

(** C4 (amended). For every solution whose [solution_type] is not
    commands, [apply_solution] runs no main and no verification command
    (the state it leaves is the one after the history entry and the undo
    commands) and returns [(False, [])], the value it also returns for a
    failed solution. The resolution loop never counts such a solution as a
    failed attempt because it never applies one: the queue built from the
    analysis and every queue taken from a consultation hold commands
    solutions only, and taking every other solution out of the analysis
    file and out of every answer of the service changes nothing in the run:
    the loop gives the same answer, leaves the same world and the same log
    to save, and [main] returns the same exit code and saves the same
    log. *)
Theorem non_command_solution_is_skipped
    (env : Env) (solution : Solution) (solution_num : Z) (st : State) :
  is_commands solution = false ->
  apply_solution env solution solution_num st =
    ((false, []),
     snd (run_undo env (undo_commands solution)
            (snd (record_attempt env solution solution_num st)))) /\
  (forall solutions,
     Forall (fun s => is_commands s = true) (initial_queue solutions)) /\
  (forall ai_response,
     Forall (fun s => is_commands s = true) (new_solutions_of ai_response)) /\
  (forall solutions, ~ In solution (initial_queue solutions)) /\
  (forall ai_response, ~ In solution (new_solutions_of ai_response)) /\
  (let r := continuous_resolution_loop env st in
   let r' := continuous_resolution_loop (Erased.world_of env) st in
   fst r' = fst r /\
   world (snd r') = world (snd r) /\
   execution_log (self (snd r')) = execution_log (self (snd r)) /\
   solution_history (self (snd r')) = solution_history (self (snd r)) /\
   save_execution_log (self (snd r')) = save_execution_log (self (snd r))) /\
  (forall args, main (Erased.world_of env) args = main env args).
Proof.
  intros Htype.
  assert (forall q, Forall (fun s => is_commands s = true) q -> ~ In solution q)
    as Hout.
  { intros q Hq Hin. rewrite Forall_forall in Hq.
    specialize (Hq _ Hin). congruence. }
  split; [now apply apply_solution_not_commands |].
  split; [apply initial_queue_commands |].
  split; [apply new_solutions_commands |].
  split; [intros q; apply Hout, initial_queue_commands |].
  split; [intros r; apply Hout, new_solutions_commands |].
  split; [| apply main_erased].
  cbv zeta. destruct (continuous_resolution_loop_erased env st) as [x ->].
  unfold Erased.moved. cbn [fst snd]. repeat split.
Qed.

Lemma non_command_solution_is_skipped_witness :
  is_commands Scenario.manual_step = false /\
  apply_solution Scenario.env_stop Scenario.manual_step 1 (Scenario.fresh 8) =
    ((false, []),
     snd (run_undo Scenario.env_stop (undo_commands Scenario.manual_step)
            (snd (record_attempt Scenario.env_stop Scenario.manual_step 1
                    (Scenario.fresh 8))))) /\
  main (Erased.world_of Cases.env_mixed) Scenario.default_args
  = main Cases.env_mixed Scenario.default_args.
Proof.
  split; [reflexivity |].
  destruct (non_command_solution_is_skipped Cases.env_mixed Scenario.manual_step 1
              (Scenario.fresh 8) eq_refl) as (_ & _ & _ & _ & _ & _ & Hmain).
  split; [| apply Hmain].
  apply (non_command_solution_is_skipped Scenario.env_stop Scenario.manual_step 1
           (Scenario.fresh 8) eq_refl).
Defined.

(** C5 (counterexample). Two decoded payloads with
    [should_continue = false] after which the loop goes on although budget
    and iterations remain. First: the payload also proposes a commands
    solution; the loop runs the proposed command and consults a second
    time. Second: the payload has no key recommended_solutions; the
    consultation then returns none, the stop signal is lost, and the loop
    applies the same solution in all 20 iterations and spends the whole
    budget of 8 consultations. *)
Lemma stop_signal_is_not_always_obeyed :
  (let final := snd (continuous_resolution_loop Scenario.env_stop (Scenario.fresh 8)) in
   addhistory Scenario.env_stop 0
     = Response (Some Scenario.stop_with_commands) Scenario.no_payload /\
   should_continue Scenario.stop_with_commands = Some false /\
   map log_command (execution_log (self final))
     = ["pip install a"; "pip install b"] /\
   List.length (solution_history (self final)) = 2%nat /\
   ai_consultation_count (self final) = 2) /\
  (let final := snd (continuous_resolution_loop Cases.env_stop_only
                       (Scenario.fresh 8)) in
   (forall k, addhistory Cases.env_stop_only k
                = Response (Some Cases.stop_only) Scenario.no_payload) /\
   should_continue Cases.stop_only = Some false /\
   fst (trigger_web_search_consultation Cases.env_stop_only [] "issue"
          (Scenario.fresh 8)) = None /\
   List.length (execution_log (self final)) = 20%nat /\
   List.length (solution_history (self final)) = 20%nat /\
   ai_consultation_count (self final) = 8).
Proof.
  split.
  - vm_compute. repeat split; reflexivity.
  - cbv zeta. split; [intros k; reflexivity |].
    vm_compute. repeat split; reflexivity.
Qed.

(** C5 (amended). A pass ends without a success, advisory support is
    present, budget is left, and the decoded payload [p] of the
    consultation has [should_continue = false]; [st2] is the state after
    the consultation. If [p] has the key recommended_solutions: the loop
    stops in [st2] when [p] holds no commands solution, and goes on with
    the commands solutions of [p] as its new queue when it holds some. If
    [p] lacks the key, the consultation drops [p] and its stop signal: it
    returns [ai_data] when that has the key, and the loop then acts on
    [ai_data] alone; otherwise it returns none and the loop goes on with
    the queue it had. *)
Theorem stop_signal_stops_without_commands
    (env : Env) (remaining : nat) (solution : Solution) (rest : list Solution)
    (issue : string) (cf cf' : Z) (failed : list FailedCommand)
    (st st1 : State) (p ai_data : Payload) :
  solved (self st) = false ->
  run_pass env (solution :: rest) 1 0 cf [] st = (PassDone 0 cf' failed, st1) ->
  HAS_AI env = true ->
  ai_consultation_count (self st1) < max_ai_iterations (self st1) ->
  addhistory env (oracle_calls (world st1)) = Response (Some p) ai_data ->
  should_continue p = Some false ->
  let st2 := {| self := count_consultation (self st1);
                world := tick_oracle (world st1) |} in
  let stops := (false, st2) in
  let goes_on queue consecutive_failures :=
    resolution_while env remaining queue issue consecutive_failures st2 in
  resolution_while env (S remaining) (solution :: rest) issue cf st =
  match recommended_solutions p with
  | Some proposed =>
      match filter is_commands proposed with
      | [] => stops
      | (_ :: _) as new_solutions => goes_on new_solutions 0
      end
  | None =>
      match recommended_solutions ai_data with
      | Some proposed =>
          match filter is_commands proposed with
          | [] =>
              match should_continue ai_data with
              | Some false => stops
              | _ => goes_on (solution :: rest) cf'
              end
          | (_ :: _) as new_solutions => goes_on new_solutions 0
          end
      | None => goes_on (solution :: rest) cf'
      end
  end.
Proof.
  intros Hunsolved Hpass Hai Hroom Hanswer Hstop. cbv zeta.
  rewrite resolution_while_step by exact Hunsolved.
  rewrite Hpass, Hai. cbn [Z.eqb andb].
  unfold trigger_web_search_consultation. rewrite Hai. cbn [negb]. run_monad.
  destruct (ai_consultation_count (self st1) >=? max_ai_iterations (self st1))
    eqn:Hge.
  { rewrite Z.geb_leb in Hge. apply Z.leb_le in Hge. lia. }
  rewrite Hanswer.
  destruct (recommended_solutions p) as [proposed|] eqn:Hp.
  - unfold new_solutions_of, stop_requested. rewrite Hp, Hstop. cbn [default negb].
    destruct (filter is_commands proposed); reflexivity.
  - destruct (recommended_solutions ai_data) as [proposed|] eqn:Ha.
    + unfold new_solutions_of, stop_requested. rewrite Ha. cbn [default].
      destruct (filter is_commands proposed); [| reflexivity].
      destruct (should_continue ai_data) as [[|]|]; reflexivity.
    + reflexivity.
Qed.

Lemma stop_signal_stops_without_commands_witness :
  let env := Scenario.env_stop in
  let st := {| self := set_data (Scenario.diagnosis "needs_attention"
                                   [Scenario.install "pip install b" None])
                         (count_consultation (init 8));
               world := {| proc_calls := 1; oracle_calls := 1 |} |} in
  let st1 := snd (run_pass env [Scenario.install "pip install b" None] 1 0 0 [] st) in
  let st2 := {| self := count_consultation (self st1);
                world := tick_oracle (world st1) |} in
  resolution_while env 19 [Scenario.install "pip install b" None] "issue" 0 st
    = (false, st2).
Proof.
  intros env st st1 st2.
  exact (stop_signal_stops_without_commands env 18
           (Scenario.install "pip install b" None) [] "issue" 0 1
           [{| fc_command := "pip install b";
               fc_output := "ERROR: No matching distribution found";
               fc_exit_code := 1 |}]
           st st1 Scenario.stop_without_commands Scenario.no_payload
           eq_refl eq_refl eq_refl eq_refl eq_refl eq_refl).
Defined.

(** C6. For every solution passed to [apply_solution], in every state and
    whatever its commands do: the call first appends one entry to
    [solution_history] while the execution log and the world are still
    untouched (no undo, main or verification command has run yet),
    everything else runs after that and never touches the history, so the
    call as a whole extends [solution_history] by exactly that entry.
    Hence a pass over a queue leaves one entry per solution it applied:
    as many as the queue is long when it runs to the end, at least one and
    at most that many when it returns early. *)
Theorem apply_solution_records_once_first
    (env : Env) (solution : Solution) (solution_num : Z) (st : State) :
  let entry := history_entry env solution solution_num (world st) in
  let recorded := snd (record_attempt env solution solution_num st) in
  let final := snd (apply_solution env solution solution_num st) in
  apply_solution env solution solution_num st
    = execute_phase env solution recorded /\
  solution_history (self recorded) = (solution_history (self st) ++ [entry])%list /\
  execution_log (self recorded) = execution_log (self st) /\
  world recorded = world st /\
  solution_history (self final) = (solution_history (self st) ++ [entry])%list /\
  List.length (solution_history (self final))
    = S (List.length (solution_history (self st))) /\
  (forall solutions i sc cf failed r st',
     run_pass env solutions i sc cf failed st = (r, st') ->
     let before := List.length (solution_history (self st)) in
     let after := List.length (solution_history (self st')) in
     match r with
     | PassDone _ _ _ => after = (before + List.length solutions)%nat
     | PassReturnedTrue =>
         (before + 1 <= after /\ after <= before + List.length solutions)%nat
     end).
Proof.
  cbn zeta.
  destruct (apply_solution_history env solution solution_num st)
    as (H1 & H2 & H3 & H4 & H5 & H6).
  repeat (split; [assumption |]).
  intros solutions i sc cf failed r st' Hpass.
  exact (run_pass_history env solutions i sc cf failed st st' r Hpass).
Qed.

(** C7 (counterexample). A command whose process ends in time but whose
    output cannot be decoded is not a timeout, and it is judged failed
    whatever its exit code was: the runner gets an exception instead of a
    result, returns the text of the exception, in which the scan would find
    no marker, and logs nothing. *)
Lemma finished_run_without_result_is_judged_failed :
  let env := Scenario.env_of true Cases.shell_undecodable Scenario.silent
               FileNotFound in
  subprocess_run env 0 "pip install a" = RunRaised Cases.decode_message /\
  subprocess_run env 0 "pip install a" <> TimeoutExpired /\
  fst (execute_command env "pip install a" "" (Scenario.fresh 8))
    = (false, Cases.decode_message) /\
  has_error Cases.decode_message = false /\
  execution_log
    (self (snd (execute_command env "pip install a" "" (Scenario.fresh 8)))) = [].
Proof. vm_compute. repeat split; try reflexivity. discriminate. Qed.

(** C7 (amended). A command is judged successful exactly when
    [subprocess.run] returns a result whose exit code is zero and whose
    stdout+stderr holds none of error:, failed, could not, conflict as a
    case-insensitive substring. So a result with exit code 0 and a marker
    in its output is judged failed, a result with another exit code is
    judged failed, and so is every run that ends without a result: the
    timeout and any other exception of [subprocess.run]. *)
Theorem execute_command_judgement
    (env : Env) (command description : string) (st : State) :
  let judged_successful :=
    fst (fst (execute_command env command description st)) in
  let run := subprocess_run env (proc_calls (world st)) command in
  let markers := ["error:"; "failed"; "could not"; "conflict"] in
  (judged_successful = true <->
   exists stdout stderr,
     run = Completed 0 stdout stderr /\
     forall marker, In marker markers ->
       ~ occurs_case_insensitively marker (stdout ++ stderr)) /\
  (forall stdout stderr marker,
     run = Completed 0 stdout stderr ->
     In marker markers ->
     occurs_case_insensitively marker (stdout ++ stderr) ->
     judged_successful = false) /\
  (forall returncode stdout stderr,
     run = Completed returncode stdout stderr -> returncode <> 0 ->
     judged_successful = false) /\
  (run = TimeoutExpired -> judged_successful = false) /\
  (forall message, run = RunRaised message -> judged_successful = false).
Proof.
  cbv zeta.
  assert (fst (fst (execute_command env command description st)) = true <->
          exists stdout stderr,
            subprocess_run env (proc_calls (world st)) command
              = Completed 0 stdout stderr /\
            forall marker, In marker ["error:"; "failed"; "could not"; "conflict"] ->
              ~ occurs_case_insensitively marker (stdout ++ stderr)) as Hiff.
  { destruct (subprocess_run env (proc_calls (world st)) command)
      as [returncode stdout stderr| |message] eqn:Hrun.
    - rewrite (execute_command_completed_verdict env command description st
                 returncode stdout stderr Hrun).
      change failure_markers with ["error:"; "failed"; "could not"; "conflict"].
      split.
      + intros [-> Hnone]. exists stdout, stderr. split; [reflexivity |].
        intros marker Hin Hocc. apply (Hnone marker Hin).
        now apply occurs_ignoring_case_iff.
      + intros (out & err & [= -> -> ->] & Hnone). split; [reflexivity |].
        intros marker Hin Hocc. apply (Hnone marker Hin).
        now apply occurs_ignoring_case_iff.
    - rewrite execute_command_unfold, Hrun. cbn [fst]. split; [discriminate |].
      intros (out & err & Habs & _). discriminate Habs.
    - rewrite execute_command_unfold, Hrun. cbn [fst]. split; [discriminate |].
      intros (out & err & Habs & _). discriminate Habs. }
  split; [exact Hiff |].
  assert (forall P : Prop,
            (fst (fst (execute_command env command description st)) = true -> P -> False) ->
            P -> fst (fst (execute_command env command description st)) = false)
    as Hnot.
  { intros P H HP.
    destruct (fst (fst (execute_command env command description st)));
      [destruct (H eq_refl HP) | reflexivity]. }
  repeat split.
  - intros stdout stderr marker Hrun Hin Hocc.
    apply (Hnot True); [| exact I]. intros Hyes _.
    apply Hiff in Hyes. destruct Hyes as (out & err & Heq & Hnone).
    rewrite Hrun in Heq. injection Heq as <- <-.
    exact (Hnone marker Hin Hocc).
  - intros returncode stdout stderr Hrun Hcode.
    apply (Hnot True); [| exact I]. intros Hyes _.
    apply Hiff in Hyes. destruct Hyes as (out & err & Heq & _).
    rewrite Hrun in Heq. injection Heq as -> _ _. now apply Hcode.
  - intros Hrun. apply (Hnot True); [| exact I]. intros Hyes _.
    apply Hiff in Hyes. destruct Hyes as (out & err & Heq & _).
    rewrite Hrun in Heq. discriminate Heq.
  - intros message Hrun. apply (Hnot True); [| exact I]. intros Hyes _.
    apply Hiff in Hyes. destruct Hyes as (out & err & Heq & _).
    rewrite Hrun in Heq. discriminate Heq.
Qed.

(** C7 at a concrete command: exit code 0 and CONFLICT in capitals on
    stderr; the command is judged failed. *)
Lemma execute_command_judgement_witness :
  let env := Scenario.env_of true Scenario.shell_warns Scenario.silent FileNotFound in
  subprocess_run env 0 "pip install a"
    = Completed 0 "Successfully installed a-1.0"
        "a 1.0 requires b>=2, but you have b 1.0 which is incompatible: CONFLICT" /\
  fst (fst (execute_command env "pip install a" "" (Scenario.fresh 8))) = false.
Proof.
  intros env. split; [reflexivity |].
  destruct (execute_command_judgement env "pip install a" "" (Scenario.fresh 8))
    as (_ & Hmarker & _).
  apply (Hmarker "Successfully installed a-1.0"
           "a 1.0 requires b>=2, but you have b 1.0 which is incompatible: CONFLICT"
           "conflict" eq_refl).
  - cbn. tauto.
  - exists "Successfully installed a-1.0a 1.0 requires b>=2, but you have b 1.0 which is incompatible: ",
           "CONFLICT", "".
    split; [reflexivity |].
    cbn [same_text_up_to_case]. 
    repeat split;
      right;
      [exists 2%nat | exists 14%nat | exists 13%nat | exists 5%nat
       | exists 11%nat | exists 8%nat | exists 2%nat | exists 19%nat];
      (split; [lia | left; split; reflexivity]).
Defined.

(** C8 (counterexample). The text of an empty JSON array holds no brace at
    all, and the decoder returns the decoded list, not the sentinel. *)
Lemma array_without_braces_is_not_the_sentinel :
  PyStr.contains "{" "[]" = false /\
  PyStr.contains "}" "[]" = false /\
  Decoder.safe_json_parse (Decoder.json_loads 1000) "[]"
    = Decoder.Returns (Decoder.JList []) /\
  Decoder.safe_json_parse (Decoder.json_loads 1000) "[]"
    <> Decoder.Returns (Decoder.sentinel "[]").
Proof. vm_compute. repeat split; try reflexivity. discriminate. Qed.

(** C8 (amended). Whatever [json.loads] does, the decoder follows the
    fallback order: a text that parses strictly yields its value; when the
    strict parse raises JSONDecodeError and the text has a block from its
    first opening brace to its last closing brace, the block is parsed and
    its value returned, and if that fails in any way the sentinel is
    returned; when the strict parse raises JSONDecodeError and there is no
    such block (in particular when a brace is missing) the sentinel is
    returned. The sentinel has [overall_status = critical_error] and the
    raw text verbatim. The decoder raises exactly when the strict parse
    raises something other than JSONDecodeError. A text without braces
    that is itself valid JSON yields its value, not the sentinel. *)
Theorem safe_json_parse_fallback_order
    (loads : string -> Decoder.LoadsOutcome) (text : string) :
  (forall v, loads text = Decoder.Decoded v ->
             Decoder.safe_json_parse loads text = Decoder.Returns v) /\
  (loads text = Decoder.JSONDecodeError ->
   (forall block, brace_block text block ->
      Decoder.safe_json_parse loads text =
      match loads block with
      | Decoder.Decoded v => Decoder.Returns v
      | Decoder.JSONDecodeError => Decoder.Returns (Decoder.sentinel text)
      | Decoder.OtherError => Decoder.Returns (Decoder.sentinel text)
      end) /\
   ((forall block, ~ brace_block text block) ->
      Decoder.safe_json_parse loads text = Decoder.Returns (Decoder.sentinel text)) /\
   (PyStr.contains "{" text = false \/ PyStr.contains "}" text = false ->
      Decoder.safe_json_parse loads text = Decoder.Returns (Decoder.sentinel text))) /\
  (Decoder.safe_json_parse loads text = Decoder.Raises <->
   loads text = Decoder.OtherError) /\
  Decoder.get "overall_status" (Decoder.sentinel text)
    = Some (Decoder.JStr "critical_error") /\
  Decoder.get "raw_response" (Decoder.sentinel text) = Some (Decoder.JStr text).
Proof.
  split; [intros v; apply safe_json_parse_strict |].
  split; [| split; [apply safe_json_parse_raises | split; reflexivity]].
  intros Hstrict. split; [| split].
  - intros block. now apply safe_json_parse_block.
  - now apply safe_json_parse_no_block.
  - intros Hmissing. apply safe_json_parse_no_block; [exact Hstrict |].
    intros block Hblock.
    destruct (brace_block_needs_braces text block Hblock) as [Hopen Hclose].
    destruct Hmissing; congruence.
Qed.

(** The decoder on concrete texts, with the model of [json.loads]: a
    payload wrapped in prose, braces in the wrong order, and a nesting
    deeper than the interpreter allows. *)
Example safe_json_parse_examples :
  Decoder.safe_json_parse (Decoder.json_loads 1000) Scenario.wrapped_payload
    = Decoder.Returns
        (Decoder.JDict [("should_continue", Decoder.JBool false);
                        ("recommended_solutions", Decoder.JList [])]) /\
  Decoder.safe_json_parse (Decoder.json_loads 1000) "} no payload {"
    = Decoder.Returns (Decoder.sentinel "} no payload {") /\
  Decoder.safe_json_parse (Decoder.json_loads 3) "[[[[1]]]]" = Decoder.Raises.
Proof. vm_compute. repeat split; reflexivity. Qed.

(** C9 (the code at the failing input). For every analysis whose
    [overall_status] is success the loop of a fresh session answers True at
    once, with an empty execution log, no command started, no consultation
    made and no solution applied, and [main] exits with code 0; but the
    session does not reach the SOLVED state: [self.solved] is still False
    when the loop returns and the saved log says INCOMPLETE. The early
    [return True] does not set the flag that the other [return True]
    sets. *)
Theorem success_diagnosis_returns_true_unsolved
    (env : Env) (d : Diagnosis) (args : Args) :
  loaded_diagnosis (json_file env) = Some d ->
  overall_status d = Some "success" ->
  let r := continuous_resolution_loop env
             {| self := init (arg_max_ai_iterations args); world := start_world |} in
  fst r = true /\
  execution_log (self (snd r)) = [] /\
  ai_consultation_count (self (snd r)) = 0 /\
  web_search_count (self (snd r)) = 0 /\
  solution_history (self (snd r)) = [] /\
  world (snd r) = start_world /\
  solved (self (snd r)) = false /\
  fst (main env args) = 0 /\
  resolution_status (snd (main env args)) = "INCOMPLETE" /\
  total_commands (snd (main env args)) = 0%nat /\
  ai_consultations (snd (main env args)) = 0.
Proof.
  intros Hload Hstatus.
  assert (status_is_success d = true) as Hsuccess
    by (unfold status_is_success; now rewrite Hstatus).
  cbn zeta.
  rewrite (continuous_resolution_loop_success env d _ Hload Hsuccess).
  repeat (split; [reflexivity |]).
  unfold main. destruct (arg_no_ai args).
  - rewrite (continuous_resolution_loop_success (disable_ai env) d _ Hload Hsuccess).
    repeat split.
  - rewrite (continuous_resolution_loop_success env d _ Hload Hsuccess).
    repeat split.
Qed.

Lemma success_diagnosis_returns_true_unsolved_witness :
  let r := continuous_resolution_loop Scenario.env_success (Scenario.fresh 8) in
  fst r = true /\
  execution_log (self (snd r)) = [] /\
  ai_consultation_count (self (snd r)) = 0 /\
  web_search_count (self (snd r)) = 0 /\
  solution_history (self (snd r)) = [] /\
  world (snd r) = start_world /\
  solved (self (snd r)) = false /\
  fst (main Scenario.env_success Scenario.default_args) = 0 /\
  resolution_status (snd (main Scenario.env_success Scenario.default_args))
    = "INCOMPLETE" /\
  total_commands (snd (main Scenario.env_success Scenario.default_args)) = 0%nat /\
  ai_consultations (snd (main Scenario.env_success Scenario.default_args)) = 0.
Proof.
  exact (success_diagnosis_returns_true_unsolved Scenario.env_success
           (Scenario.diagnosis "success" []) Scenario.default_args
           eq_refl eq_refl).
Defined.

(** C10. In the result of [apply_solution] every entry of the failed
    commands carries exit code 1, whatever exit code the shell reported,
    and so does every failed command that a pass collects for the
    consultation. A command that exits with code 0 and fails by a marker
    is logged with exit code 0 and reported with exit code 1. *)
Theorem apply_solution_failed_exit_code_is_1
    (env : Env) (solution : Solution) (solution_num : Z) (st : State) :
  Forall (fun f => fc_exit_code f = 1)
         (snd (fst (apply_solution env solution solution_num st))) /\
  (forall solutions i sc cf,
     match fst (run_pass env solutions i sc cf [] st) with
     | PassDone _ _ all_failed => Forall (fun f => fc_exit_code f = 1) all_failed
     | PassReturnedTrue => True
     end) /\
  (let env := Scenario.env_of true Scenario.shell_warns Scenario.silent FileNotFound in
   let r := apply_solution env (Scenario.install "pip install a" None) 1
              (Scenario.fresh 8) in
   map log_exit_code (execution_log (self (snd r))) = [0] /\
   map fc_exit_code (snd (fst r)) = [1]).
Proof.
  split; [apply apply_solution_exit_codes |].
  split; [| vm_compute; split; reflexivity].
  intros solutions i sc cf. apply run_pass_exit_codes. constructor.
Qed.

End Claims.

(* ------------------------------------------------------------------ *)
(** ** Lifting a step relation through the methods *)

Section Lifting.
Import Resolver.
Variable env : Env.
Variable R : State -> State -> Prop.
Hypothesis R_refl : forall st, R st st.
Hypothesis R_trans : forall st1 st2 st3, R st1 st2 -> R st2 st3 -> R st1 st3.
Hypothesis R_command :
  forall command description st,
    R st (snd (execute_command env command description st)).
Hypothesis R_history :
  forall e st, R st {| self := append_history e (self st); world := world st |}.
Hypothesis R_solved :
  forall st, R st {| self := set_solved (self st); world := world st |}.
Hypothesis R_consult :
  forall failed issue st,
    R st (snd (trigger_web_search_consultation env failed issue st)).
Hypothesis R_data :
  forall d st, R st {| self := set_data d (self st); world := world st |}.

Lemma lift_run_undo (cmds : list string) (st : State) :
  R st (snd (run_undo env cmds st)).
Proof.
  revert st; induction cmds as [|cmd rest IH]; intros st; cbn [run_undo].
  - apply R_refl.
  - unfold bind.
    pose proof (R_command cmd "Undo previous changes" st) as Hc.
    destruct (execute_command env cmd "Undo previous changes" st) as [r st1].
    eapply R_trans; [exact Hc | apply IH].
Qed.

Lemma lift_run_commands (cmds : list string) (all_success : bool)
    (failed : list FailedCommand) (st : State) :
  R st (snd (run_commands env cmds all_success failed st)).
Proof.
  revert all_success failed st;
    induction cmds as [|cmd rest IH]; intros all_success failed st;
    cbn [run_commands].
  - apply R_refl.
  - unfold bind.
    pose proof (R_command cmd "" st) as Hc.
    destruct (execute_command env cmd "" st) as [[success output] st1].
    cbn [snd] in Hc.
    destruct success; (eapply R_trans; [exact Hc | apply IH]).
Qed.

Lemma lift_execute_phase (solution : Solution) (st : State) :
  R st (snd (execute_phase env solution st)).
Proof.
  unfold execute_phase, bind.
  pose proof (lift_run_undo (undo_commands solution) st) as Hundo.
  destruct (run_undo env (undo_commands solution) st) as [u st1].
  cbn [snd] in Hundo.
  destruct (is_commands solution); [| exact Hundo].
  destruct (commands solution) as [|cmd rest]; [exact Hundo |].
  pose proof (lift_run_commands (cmd :: rest) true [] st1) as Hrun.
  destruct (run_commands env (cmd :: rest) true [] st1)
    as [[all_success failed] st2].
  cbn [snd] in Hrun.
  assert (R st st2) as H2 by (eapply R_trans; eassumption).
  destruct all_success; [| exact H2].
  destruct (truthy_command (verification_command solution)) as [v|]; [| exact H2].
  pose proof (R_command v "Verify solution" st2) as Hv.
  destruct (execute_command env v "Verify solution" st2) as [[ok out] st3].
  cbn [snd fst] in *.
  assert (R st st3) as H3 by (eapply R_trans; eassumption).
  destruct ok; [| exact H3].
  run_monad. eapply R_trans; [exact H3 | apply R_solved].
Qed.

Lemma lift_apply_solution (solution : Solution) (n : Z) (st : State) :
  R st (snd (apply_solution env solution n st)).
Proof.
  unfold apply_solution, bind. rewrite record_attempt_unfold.
  eapply R_trans; [apply R_history |].
  apply lift_execute_phase.
Qed.

Lemma lift_run_pass (solutions : list Solution) (i sc cf : Z)
    (failed : list FailedCommand) (st : State) :
  R st (snd (run_pass env solutions i sc cf failed st)).
Proof.
  revert i sc cf failed st;
    induction solutions as [|solution rest IH]; intros i sc cf failed st.
  - apply R_refl.
  - cbn [run_pass]. unfold bind at 1.
    pose proof (lift_apply_solution solution i st) as Ha.
    destruct (apply_solution env solution i st) as [[success failed_cmds] st1].
    cbn [snd] in Ha. destruct success.
    + unfold bind at 1.
      pose proof (R_command "pip check" "Final dependency check" st1) as Hc.
      destruct (execute_command env "pip check" "Final dependency check" st1)
        as [[ok out] st2].
      cbn [snd fst] in *.
      assert (R st st2) as H2 by (eapply R_trans; eassumption).
      destruct ok.
      * run_monad. eapply R_trans; [exact H2 | apply R_solved].
      * eapply R_trans; [exact H2 | apply IH].
    + eapply R_trans; [exact Ha | apply IH].
Qed.

Lemma lift_resolution_while (remaining : nat) (solutions : list Solution)
    (issue : string) (cf : Z) (st : State) :
  R st (snd (resolution_while env remaining solutions issue cf st)).
Proof.
  revert solutions cf st;
    induction remaining as [|remaining IH]; intros solutions cf st.
  - apply R_refl.
  - destruct (solved (self st)) eqn:Hsolved.
    { rewrite resolution_while_stops by auto. apply R_refl. }
    destruct solutions as [|solution rest].
    { rewrite resolution_while_stops by auto. apply R_refl. }
    rewrite resolution_while_step by exact Hsolved.
    pose proof (lift_run_pass (solution :: rest) 1 0 cf [] st) as Hpass.
    destruct (run_pass env (solution :: rest) 1 0 cf [] st) as [r st1].
    cbn [snd] in Hpass.
    destruct r as [|success_count cf' all_failed]; [exact Hpass |].
    destruct ((success_count =? 0) && HAS_AI env).
    + pose proof (R_consult all_failed issue st1) as Hc.
      destruct (trigger_web_search_consultation env all_failed issue st1)
        as [ai_response st2].
      cbn [snd] in Hc.
      assert (R st st2) as H2 by (eapply R_trans; eassumption).
      destruct (new_solutions_of ai_response).
      * destruct (stop_requested ai_response); [exact H2 |].
        eapply R_trans; [exact H2 | apply IH].
      * eapply R_trans; [exact H2 | apply IH].
    + destruct (success_count =? 0); [exact Hpass |].
      eapply R_trans; [exact Hpass | apply IH].
Qed.

Lemma lift_continuous_resolution_loop (st : State) :
  R st (snd (continuous_resolution_loop env st)).
Proof.
  rewrite continuous_resolution_loop_unfold.
  destruct (loaded_diagnosis (json_file env)) as [d|]; [| apply R_refl].
  cbn zeta.
  destruct (status_is_success d); [apply R_data |].
  destruct (default [] (diag_recommended_solutions d)); [apply R_data |].
  eapply R_trans; [apply R_data | apply lift_resolution_while].
Qed.

End Lifting.

(** ** Invariants of the session *)

Section Invariants.
Import Resolver.
Variable env : Env.

Lemma extends_refl {A} (l : list A) : extends l l.
Proof. exists []. now rewrite app_nil_r. Qed.

Lemma extends_trans {A} (l1 l2 l3 : list A) :
  extends l1 l2 -> extends l2 l3 -> extends l1 l3.
Proof.
  intros [s1 ->] [s2 ->]. exists (s1 ++ s2)%list. now rewrite app_assoc.
Qed.

(** What one command does to the state, and how its answer shows in the
    log. *)
Lemma execute_command_effect (command description : string) (st : State) :
  let r := fst (execute_command env command description st) in
  let st' := snd (execute_command env command description st) in
  world st' = tick_proc (world st) /\
  fst r = judged_success (subprocess_run env (proc_calls (world st)) command) /\
  ((self st' = self st /\ fst r = false) \/
   (exists e,
      self st' = append_log e (self st) /\
      entry_consistent e /\
      log_command e = command /\
      log_description e = description /\
      log_success e = fst r /\
      (fst r = true -> log_exit_code e = 0))).
Proof.
  rewrite execute_command_unfold.
  destruct (subprocess_run env (proc_calls (world st)) command)
    as [returncode stdout stderr| |message]; cbn.
  - repeat split. right. eexists. split; [reflexivity |].
    unfold entry_consistent. cbn. repeat split.
    intros H. apply andb_true_iff in H. destruct H as [H _].
    now apply Z.eqb_eq in H.
  - repeat split. left. split; reflexivity.
  - repeat split. left. split; reflexivity.
Qed.

Lemma session_grows_refl (st : State) : session_grows st st.
Proof. repeat split; auto using extends_refl. Qed.

Lemma session_grows_trans (st1 st2 st3 : State) :
  session_grows st1 st2 -> session_grows st2 st3 -> session_grows st1 st3.
Proof.
  intros (A1 & A2 & A3 & A4 & A5) (B1 & B2 & B3 & B4 & B5).
  repeat split; eauto using extends_trans.
Qed.

Lemma session_grows_command (command description : string) (st : State) :
  session_grows st (snd (execute_command env command description st)).
Proof.
  destruct (execute_command_effect command description st)
    as (_ & _ & [[Hsame _] | (e & Happ & Hcons & _)]).
  - unfold session_grows. rewrite Hsame. repeat split; auto using extends_refl.
  - unfold session_grows. rewrite Happ. cbn. repeat split; auto using extends_refl.
    + now exists [e].
    + intros H. apply Forall_app. split; [exact H | now constructor].
Qed.

Lemma session_grows_history (e : SolutionHistoryEntry) (st : State) :
  session_grows st {| self := append_history e (self st); world := world st |}.
Proof.
  unfold session_grows. cbn. repeat split; auto using extends_refl.
  now exists [e].
Qed.

Lemma session_grows_solved (st : State) :
  session_grows st {| self := set_solved (self st); world := world st |}.
Proof. unfold session_grows. cbn. repeat split; auto using extends_refl. Qed.

Lemma session_grows_data (d : Diagnosis) (st : State) :
  session_grows st {| self := set_data d (self st); world := world st |}.
Proof. unfold session_grows. cbn. repeat split; auto using extends_refl. Qed.

Lemma session_grows_consult (failed : list FailedCommand) (issue : string)
    (st : State) :
  session_grows st (snd (trigger_web_search_consultation env failed issue st)).
Proof.
  unfold session_grows.
  destruct (trigger_cases env failed issue st) as [-> | [-> _]]; cbn.
  - repeat split; auto using extends_refl.
  - repeat split; auto using extends_refl. intros H. now rewrite H.
Qed.

(** Every method of the resolver lets the session grow. *)
Lemma session_grows_apply_solution (solution : Solution) (n : Z) (st : State) :
  session_grows st (snd (apply_solution env solution n st)).
Proof.
  apply lift_apply_solution;
    auto using session_grows_refl, session_grows_command,
               session_grows_history, session_grows_solved.
  exact session_grows_trans.
Qed.

Lemma session_grows_loop (st : State) :
  session_grows st (snd (continuous_resolution_loop env st)).
Proof.
  apply lift_continuous_resolution_loop;
    auto using session_grows_refl, session_grows_command,
               session_grows_history, session_grows_solved,
               session_grows_consult, session_grows_data.
  exact session_grows_trans.
Qed.

Lemma session_grows_run_pass (solutions : list Solution) (i sc cf : Z)
    (failed : list FailedCommand) (st : State) :
  session_grows st (snd (run_pass env solutions i sc cf failed st)).
Proof.
  apply lift_run_pass;
    auto using session_grows_refl, session_grows_command,
               session_grows_history, session_grows_solved.
  exact session_grows_trans.
Qed.

End Invariants.

(** ** More on the solution applier *)

Section ApplierMore.
Import Resolver.
Variable env : Env.

(** The flag and the list that the command loop returns: the list grows by
    the commands that failed, and the flag goes down exactly when it grew. *)
Lemma run_commands_result (cmds : list string) (all_success : bool)
    (failed : list FailedCommand) (st : State) :
  exists new_failures,
    snd (fst (run_commands env cmds all_success failed st))
      = (failed ++ new_failures)%list /\
    fst (fst (run_commands env cmds all_success failed st))
      = all_success && match new_failures with [] => true | _ :: _ => false end.
Proof.
  revert all_success failed st;
    induction cmds as [|cmd rest IH]; intros all_success failed st;
    cbn [run_commands].
  - exists []. cbn. now rewrite app_nil_r, andb_true_r.
  - unfold bind.
    destruct (execute_command env cmd "" st) as [[success output] st1].
    destruct success.
    + apply IH.
    + destruct (IH false
                  (failed ++ [{| fc_command := cmd; fc_output := output;
                                 fc_exit_code := 1 |}])%list st1)
        as (g & Hlist & Hflag).
      exists ({| fc_command := cmd; fc_output := output; fc_exit_code := 1 |} :: g).
      rewrite Hlist, Hflag, <- app_assoc. cbn. now rewrite andb_false_r.
Qed.

(** When every command completes, a command leaves exactly its own entry. *)
Lemma execute_command_logged_when_completes
    (command description : string) (st : State) :
  always_completes env ->
  map log_command
      (execution_log (self (snd (execute_command env command description st))))
  = (map log_command (execution_log (self st)) ++ [command])%list.
Proof.
  intros Hc. destruct (Hc (proc_calls (world st)) command) as (rc & out & err & Hrun).
  rewrite execute_command_unfold, Hrun. cbn. now rewrite map_app.
Qed.

Lemma run_undo_log (cmds : list string) (st : State) :
  always_completes env ->
  map log_command (execution_log (self (snd (run_undo env cmds st))))
  = (map log_command (execution_log (self st)) ++ cmds)%list.
Proof.
  intros Hc. revert st; induction cmds as [|cmd rest IH]; intros st;
    cbn [run_undo].
  - cbn. now rewrite app_nil_r.
  - unfold bind.
    pose proof (execute_command_logged_when_completes cmd
                  "Undo previous changes" st Hc) as H1.
    destruct (execute_command env cmd "Undo previous changes" st) as [r st1].
    cbn [snd] in H1. rewrite IH, H1, <- app_assoc. reflexivity.
Qed.

Lemma run_commands_log (cmds : list string) (all_success : bool)
    (failed : list FailedCommand) (st : State) :
  always_completes env ->
  map log_command
      (execution_log (self (snd (run_commands env cmds all_success failed st))))
  = (map log_command (execution_log (self st)) ++ cmds)%list.
Proof.
  intros Hc. revert all_success failed st;
    induction cmds as [|cmd rest IH]; intros all_success failed st;
    cbn [run_commands].
  - cbn. now rewrite app_nil_r.
  - unfold bind.
    pose proof (execute_command_logged_when_completes cmd "" st Hc) as H1.
    destruct (execute_command env cmd "" st) as [[success output] st1].
    cbn [snd] in H1.
    destruct success; rewrite IH, H1, <- app_assoc; reflexivity.
Qed.

(** [apply_solution] after the history append, with every intermediate
    state named. *)
Lemma execute_phase_unfold (solution : Solution) (st : State) :
  execute_phase env solution st =
  let st1 := snd (run_undo env (undo_commands solution) st) in
  if is_commands solution then
    match commands solution with
    | [] => ((false, []), st1)
    | (_ :: _) as cmds =>
        let rc := run_commands env cmds true [] st1 in
        match fst (fst rc), truthy_command (verification_command solution) with
        | true, Some v =>
            let ev := execute_command env v "Verify solution" (snd rc) in
            if fst (fst ev) then
              ((true, snd (fst rc)),
               {| self := set_solved (self (snd ev)); world := world (snd ev) |})
            else ((false, snd (fst rc)), snd ev)
        | _, _ => (fst rc, snd rc)
        end
    end
  else ((false, []), st1).
Proof.
  unfold execute_phase, bind. cbn zeta.
  destruct (run_undo env (undo_commands solution) st) as [u st1]. cbn [snd].
  destruct (is_commands solution); [| reflexivity].
  destruct (commands solution) as [|cmd rest]; [reflexivity |].
  destruct (run_commands env (cmd :: rest) true [] st1)
    as [[all_success failed] st2].
  cbn [fst snd].
  destruct all_success;
    [| now destruct (truthy_command (verification_command solution))].
  destruct (truthy_command (verification_command solution)) as [v|];
    [| reflexivity].
  destruct (execute_command env v "Verify solution" st2) as [[ok out] st3].
  cbn [fst snd]. destruct ok; reflexivity.
Qed.

Lemma apply_solution_unfold (solution : Solution) (n : Z) (st : State) :
  apply_solution env solution n st =
  execute_phase env solution
    {| self := append_history (history_entry env solution n (world st)) (self st);
       world := world st |}.
Proof. reflexivity. Qed.

(** A solution is reported as applied only if it is of type commands, has
    at least one command and none of them failed; if it names a
    verification command, [self.solved] is then set. *)
Lemma apply_solution_success (solution : Solution) (n : Z) (st : State) :
  fst (fst (apply_solution env solution n st)) = true ->
  is_commands solution = true /\
  commands solution <> [] /\
  snd (fst (apply_solution env solution n st)) = [] /\
  (truthy_command (verification_command solution) = None \/
   solved (self (snd (apply_solution env solution n st))) = true).
Proof.
  rewrite apply_solution_unfold, execute_phase_unfold. cbn zeta.
  set (st0 := {| self := _; world := world st |}).
  set (st1 := snd (run_undo env (undo_commands solution) st0)).
  destruct (is_commands solution); [| discriminate].
  destruct (commands solution) as [|cmd rest]; [discriminate |].
  destruct (run_commands_result (cmd :: rest) true [] st1)
    as (g & Hlist & Hflag).
  cbn [app andb] in Hlist, Hflag.
  destruct (fst (fst (run_commands env (cmd :: rest) true [] st1))) eqn:Hall.
  - assert (g = []) as -> by (destruct g; [reflexivity | discriminate]).
    destruct (truthy_command (verification_command solution)) as [v|].
    + destruct (fst (fst (execute_command env v "Verify solution" _)));
        [| discriminate].
      intros _. cbn. repeat split; [discriminate | exact Hlist | now right].
    + cbn [fst snd]. intros _.
      repeat split; [discriminate | exact Hlist | now left].
  - destruct (truthy_command (verification_command solution));
      cbn [fst snd]; rewrite Hall; discriminate.
Qed.

(** [apply_solution] sets [self.solved] only by a verification command that
    it ran last and that was judged successful. *)
Lemma apply_solution_sets_solved (solution : Solution) (n : Z) (st : State) :
  solved (self st) = false ->
  solved (self (snd (apply_solution env solution n st))) = true ->
  fst (fst (apply_solution env solution n st)) = true /\
  exists v older e,
    truthy_command (verification_command solution) = Some v /\
    execution_log (self (snd (apply_solution env solution n st)))
      = (older ++ [e])%list /\
    log_command e = v /\ log_description e = "Verify solution" /\
    log_success e = true /\ log_exit_code e = 0.
Proof.
  intros Hbefore.
  rewrite apply_solution_unfold, execute_phase_unfold. cbn zeta.
  set (st0 := {| self := _; world := world st |}).
  assert (solved (self st0) = false) as H0 by exact Hbefore.
  destruct (run_undo_keeps env (undo_commands solution) st0) as [_ Hundo].
  set (st1 := snd (run_undo env (undo_commands solution) st0)) in *.
  assert (solved (self st1) = false) as H1 by congruence.
  destruct (is_commands solution);
    [| cbn [snd]; intros Habs; congruence].
  destruct (commands solution) as [|cmd rest];
    [cbn [snd]; intros Habs; congruence |].
  destruct (run_commands_keeps env (cmd :: rest) true [] st1) as [_ Hrun].
  set (rc := run_commands env (cmd :: rest) true [] st1) in *.
  assert (solved (self (snd rc)) = false) as H2 by congruence.
  destruct (fst (fst rc));
    [| destruct (truthy_command (verification_command solution));
       cbn [snd]; intros Habs; congruence].
  destruct (truthy_command (verification_command solution)) as [v|];
    [| cbn [snd]; intros Habs; congruence].
  destruct (execute_command_effect env v "Verify solution" (snd rc))
    as (_ & _ & Hcases).
  destruct (execute_command_frame env v "Verify solution" (snd rc))
    as (_ & _ & _ & _ & Hs & _).
  destruct (fst (fst (execute_command env v "Verify solution" (snd rc)))) eqn:Hok.
  - intros _. cbn [fst snd self]. split; [reflexivity |].
    destruct Hcases as [[_ Hfalse] | (e & Happ & _ & Hc & Hd & Hsucc & Hcode)];
      [discriminate |].
    exists v, (execution_log (self (snd rc))), e.
    repeat split; try assumption.
    + unfold set_solved. cbn [execution_log]. rewrite Happ. reflexivity.
    + auto.
  - cbn [snd]. intros Habs. congruence.
Qed.

(** When every command completes, the log shows what [apply_solution] ran:
    the undo commands, then every main command, in order and whether or not
    an earlier one failed, then the verification command if all of them
    succeeded. *)
Lemma apply_solution_log (solution : Solution) (n : Z) (st : State) :
  always_completes env ->
  map log_command (execution_log (self (snd (apply_solution env solution n st))))
  = (map log_command (execution_log (self st))
       ++ undo_commands solution
       ++ (if is_commands solution then
             commands solution
               ++ match commands solution,
                        snd (fst (apply_solution env solution n st)),
                        truthy_command (verification_command solution) with
                  | _ :: _, [], Some v => [v]
                  | _, _, _ => []
                  end
           else []))%list.
Proof.
  intros Hc.
  rewrite apply_solution_unfold, execute_phase_unfold. cbn zeta.
  set (st0 := {| self := _; world := world st |}).
  assert (execution_log (self st0) = execution_log (self st)) as H0 by reflexivity.
  pose proof (run_undo_log (undo_commands solution) st0 Hc) as Hundo.
  rewrite H0 in Hundo.
  set (st1 := snd (run_undo env (undo_commands solution) st0)) in *.
  destruct (is_commands solution);
    [| cbn [snd]; rewrite Hundo, app_nil_r; reflexivity].
  destruct (commands solution) as [|cmd rest];
    [cbn [snd app]; rewrite Hundo, app_nil_r; reflexivity |].
  pose proof (run_commands_log (cmd :: rest) true [] st1 Hc) as Hrun.
  destruct (run_commands_result (cmd :: rest) true [] st1)
    as (g & Hlist & Hflag).
  cbn [app andb] in Hlist, Hflag.
  set (rc := run_commands env (cmd :: rest) true [] st1) in *.
  destruct (fst (fst rc)) eqn:Hall.
  - assert (g = []) as -> by (destruct g; [reflexivity | discriminate]).
    destruct (truthy_command (verification_command solution)) as [v|].
    + pose proof (execute_command_logged_when_completes v "Verify solution"
                    (snd rc) Hc) as Hv.
      destruct (fst (fst (execute_command env v "Verify solution" (snd rc))));
        cbn [fst snd self set_solved execution_log]; rewrite Hlist;
        rewrite Hv, Hrun, Hundo, <- !app_assoc; reflexivity.
    + cbn [fst snd]. rewrite Hlist, Hrun, Hundo, <- !app_assoc, app_nil_r.
      reflexivity.
  - assert (g <> []) as Hg by (intros ->; discriminate).
    assert (snd (fst rc) <> []) as Hfailed by (rewrite Hlist; exact Hg).
    destruct (truthy_command (verification_command solution)) as [v|];
      cbn [fst snd]; destruct (snd (fst rc)) eqn:E; try contradiction;
      rewrite Hrun, Hundo, <- !app_assoc, ?app_nil_r; reflexivity.
Qed.

End ApplierMore.

(** ** More on the resolution loop *)

Section LoopMore.
Import Resolver.
Variable env : Env.

(** What a pass writes into the history: one entry per solution applied,
    in queue order, numbered from [i]. A pass that runs to the end has
    applied the whole queue; a pass that returns from inside has applied a
    non-empty initial part of it. *)
Lemma run_pass_contents (solutions : list Solution) (i sc cf : Z)
    (failed : list FailedCommand) (st st' : State) (r : PassResult) :
  run_pass env solutions i sc cf failed st = (r, st') ->
  exists (k : nat) (entries : list SolutionHistoryEntry),
    solution_history (self st') = (solution_history (self st) ++ entries)%list /\
    map history_key entries = expected_history i (firstn k solutions) /\
    match r with
    | PassDone _ _ _ => k = List.length solutions
    | PassReturnedTrue => (1 <= k <= List.length solutions)%nat
    end.
Proof.
  revert i sc cf failed st;
    induction solutions as [|solution rest IH]; intros i sc cf failed st.
  - cbn. intros [= <- <-]. exists O, []. cbn. now rewrite app_nil_r.
  - cbn [run_pass]. unfold bind at 1.
    destruct (apply_solution_history env solution i st)
      as (_ & _ & _ & _ & Hhist & _).
    destruct (apply_solution env solution i st) as [[success failed_cmds] st1].
    cbn [snd] in Hhist.
    assert (forall c d,
      solution_history (self (snd (execute_command env c d st1)))
        = solution_history (self st1)) as Hcmd
      by (intros c d; apply execute_command_frame).
    assert (forall k entries (st2 : State),
      solution_history (self st2)
        = (solution_history (self st1) ++ entries)%list ->
      map history_key entries = expected_history (i + 1) (firstn k rest) ->
      solution_history (self st2)
        = (solution_history (self st)
             ++ history_entry env solution i (world st) :: entries)%list /\
      map history_key (history_entry env solution i (world st) :: entries)
        = expected_history i (firstn (S k) (solution :: rest))) as Hcons.
    { intros k entries st2 H1 H2. split.
      - rewrite H1, Hhist, <- app_assoc. reflexivity.
      - cbn. now rewrite H2. }
    destruct success.
    + unfold bind at 1.
      specialize (Hcmd "pip check" "Final dependency check").
      destruct (execute_command env "pip check" "Final dependency check" st1)
        as [[ok out] st2].
      cbn [snd fst] in *. destruct ok.
      * run_monad. intros [= <- <-].
        exists 1%nat, [history_entry env solution i (world st)].
        cbn [self]. unfold set_solved. cbn [solution_history].
        rewrite Hcmd, Hhist. repeat split; cbn; lia.
      * intros Hrest. apply IH in Hrest.
        destruct Hrest as (k & entries & H1 & H2 & H3).
        rewrite Hcmd in H1.
        destruct (Hcons k entries st' H1 H2) as [H4 H5].
        exists (S k), (history_entry env solution i (world st) :: entries).
        repeat split; [exact H4 | exact H5 |].
        destruct r; cbn [List.length]; lia.
    + intros Hrest. apply IH in Hrest.
      destruct Hrest as (k & entries & H1 & H2 & H3).
      destruct (Hcons k entries st' H1 H2) as [H4 H5].
      exists (S k), (history_entry env solution i (world st) :: entries).
      repeat split; [exact H4 | exact H5 |].
      destruct r; cbn [List.length]; lia.
Qed.

(** A pass returns from inside right after a pip check that was judged
    successful. *)
Lemma run_pass_returned_after_check (solutions : list Solution) (i sc cf : Z)
    (failed : list FailedCommand) (st st' : State) :
  run_pass env solutions i sc cf failed st = (PassReturnedTrue, st') ->
  exists older e,
    execution_log (self st') = (older ++ [e])%list /\
    log_command e = "pip check" /\
    log_description e = "Final dependency check" /\
    log_success e = true /\ log_exit_code e = 0.
Proof.
  revert i sc cf failed st;
    induction solutions as [|solution rest IH]; intros i sc cf failed st.
  - cbn. discriminate.
  - cbn [run_pass]. unfold bind at 1.
    destruct (apply_solution env solution i st) as [[success failed_cmds] st1].
    destruct success; [| apply IH].
    unfold bind at 1.
    destruct (execute_command_effect env "pip check" "Final dependency check" st1)
      as (_ & _ & Hcases).
    destruct (execute_command env "pip check" "Final dependency check" st1)
      as [[ok out] st2].
    cbn [fst snd] in *. destruct ok; [| apply IH].
    run_monad. intros [= <-].
    destruct Hcases as [[_ Hfalse] | (e & Happ & _ & Hc & Hd & Hsucc & Hcode)];
      [discriminate |].
    exists (execution_log (self st1)), e.
    cbn [self]. unfold set_solved. cbn [execution_log]. rewrite Happ.
    repeat split; auto.
Qed.

Lemma resolution_while_true_after_check (remaining : nat)
    (solutions : list Solution) (issue : string) (cf : Z) (st st' : State) :
  resolution_while env remaining solutions issue cf st = (true, st') ->
  exists older e,
    execution_log (self st') = (older ++ [e])%list /\
    log_command e = "pip check" /\
    log_description e = "Final dependency check" /\
    log_success e = true /\ log_exit_code e = 0.
Proof.
  revert solutions cf st;
    induction remaining as [|remaining IH]; intros solutions cf st.
  - cbn. discriminate.
  - destruct (solved (self st)) eqn:Hsolved.
    { rewrite resolution_while_stops by auto. discriminate. }
    destruct solutions as [|solution rest].
    { rewrite resolution_while_stops by auto. discriminate. }
    rewrite resolution_while_step by exact Hsolved.
    destruct (run_pass env (solution :: rest) 1 0 cf [] st) as [r st1] eqn:Hpass.
    destruct r as [|success_count cf' all_failed].
    { intros [= <-]. eapply run_pass_returned_after_check; eassumption. }
    destruct ((success_count =? 0) && HAS_AI env).
    + destruct (trigger_web_search_consultation env all_failed issue st1)
        as [ai_response st2].
      destruct (new_solutions_of ai_response); [| apply IH].
      destruct (stop_requested ai_response); [discriminate | apply IH].
    + destruct (success_count =? 0); [discriminate | apply IH].
Qed.

(** At most one consultation per iteration. *)
Lemma resolution_while_consultations (remaining : nat)
    (solutions : list Solution) (issue : string) (cf : Z) (st : State) :
  let st' := snd (resolution_while env remaining solutions issue cf st) in
  ai_consultation_count (self st')
    <= ai_consultation_count (self st) + Z.of_nat remaining.
Proof.
  revert solutions cf st;
    induction remaining as [|remaining IH]; intros solutions cf st.
  - cbn. lia.
  - destruct (solved (self st)) eqn:Hsolved.
    { rewrite resolution_while_stops by auto. cbn [snd]. lia. }
    destruct solutions as [|solution rest].
    { rewrite resolution_while_stops by auto. cbn [snd]. lia. }
    rewrite resolution_while_step by exact Hsolved.
    pose proof (run_pass_counters env (solution :: rest) 1 0 cf [] st) as Hpass.
    destruct (run_pass env (solution :: rest) 1 0 cf [] st) as [r st1].
    cbn [snd] in Hpass. unfold counters in Hpass.
    injection Hpass as Hmax Hcount Hweb.
    destruct r as [|success_count cf' all_failed]; [cbn [snd]; lia |].
    destruct ((success_count =? 0) && HAS_AI env).
    + pose proof (trigger_cases env all_failed issue st1) as Hcases.
      destruct (trigger_web_search_consultation env all_failed issue st1)
        as [ai_response st2].
      cbn [snd] in Hcases.
      assert (ai_consultation_count (self st2)
              <= ai_consultation_count (self st) + 1) as H2.
      { destruct Hcases as [Hsame | [Hspent _]];
          [rewrite Hsame | rewrite Hspent; cbn]; lia. }
      destruct (new_solutions_of ai_response) as [|new rest'];
        cbv beta iota zeta.
      * destruct (stop_requested ai_response); [cbn [snd]; lia |].
        specialize (IH (solution :: rest) cf' st2). cbn zeta in IH. lia.
      * specialize (IH (new :: rest') 0 st2). cbn zeta in IH. lia.
    + destruct (success_count =? 0); cbv beta iota zeta; [cbn [snd]; lia |].
      specialize (IH (solution :: rest) cf' st1). cbn zeta in IH. lia.
Qed.

End LoopMore.

(** ** The queue order *)

Section QueueOrder.
Import Resolver.

Lemma insert_by_priority_perm (s : Solution) (l : list Solution) :
  Permutation (insert_by_priority s l) (s :: l).
Proof.
  induction l as [|t rest IH]; cbn.
  - apply Permutation_refl.
  - destruct (sort_key s <=? sort_key t); [apply Permutation_refl |].
    eapply perm_trans; [apply perm_skip, IH | apply perm_swap].
Qed.

Lemma sort_by_priority_perm (l : list Solution) :
  Permutation (sort_by_priority l) l.
Proof.
  induction l as [|s rest IH]; cbn; [constructor |].
  eapply perm_trans; [apply insert_by_priority_perm | now apply perm_skip].
Qed.

Lemma insert_by_priority_sorted (s : Solution) (l : list Solution) :
  StronglySorted by_priority l ->
  StronglySorted by_priority (insert_by_priority s l).
Proof.
  intros Hl. induction Hl as [|t rest Hrest IH Hall]; cbn.
  - repeat constructor.
  - destruct (sort_key s <=? sort_key t) eqn:E.
    + apply Z.leb_le in E. constructor; [now constructor |].
      constructor; [exact E |].
      eapply Forall_impl; [| exact Hall].
      unfold by_priority. intros a Ha. lia.
    + apply Z.leb_gt in E. constructor; [exact IH |].
      eapply Permutation_Forall;
        [apply Permutation_sym, insert_by_priority_perm |].
      constructor; [unfold by_priority; lia | exact Hall].
Qed.

Lemma sort_by_priority_sorted (l : list Solution) :
  StronglySorted by_priority (sort_by_priority l).
Proof.
  induction l as [|s rest IH]; cbn;
    [constructor | now apply insert_by_priority_sorted].
Qed.

Lemma insert_by_priority_stable (p : Z) (s : Solution) (l : list Solution) :
  filter (fun t => sort_key t =? p) (insert_by_priority s l)
  = filter (fun t => sort_key t =? p) (s :: l).
Proof.
  induction l as [|t rest IH]; [reflexivity |].
  cbn [insert_by_priority].
  destruct (sort_key s <=? sort_key t) eqn:E; [reflexivity |].
  apply Z.leb_gt in E. cbn [filter] in *. rewrite IH.
  destruct (sort_key t =? p) eqn:Et; destruct (sort_key s =? p) eqn:Es;
    try reflexivity.
  apply Z.eqb_eq in Et, Es. lia.
Qed.

Lemma sort_by_priority_stable (p : Z) (l : list Solution) :
  filter (fun t => sort_key t =? p) (sort_by_priority l)
  = filter (fun t => sort_key t =? p) l.
Proof.
  induction l as [|s rest IH]; [reflexivity |].
  cbn [sort_by_priority]. rewrite insert_by_priority_stable.
  cbn [filter]. now rewrite IH.
Qed.

Lemma initial_queue_length (l : list Solution) :
  List.length (initial_queue l) = List.length (filter is_commands l).
Proof. apply Permutation_length, sort_by_priority_perm. Qed.

End QueueOrder.

(** One solution of a pass. *)
Lemma run_pass_cons (env : Resolver.Env) (solution : Resolver.Solution)
    (rest : list Resolver.Solution) (i sc cf : Z)
    (failed : list Resolver.FailedCommand) (st : Resolver.State) :
  Resolver.run_pass env (solution :: rest) i sc cf failed st =
  let (r, st1) := Resolver.apply_solution env solution i st in
  let (success, failed_cmds) := r in
  if success then
    let (v, st2) :=
      Resolver.execute_command env "pip check" "Final dependency check" st1 in
    if fst v then
      (Resolver.PassReturnedTrue,
       {| Resolver.self := Resolver.set_solved (Resolver.self st2);
          Resolver.world := Resolver.world st2 |})
    else Resolver.run_pass env rest (i + 1) (sc + 1) 0 failed st2
  else Resolver.run_pass env rest (i + 1) sc (cf + 1)
         (failed ++ failed_cmds)%list st1.
Proof.
  cbn [Resolver.run_pass]. unfold Resolver.bind at 1.
  destruct (Resolver.apply_solution env solution i st)
    as [[success failed_cmds] st1].
  destruct success; [| reflexivity].
  unfold Resolver.bind at 1.
  destruct (Resolver.execute_command env "pip check" "Final dependency check" st1)
    as [[ok out] st2].
  cbn [fst]. destruct ok; reflexivity.
Qed.

(** ** Runs in which nothing succeeds *)

Section NothingSucceeds.
Import Resolver.
Variable env : Env.
Hypothesis Hnever : never_succeeds env.

Lemma execute_command_never (command description : string) (st : State) :
  fst (fst (execute_command env command description st)) = false.
Proof.
  destruct (execute_command_effect env command description st) as (_ & -> & _).
  apply Hnever.
Qed.

Lemma run_commands_never (cmd : string) (rest : list string) (all_success : bool)
    (failed : list FailedCommand) (st : State) :
  fst (fst (run_commands env (cmd :: rest) all_success failed st)) = false.
Proof.
  cbn [run_commands]. unfold bind.
  pose proof (execute_command_never cmd "" st) as Hc.
  destruct (execute_command env cmd "" st) as [[success output] st1].
  cbn [fst] in Hc. subst success.
  destruct (run_commands_result env rest false
              (failed ++ [{| fc_command := cmd; fc_output := output;
                             fc_exit_code := 1 |}])%list st1)
    as (g & _ & Hflag).
  exact Hflag.
Qed.

(** No solution is applied successfully, and [self.solved] stays as it is. *)
Lemma apply_solution_never (solution : Solution) (n : Z) (st : State) :
  fst (fst (apply_solution env solution n st)) = false /\
  solved (self (snd (apply_solution env solution n st))) = solved (self st).
Proof.
  rewrite apply_solution_unfold, execute_phase_unfold. cbn zeta.
  set (st0 := {| self := _; world := world st |}).
  assert (solved (self st0) = solved (self st)) as H0 by reflexivity.
  destruct (run_undo_keeps env (undo_commands solution) st0) as [_ Hundo].
  set (st1 := snd (run_undo env (undo_commands solution) st0)) in *.
  destruct (is_commands solution); [| cbn [fst snd]; split; congruence].
  destruct (commands solution) as [|cmd rest];
    [cbn [fst snd]; split; congruence |].
  destruct (run_commands_keeps env (cmd :: rest) true [] st1) as [_ Hrun].
  rewrite (run_commands_never cmd rest true [] st1).
  destruct (truthy_command (verification_command solution));
    cbn [fst snd]; rewrite run_commands_never; split; congruence.
Qed.

(** A pass applies the whole queue and counts no success. *)
Lemma run_pass_never (solutions : list Solution) (i sc cf : Z)
    (failed : list FailedCommand) (st : State) :
  exists all_failed,
    fst (run_pass env solutions i sc cf failed st)
      = PassDone sc (cf + Z.of_nat (List.length solutions)) all_failed /\
    solved (self (snd (run_pass env solutions i sc cf failed st)))
      = solved (self st).
Proof.
  revert i sc cf failed st;
    induction solutions as [|solution rest IH]; intros i sc cf failed st.
  - exists failed. cbn. split; [| reflexivity]. f_equal. lia.
  - rewrite run_pass_cons.
    destruct (apply_solution_never solution i st) as [Hfail Hsolved].
    destruct (apply_solution env solution i st) as [[success failed_cmds] st1].
    cbn [fst snd] in Hfail, Hsolved. subst success.
    destruct (IH (i + 1) sc (cf + 1) (failed ++ failed_cmds)%list st1)
      as (all_failed & Hr & Hs).
    exists all_failed. rewrite Hr, Hs. split; [| exact Hsolved].
    f_equal. cbn [List.length]. lia.
Qed.

(** Without advisory support the loop gives up after one pass. *)
Lemma resolution_while_never_without_ai (remaining : nat) (solution : Solution)
    (rest : list Solution) (issue : string) (cf : Z) (st : State) :
  HAS_AI env = false ->
  solved (self st) = false ->
  resolution_while env (S remaining) (solution :: rest) issue cf st
  = (false, snd (run_pass env (solution :: rest) 1 0 cf [] st)).
Proof.
  intros Hai Hunsolved.
  rewrite resolution_while_step by exact Hunsolved.
  destruct (run_pass_never (solution :: rest) 1 0 cf [] st) as (f & Hr & _).
  destruct (run_pass env (solution :: rest) 1 0 cf [] st) as [r st1].
  cbn [fst snd] in *. subst r. rewrite Hai. reflexivity.
Qed.

(** With advisory support that never yields a payload, every remaining
    iteration runs one more pass over the same queue and spends one more
    consultation while the budget lasts. *)
Lemma resolution_while_never_unadvised (remaining : nat) (solution : Solution)
    (rest : list Solution) (issue : string) (cf : Z) (st : State) :
  HAS_AI env = true ->
  (forall k, no_advice (addhistory env k)) ->
  solved (self st) = false ->
  let r := resolution_while env remaining (solution :: rest) issue cf st in
  fst r = false /\
  List.length (solution_history (self (snd r)))
    = (List.length (solution_history (self st))
       + remaining * List.length (solution :: rest))%nat /\
  max_ai_iterations (self (snd r)) = max_ai_iterations (self st) /\
  ai_consultation_count (self (snd r))
    = if ai_consultation_count (self st) <? max_ai_iterations (self st)
      then Z.min (max_ai_iterations (self st))
                 (ai_consultation_count (self st) + Z.of_nat remaining)
      else ai_consultation_count (self st).
Proof.
  intros Hai Hsilent. revert cf st.
  induction remaining as [|remaining IH]; intros cf st Hunsolved; cbn zeta.
  - cbn [resolution_while ret fst snd]. repeat split; [lia |].
    destruct (Z.ltb_spec (ai_consultation_count (self st))
                         (max_ai_iterations (self st))); lia.
  - rewrite resolution_while_step by exact Hunsolved.
    destruct (run_pass_never (solution :: rest) 1 0 cf [] st) as (f & Hr & Hs).
    pose proof (run_pass_counters env (solution :: rest) 1 0 cf [] st) as Hcnt.
    destruct (run_pass env (solution :: rest) 1 0 cf [] st) as [r st1] eqn:Hpass.
    cbn [fst snd] in *. subst r.
    pose proof (run_pass_history env _ _ _ _ _ _ _ _ Hpass) as Hlen.
    cbn zeta in Hlen. unfold counters in Hcnt. injection Hcnt as Hmax Hcount _.
    rewrite Hai. cbn [Z.eqb andb].
    assert (fst (trigger_web_search_consultation env f issue st1) = None
            /\ solution_history (self (snd (trigger_web_search_consultation env f issue st1)))
               = solution_history (self st1)
            /\ solved (self (snd (trigger_web_search_consultation env f issue st1)))
               = solved (self st1)
            /\ max_ai_iterations (self (snd (trigger_web_search_consultation env f issue st1)))
               = max_ai_iterations (self st1)
            /\ ai_consultation_count (self (snd (trigger_web_search_consultation env f issue st1)))
               = if ai_consultation_count (self st1) <? max_ai_iterations (self st1)
                 then ai_consultation_count (self st1) + 1
                 else ai_consultation_count (self st1)) as Hconsult.
    { destruct (Z.ltb_spec (ai_consultation_count (self st1))
                           (max_ai_iterations (self st1))) as [Hroom | Hfull].
      - rewrite (trigger_spends env f issue st1 Hai Hroom). cbn.
        repeat split.
        unfold trigger_web_search_consultation. rewrite Hai. cbn [negb].
        run_monad.
        destruct (ai_consultation_count (self st1) >=? max_ai_iterations (self st1))
          eqn:Hge; [rewrite Z.geb_leb in Hge; apply Z.leb_le in Hge; lia |].
        specialize (Hsilent (oracle_calls (world st1))).
        destruct (addhistory env (oracle_calls (world st1)))
          as [| | parsed ai_data]; try reflexivity.
        cbn in Hsilent. destruct Hsilent as [Hp Ha].
        destruct parsed as [p|]; [rewrite Hp |]; rewrite Ha; reflexivity.
      - rewrite trigger_exhausted by lia. repeat split. }
    destruct (trigger_web_search_consultation env f issue st1)
      as [ai_response st2].
    cbn [fst snd] in Hconsult.
    destruct Hconsult as (-> & Hh2 & Hs2 & Hm2 & Hc2).
    cbn [new_solutions_of stop_requested].
    assert (solved (self st2) = false) as Hunsolved2 by congruence.
    destruct (IH (cf + Z.of_nat (List.length (solution :: rest))) st2 Hunsolved2)
      as (Hf & Hl & Hm & Hc).
    repeat split.
    + exact Hf.
    + rewrite Hl, Hh2, Hlen. cbn [List.length]. lia.
    + congruence.
    + rewrite Hc, Hm2, Hc2, Hmax, Hcount.
      destruct (Z.ltb_spec (ai_consultation_count (self st))
                           (max_ai_iterations (self st)));
        [destruct (Z.ltb_spec (ai_consultation_count (self st) + 1)
                              (max_ai_iterations (self st))) |
         destruct (Z.ltb_spec (ai_consultation_count (self st))
                              (max_ai_iterations (self st)))]; lia.
Qed.

End NothingSucceeds.

(** ** Runs without advisory support, and analyses without a way forward *)

Section Quiet.
Import Resolver.
Variable env : Env.

Lemma consultation_free_refl (st : State) : consultation_free st st.
Proof. split; reflexivity. Qed.

Lemma consultation_free_trans (st1 st2 st3 : State) :
  consultation_free st1 st2 -> consultation_free st2 st3 ->
  consultation_free st1 st3.
Proof. intros [A1 A2] [B1 B2]. split; congruence. Qed.

Lemma consultation_free_command (command description : string) (st : State) :
  consultation_free st (snd (execute_command env command description st)).
Proof.
  split; [apply execute_command_counters |].
  destruct (execute_command_effect env command description st) as (-> & _).
  reflexivity.
Qed.

(** Without advisory support, no method touches the budget fields or asks
    the service. *)
Lemma consultation_free_loop (st : State) :
  HAS_AI env = false ->
  consultation_free st (snd (continuous_resolution_loop env st)).
Proof.
  intros Hai. apply lift_continuous_resolution_loop.
  - exact consultation_free_refl.
  - exact consultation_free_trans.
  - exact consultation_free_command.
  - intros e st0. split; reflexivity.
  - intros st0. split; reflexivity.
  - intros failed issue st0. rewrite trigger_without_ai by exact Hai.
    apply consultation_free_refl.
  - intros d st0. split; reflexivity.
Qed.

(** When the analysis cannot be loaded, or does not report success and
    offers no solution of type commands, the loop answers False and leaves
    everything but [self.data] as it was. *)
Lemma continuous_resolution_loop_nothing_to_do (st : State) :
  loaded_diagnosis (json_file env) = None \/
  (exists d,
     loaded_diagnosis (json_file env) = Some d /\
     status_is_success d = false /\
     filter is_commands (default [] (diag_recommended_solutions d)) = []) ->
  fst (continuous_resolution_loop env st) = false /\
  world (snd (continuous_resolution_loop env st)) = world st /\
  execution_log (self (snd (continuous_resolution_loop env st)))
    = execution_log (self st) /\
  solution_history (self (snd (continuous_resolution_loop env st)))
    = solution_history (self st) /\
  solved (self (snd (continuous_resolution_loop env st))) = solved (self st) /\
  counters (self (snd (continuous_resolution_loop env st))) = counters (self st).
Proof.
  rewrite continuous_resolution_loop_unfold.
  intros [Hnone | (d & Hload & Hstatus & Hempty)].
  - rewrite Hnone. repeat split.
  - rewrite Hload. cbn zeta. rewrite Hstatus.
    destruct (default [] (diag_recommended_solutions d)) as [|s0 rest] eqn:Hsols;
      [repeat split |].
    unfold initial_queue. rewrite Hempty. cbn [sort_by_priority].
    rewrite resolution_while_stops by auto. repeat split.
Qed.

End Quiet.

(** ** A text that is one brace block *)

Section BracedText.
Import Decoder.

(** When the text itself runs from an opening to a closing brace, the
    second attempt parses the same text again and cannot help. *)
Lemma safe_json_parse_braced_text (loads : string -> LoadsOutcome)
    (mid : string) :
  loads ("{" ++ mid ++ "}") = JSONDecodeError ->
  safe_json_parse loads ("{" ++ mid ++ "}")
  = Returns (sentinel ("{" ++ mid ++ "}")).
Proof.
  intros Hstrict.
  rewrite (safe_json_parse_block loads ("{" ++ mid ++ "}") ("{" ++ mid ++ "}")
             Hstrict).
  - now rewrite Hstrict.
  - exists EmptyString, mid, EmptyString. repeat split.
    cbn [append]. f_equal. clear.
    induction mid as [|c mid IH]; cbn; [reflexivity | now rewrite <- IH].
Qed.

End BracedText.

(* ------------------------------------------------------------------ *)
(** * Further properties of the code *)

Section Further.
Import Resolver.

Lemma main_unfold (env : Env) (args : Args) :
  main env args =
  let r := continuous_resolution_loop
             (if arg_no_ai args then disable_ai env else env)
             {| self := init (arg_max_ai_iterations args); world := start_world |} in
  (if fst r then 0 else 1, save_execution_log (self (snd r))).
Proof.
  unfold main. cbn zeta.
  destruct (continuous_resolution_loop _ _) as [success final]. reflexivity.
Qed.

(** X1. The execution log and the solution history are append-only: a
    command, the application of a solution, a consultation and the whole
    resolution loop leave every earlier entry of both where it was and only
    add entries at the end. *)
Theorem ledgers_are_append_only (env : Env) (st : State) :
  let kept st' :=
    extends (execution_log (self st)) (execution_log (self st')) /\
    extends (solution_history (self st)) (solution_history (self st')) in
  (forall command description,
     kept (snd (execute_command env command description st))) /\
  (forall solution n, kept (snd (apply_solution env solution n st))) /\
  (forall failed issue,
     kept (snd (trigger_web_search_consultation env failed issue st))) /\
  kept (snd (continuous_resolution_loop env st)).
Proof.
  cbn zeta. repeat split.
  - apply (session_grows_command env).
  - apply (session_grows_command env).
  - apply (session_grows_apply_solution env).
  - apply (session_grows_apply_solution env).
  - apply (session_grows_consult env).
  - apply (session_grows_consult env).
  - apply (session_grows_loop env).
  - apply (session_grows_loop env).
Qed.

(** X2. The two consultation counters never part: in the log that [main]
    saves, web_searches equals ai_consultations, and the resolution loop
    keeps them equal from any state in which they are. *)
Theorem web_searches_equal_consultations (env : Env) (args : Args) :
  web_searches (snd (main env args)) = ai_consultations (snd (main env args)) /\
  (forall st,
     web_search_count (self st) = ai_consultation_count (self st) ->
     web_search_count (self (snd (continuous_resolution_loop env st)))
     = ai_consultation_count (self (snd (continuous_resolution_loop env st)))).
Proof.
  split.
  - rewrite main_unfold. cbn zeta. cbn [snd save_execution_log web_searches
                                        ai_consultations].
    apply (session_grows_loop _ _). reflexivity.
  - intros st. apply (session_grows_loop env st).
Qed.

(** X3. Without advisory support (the option --no-ai, or the import of the
    advisory modules failed) no consultation is ever made: the saved log
    reports zero consultations and zero web searches, and the loop leaves
    the budget fields and the service untouched. *)
Theorem no_consultation_without_ai (env : Env) (args : Args) :
  arg_no_ai args = true \/ HAS_AI env = false ->
  ai_consultations (snd (main env args)) = 0 /\
  web_searches (snd (main env args)) = 0 /\
  (HAS_AI env = false ->
   forall st,
     counters (self (snd (continuous_resolution_loop env st)))
       = counters (self st) /\
     oracle_calls (world (snd (continuous_resolution_loop env st)))
       = oracle_calls (world st)).
Proof.
  intros Hoff.
  assert (HAS_AI (if arg_no_ai args then disable_ai env else env) = false) as Hai.
  { destruct Hoff as [-> | Hai]; [reflexivity |].
    destruct (arg_no_ai args); [reflexivity | exact Hai]. }
  rewrite main_unfold. cbn zeta.
  destruct (consultation_free_loop _
              {| self := init (arg_max_ai_iterations args); world := start_world |}
              Hai) as [Hcounters _].
  unfold counters in Hcounters. injection Hcounters as _ Hcount Hweb.
  cbn [snd save_execution_log web_searches ai_consultations].
  split; [exact Hcount | split; [exact Hweb |]].
  intros Hno st. apply (consultation_free_loop env st Hno).
Qed.

Lemma no_consultation_without_ai_witness :
  ai_consultations (snd (main Cases.env_fails Cases.no_ai_args)) = 0 /\
  web_searches (snd (main Cases.env_fails Cases.no_ai_args)) = 0.
Proof.
  destruct (no_consultation_without_ai Cases.env_fails Cases.no_ai_args
              (or_introl eq_refl)) as (H1 & H2 & _).
  split; assumption.
Defined.

(** X4. Whenever the resolution loop answers True, either the analysis
    itself reported success, or the last command that ran is the final pip
    check, logged as successful with exit code 0, and [self.solved] is
    set. *)
Theorem loop_true_means_final_check_passed (env : Env) (st st' : State) :
  continuous_resolution_loop env st = (true, st') ->
  (exists d, loaded_diagnosis (json_file env) = Some d /\
             status_is_success d = true) \/
  (solved (self st') = true /\
   exists older e,
     execution_log (self st') = (older ++ [e])%list /\
     log_command e = "pip check" /\
     log_description e = "Final dependency check" /\
     log_success e = true /\ log_exit_code e = 0).
Proof.
  rewrite continuous_resolution_loop_unfold.
  destruct (loaded_diagnosis (json_file env)) as [d|]; [| discriminate].
  cbn zeta. destruct (status_is_success d) eqn:Hstatus.
  - intros _. left. now exists d.
  - destruct (default [] (diag_recommended_solutions d)); [discriminate |].
    intros Hloop. right. split.
    + eapply resolution_while_true_solved; eassumption.
    + eapply resolution_while_true_after_check; eassumption.
Qed.

Lemma loop_true_means_final_check_passed_witness :
  let st' := snd (continuous_resolution_loop Cases.env_works (Scenario.fresh 8)) in
  solved (self st') = true /\
  exists older e,
    execution_log (self st') = (older ++ [e])%list /\
    log_command e = "pip check" /\
    log_description e = "Final dependency check" /\
    log_success e = true /\ log_exit_code e = 0.
Proof.
  intros st'.
  destruct (loop_true_means_final_check_passed Cases.env_works
              (Scenario.fresh 8) st' eq_refl) as [(d & Hload & Hstatus) | H].
  - injection Hload as <-. discriminate Hstatus.
  - exact H.
Defined.

(** X5. [apply_solution] sets [self.solved] only through a verification
    command: if the flag is unset before the call and set after it, the
    call reported success, the solution names a verification command, and
    that command is the last entry of the log, judged successful with exit
    code 0. *)
Theorem apply_solution_sets_solved_by_verification
    (env : Env) (solution : Solution) (n : Z) (st : State) :
  solved (self st) = false ->
  solved (self (snd (apply_solution env solution n st))) = true ->
  fst (fst (apply_solution env solution n st)) = true /\
  exists v older e,
    truthy_command (verification_command solution) = Some v /\
    execution_log (self (snd (apply_solution env solution n st)))
      = (older ++ [e])%list /\
    log_command e = v /\ log_description e = "Verify solution" /\
    log_success e = true /\ log_exit_code e = 0.
Proof. apply apply_solution_sets_solved. Qed.

Lemma apply_solution_sets_solved_by_verification_witness :
  fst (fst (apply_solution Cases.env_works Cases.two_step 1 (Scenario.fresh 8)))
  = true.
Proof.
  apply (apply_solution_sets_solved_by_verification Cases.env_works
           Cases.two_step 1 (Scenario.fresh 8) eq_refl eq_refl).
Defined.

(** X6. [apply_solution] reports success only for a solution of type
    commands with at least one command, none of which failed: the list of
    failed commands is then empty, and if the solution names a
    verification command [self.solved] is set. *)
Theorem apply_solution_success_means_no_failure
    (env : Env) (solution : Solution) (n : Z) (st : State) :
  fst (fst (apply_solution env solution n st)) = true ->
  is_commands solution = true /\
  commands solution <> [] /\
  snd (fst (apply_solution env solution n st)) = [] /\
  (truthy_command (verification_command solution) = None \/
   solved (self (snd (apply_solution env solution n st))) = true).
Proof. apply apply_solution_success. Qed.

Lemma apply_solution_success_means_no_failure_witness :
  snd (fst (apply_solution Cases.env_works Cases.two_step 1 (Scenario.fresh 8)))
  = [].
Proof.
  apply (apply_solution_success_means_no_failure Cases.env_works
           Cases.two_step 1 (Scenario.fresh 8) eq_refl).
Defined.

(** X7. When no command times out or raises, the log shows what
    [apply_solution] ran, in this order: the undo commands (for every
    solution type), then for a commands solution every main command,
    including those after a failed one, then the verification command if
    there is one and no main command failed. *)
Theorem apply_solution_runs_every_command
    (env : Env) (solution : Solution) (n : Z) (st : State) :
  always_completes env ->
  map log_command (execution_log (self (snd (apply_solution env solution n st))))
  = (map log_command (execution_log (self st))
       ++ undo_commands solution
       ++ (if is_commands solution then
             commands solution
               ++ match commands solution,
                        snd (fst (apply_solution env solution n st)),
                        truthy_command (verification_command solution) with
                  | _ :: _, [], Some v => [v]
                  | _, _, _ => []
                  end
           else []))%list.
Proof. apply apply_solution_log. Qed.

Lemma apply_solution_runs_every_command_witness :
  map log_command
      (execution_log
         (self (snd (apply_solution Cases.env_fails Cases.two_step 1
                       (Scenario.fresh 8)))))
  = ["pip uninstall -y a"; "pip install a==1.0"; "pip install b==2.0"].
Proof.
  apply (apply_solution_runs_every_command Cases.env_fails Cases.two_step 1
           (Scenario.fresh 8)).
  intros k command. do 3 eexists. reflexivity.
Defined.

(** X8. A run makes at most 20 consultations, whatever the budget
    --max-ai-iterations: the loop consults at most once in each of its at
    most 20 iterations. *)
Theorem at_most_20_consultations_per_run (env : Env) (args : Args) :
  ai_consultations (snd (main env args)) <= 20 /\
  (forall remaining solutions issue cf st,
     ai_consultation_count
       (self (snd (resolution_while env remaining solutions issue cf st)))
     <= ai_consultation_count (self st) + Z.of_nat remaining).
Proof.
  split; [| intros; apply resolution_while_consultations].
  rewrite main_unfold. cbn zeta.
  cbn [snd save_execution_log ai_consultations].
  rewrite continuous_resolution_loop_unfold.
  destruct (loaded_diagnosis _) as [d|]; [| cbn; lia].
  cbn zeta. destruct (status_is_success d); [cbn; lia |].
  destruct (default [] (diag_recommended_solutions d)); [cbn; lia |].
  match goal with
  | |- context [resolution_while ?e ?n ?q ?i ?c ?s] =>
      pose proof (resolution_while_consultations e n q i c s) as H;
      cbv zeta in H;
      change (ai_consultation_count (self s)) with 0 in H;
      change (Z.of_nat n) with 20 in H
  end.
  lia.
Qed.

(** X9. The queue that the loop builds from the analysis holds exactly the
    solutions of type commands, in ascending priority with a missing
    priority counting as 999, and solutions of equal priority keep the
    order they have in the analysis. *)
Theorem initial_queue_is_sorted_and_stable (solutions : list Solution) :
  StronglySorted by_priority (initial_queue solutions) /\
  Permutation (initial_queue solutions) (filter is_commands solutions) /\
  (forall p,
     filter (fun s => sort_key s =? p) (initial_queue solutions)
     = filter (fun s => sort_key s =? p) (filter is_commands solutions)).
Proof.
  unfold initial_queue. split; [apply sort_by_priority_sorted |].
  split; [apply sort_by_priority_perm | intros p; apply sort_by_priority_stable].
Qed.

(** X10. When the analysis file is missing or is not valid JSON, or when
    the analysis does not report success and offers no solution of type
    commands (no key, an empty list, or other types only), the loop
    answers False without running a command, applying a solution or
    consulting the service, and [main] exits with code 1. *)
Theorem nothing_runs_without_actionable_analysis (env : Env) (args : Args) :
  loaded_diagnosis (json_file env) = None \/
  (exists d,
     loaded_diagnosis (json_file env) = Some d /\
     status_is_success d = false /\
     filter is_commands (default [] (diag_recommended_solutions d)) = []) ->
  fst (main env args) = 1 /\
  logged_execution_log (snd (main env args)) = [] /\
  logged_solution_history (snd (main env args)) = [] /\
  ai_consultations (snd (main env args)) = 0 /\
  resolution_status (snd (main env args)) = "INCOMPLETE" /\
  (forall st,
     fst (continuous_resolution_loop env st) = false /\
     world (snd (continuous_resolution_loop env st)) = world st /\
     execution_log (self (snd (continuous_resolution_loop env st)))
       = execution_log (self st) /\
     solution_history (self (snd (continuous_resolution_loop env st)))
       = solution_history (self st)).
Proof.
  intros Hnothing.
  assert (forall e, json_file e = json_file env -> forall st,
            fst (continuous_resolution_loop e st) = false /\
            world (snd (continuous_resolution_loop e st)) = world st /\
            execution_log (self (snd (continuous_resolution_loop e st)))
              = execution_log (self st) /\
            solution_history (self (snd (continuous_resolution_loop e st)))
              = solution_history (self st) /\
            solved (self (snd (continuous_resolution_loop e st)))
              = solved (self st) /\
            counters (self (snd (continuous_resolution_loop e st)))
              = counters (self st)) as Hloop.
  { intros e He st. apply continuous_resolution_loop_nothing_to_do.
    rewrite He. exact Hnothing. }
  rewrite main_unfold. cbn zeta.
  destruct (Hloop (if arg_no_ai args then disable_ai env else env)
              ltac:(now destruct (arg_no_ai args))
              {| self := init (arg_max_ai_iterations args); world := start_world |})
    as (Hf & _ & Hlog & Hhist & Hsolved & Hcnt).
  unfold counters in Hcnt. injection Hcnt as _ Hcount _.
  cbn [fst snd save_execution_log logged_execution_log logged_solution_history
       ai_consultations resolution_status].
  rewrite Hf, Hlog, Hhist, Hsolved, Hcount.
  repeat split.
  - destruct (Hloop env eq_refl st) as (H & _). exact H.
  - destruct (Hloop env eq_refl st) as (_ & H & _). exact H.
  - destruct (Hloop env eq_refl st) as (_ & _ & H & _). exact H.
  - destruct (Hloop env eq_refl st) as (_ & _ & _ & H & _). exact H.
Qed.

Lemma nothing_runs_without_actionable_analysis_witness :
  fst (main Cases.env_missing Scenario.default_args) = 1.
Proof.
  apply (nothing_runs_without_actionable_analysis Cases.env_missing
           Scenario.default_args).
  left. reflexivity.
Defined.

(** X11. Every entry of the log that [main] saves is consistent: its
    success flag is true exactly when its exit code is 0 and its output
    holds none of the failure markers; so successful_commands counts
    exactly those entries. The loop keeps a consistent log consistent. *)
Theorem saved_log_entries_are_consistent (env : Env) (args : Args) :
  Forall entry_consistent (logged_execution_log (snd (main env args))) /\
  successful_commands (snd (main env args))
  = List.length
      (filter (fun e => (log_exit_code e =? 0) && negb (has_error (log_output e)))
              (logged_execution_log (snd (main env args)))) /\
  (forall st,
     Forall entry_consistent (execution_log (self st)) ->
     Forall entry_consistent
       (execution_log (self (snd (continuous_resolution_loop env st))))).
Proof.
  assert (Forall entry_consistent (logged_execution_log (snd (main env args))))
    as Hall.
  { rewrite main_unfold. cbn zeta. cbn [snd save_execution_log logged_execution_log].
    apply (session_grows_loop _ _). constructor. }
  split; [exact Hall |]. split.
  - revert Hall. rewrite main_unfold. cbn zeta.
    cbn [snd save_execution_log logged_execution_log successful_commands].
    generalize (execution_log
                  (self (snd (continuous_resolution_loop
                                (if arg_no_ai args then disable_ai env else env)
                                {| self := init (arg_max_ai_iterations args);
                                   world := start_world |})))).
    intros l Hl. f_equal. induction Hl as [|e l He Hl IH]; [reflexivity |].
    cbn [filter]. rewrite <- He, IH. reflexivity.
  - intros st. apply (session_grows_loop env st).
Qed.

(** X12. Exit code 0 of [main] means one of two things only: the analysis
    itself reported success, or the saved log says SOLVED and its last
    entry is the final pip check, successful with exit code 0. *)
Theorem exit_0_means_success_analysis_or_final_check
    (env : Env) (args : Args) :
  fst (main env args) = 0 ->
  (exists d, loaded_diagnosis (json_file env) = Some d /\
             status_is_success d = true) \/
  (resolution_status (snd (main env args)) = "SOLVED" /\
   exists older e,
     logged_execution_log (snd (main env args)) = (older ++ [e])%list /\
     log_command e = "pip check" /\
     log_success e = true /\ log_exit_code e = 0).
Proof.
  rewrite main_unfold. cbn zeta.
  set (env' := if arg_no_ai args then disable_ai env else env).
  assert (json_file env' = json_file env) as Hfile
    by (subst env'; now destruct (arg_no_ai args)).
  destruct (continuous_resolution_loop env' _) as [success final] eqn:Hloop.
  cbn [fst snd]. destruct success; [intros _ | discriminate].
  rewrite continuous_resolution_loop_unfold, Hfile in Hloop.
  destruct (loaded_diagnosis (json_file env)) as [d|]; [| discriminate].
  cbn zeta in Hloop. destruct (status_is_success d) eqn:Hstatus.
  - left. now exists d.
  - destruct (default [] (diag_recommended_solutions d)); [discriminate |].
    right. split.
    + unfold save_execution_log. cbn [resolution_status].
      now rewrite (resolution_while_true_solved _ _ _ _ _ _ _ Hloop).
    + destruct (resolution_while_true_after_check _ _ _ _ _ _ _ Hloop)
        as (older & e & Hlog & Hc & _ & Hs & Hx).
      exists older, e. cbn [save_execution_log logged_execution_log].
      repeat split; assumption.
Qed.

Lemma exit_0_means_success_analysis_or_final_check_witness :
  (exists d, loaded_diagnosis (json_file Cases.env_works) = Some d /\
             status_is_success d = true) \/
  (resolution_status (snd (main Cases.env_works Scenario.default_args)) = "SOLVED" /\
   exists older e,
     logged_execution_log (snd (main Cases.env_works Scenario.default_args))
       = (older ++ [e])%list /\
     log_command e = "pip check" /\
     log_success e = true /\ log_exit_code e = 0).
Proof.
  exact (exit_0_means_success_analysis_or_final_check Cases.env_works
           Scenario.default_args eq_refl).
Defined.

(** X13. One pass of the loop applies the solutions of the queue in queue
    order, numbering them from 1, and leaves one history entry for each
    with its description and commands: the whole queue when the pass finds
    no verified success, a non-empty initial part of it when the pass
    returns with one. *)
Theorem pass_applies_queue_in_order
    (env : Env) (solutions : list Solution) (cf : Z) (st st' : State)
    (r : PassResult) :
  run_pass env solutions 1 0 cf [] st = (r, st') ->
  exists (k : nat) (entries : list SolutionHistoryEntry),
    solution_history (self st') = (solution_history (self st) ++ entries)%list /\
    map history_key entries = expected_history 1 (firstn k solutions) /\
    match r with
    | PassDone _ _ _ => k = List.length solutions
    | PassReturnedTrue => (1 <= k <= List.length solutions)%nat
    end.
Proof. apply run_pass_contents. Qed.

Lemma pass_applies_queue_in_order_witness :
  let q := [Scenario.install "pip install a" None; Cases.two_step] in
  let run := run_pass Cases.env_fails q 1 0 0 [] (Scenario.fresh 8) in
  exists (k : nat) (entries : list SolutionHistoryEntry),
    solution_history (self (snd run))
      = (solution_history (self (Scenario.fresh 8)) ++ entries)%list /\
    map history_key entries = expected_history 1 (firstn k q) /\
    match fst run with
    | PassDone _ _ _ => k = List.length q
    | PassReturnedTrue => (1 <= k <= List.length q)%nat
    end.
Proof.
  intros q run.
  exact (pass_applies_queue_in_order Cases.env_fails q 0 (Scenario.fresh 8)
           (snd run) (fst run) (surjective_pairing run)).
Defined.

(** X14. When no command is ever judged successful and there is no
    advisory support, the run is one single pass: every solution of type
    commands of the analysis is applied exactly once, in priority order,
    no consultation is made and [main] exits with code 1. *)
Theorem without_ai_failing_run_is_one_pass
    (env : Env) (args : Args) (d : Diagnosis) :
  never_succeeds env ->
  arg_no_ai args = true \/ HAS_AI env = false ->
  loaded_diagnosis (json_file env) = Some d ->
  status_is_success d = false ->
  fst (main env args) = 1 /\
  map history_key (logged_solution_history (snd (main env args)))
    = expected_history 1
        (initial_queue (default [] (diag_recommended_solutions d))) /\
  ai_consultations (snd (main env args)) = 0.
Proof.
  intros Hnever Hoff Hload Hstatus.
  set (env' := if arg_no_ai args then disable_ai env else env).
  assert (HAS_AI env' = false) as Hai.
  { subst env'. destruct Hoff as [-> | Hai]; [reflexivity |].
    destruct (arg_no_ai args); [reflexivity | exact Hai]. }
  assert (never_succeeds env') as Hnever'
    by (subst env'; destruct (arg_no_ai args); exact Hnever).
  assert (loaded_diagnosis (json_file env') = Some d) as Hload'
    by (subst env'; destruct (arg_no_ai args); exact Hload).
  rewrite main_unfold. cbn zeta. fold env'.
  set (st0 := {| self := init (arg_max_ai_iterations args); world := start_world |}).
  destruct (consultation_free_loop env' st0 Hai) as [Hcnt _].
  unfold counters in Hcnt. injection Hcnt as _ Hcount _.
  cbn [fst snd save_execution_log logged_solution_history ai_consultations].
  rewrite Hcount. cbn [st0 self init ai_consultation_count].
  rewrite continuous_resolution_loop_unfold, Hload'. cbn zeta. rewrite Hstatus.
  destruct (default [] (diag_recommended_solutions d)) as [|s0 rest] eqn:Hsols.
  { cbn. repeat split. }
  destruct (initial_queue (s0 :: rest)) as [|q0 qs] eqn:Hqueue.
  { rewrite resolution_while_stops by auto. cbn. repeat split. }
  unfold max_total_iterations.
  set (st1 := {| self := set_data d (self st0); world := world st0 |}).
  rewrite (resolution_while_never_without_ai env' Hnever' 19 q0 qs
             (default "Package conflict" (summary d)) 0 st1 Hai eq_refl).
  cbn [fst snd].
  destruct (run_pass_never env' Hnever' (q0 :: qs) 1 0 0 [] st1)
    as (all_failed & Hr & _).
  destruct (run_pass env' (q0 :: qs) 1 0 0 [] st1) as [r st2] eqn:Hpass.
  cbn [fst snd] in *. subst r.
  destruct (run_pass_contents env' _ _ _ _ _ _ _ _ Hpass)
    as (k & entries & Hhist & Hkeys & ->).
  rewrite firstn_all in Hkeys. rewrite Hhist. cbn [app].
  repeat split. exact Hkeys.
Qed.

Lemma without_ai_failing_run_is_one_pass_witness :
  map history_key
      (logged_solution_history (snd (main Cases.env_fails Cases.no_ai_args)))
  = expected_history 1
      (initial_queue (default [] (diag_recommended_solutions Cases.analysis))).
Proof.
  apply (without_ai_failing_run_is_one_pass Cases.env_fails Cases.no_ai_args
           Cases.analysis).
  - intros k command. reflexivity.
  - left. reflexivity.
  - reflexivity.
  - reflexivity.
Defined.

(** X15. When no command is ever judged successful and the advisory
    service never yields a payload, the loop does not give up: it applies
    the same queue in each of its 20 iterations, spends one consultation in
    each iteration while the budget lasts, and [main] exits with code 1. *)
Theorem unadvised_failing_run_repeats_the_queue
    (env : Env) (args : Args) (d : Diagnosis) :
  never_succeeds env ->
  (forall k, no_advice (addhistory env k)) ->
  HAS_AI env = true -> arg_no_ai args = false ->
  loaded_diagnosis (json_file env) = Some d ->
  status_is_success d = false ->
  filter is_commands (default [] (diag_recommended_solutions d)) <> [] ->
  fst (main env args) = 1 /\
  List.length (logged_solution_history (snd (main env args)))
    = (20 * List.length
              (filter is_commands (default [] (diag_recommended_solutions d))))%nat /\
  ai_consultations (snd (main env args))
    = if 0 <? arg_max_ai_iterations args
      then Z.min (arg_max_ai_iterations args) 20
      else 0.
Proof.
  intros Hnever Hsilent Hai Hargs Hload Hstatus Hsome.
  rewrite main_unfold, Hargs. cbn zeta.
  rewrite continuous_resolution_loop_unfold, Hload. cbn zeta. rewrite Hstatus.
  destruct (default [] (diag_recommended_solutions d)) as [|s0 rest] eqn:Hsols;
    [now cbn in Hsome |].
  pose proof (initial_queue_length (s0 :: rest)) as Hlen.
  destruct (initial_queue (s0 :: rest)) as [|q0 qs] eqn:Hqueue.
  { destruct (filter is_commands (s0 :: rest)); [contradiction | discriminate]. }
  set (st1 := {| self := set_data d (init (arg_max_ai_iterations args));
                 world := start_world |}).
  destruct (resolution_while_never_unadvised env Hnever max_total_iterations
              q0 qs (default "Package conflict" (summary d)) 0 st1
              Hai Hsilent eq_refl) as (Hf & Hl & _ & Hc).
  cbv beta iota zeta.
  cbn [fst snd self world save_execution_log logged_solution_history
       ai_consultations].
  fold st1. rewrite Hf, Hl, Hc, Hlen. cbn [st1 self set_data init solution_history
                                 ai_consultation_count max_ai_iterations
                                 List.length].
  unfold max_total_iterations. repeat split.
Qed.

Lemma unadvised_failing_run_repeats_the_queue_witness :
  List.length
    (logged_solution_history (snd (main Cases.env_fails Scenario.default_args)))
  = (20 * List.length
            (filter is_commands
               (default [] (diag_recommended_solutions Cases.analysis))))%nat.
Proof.
  apply (unadvised_failing_run_repeats_the_queue Cases.env_fails
           Scenario.default_args Cases.analysis).
  - intros k command. reflexivity.
  - intros k. exact I.
  - reflexivity.
  - reflexivity.
  - reflexivity.
  - reflexivity.
  - discriminate.
Defined.

(** X16. A text that itself runs from an opening brace to a closing brace
    and fails the strict parse with JSONDecodeError is never rescued: the
    second attempt parses the very same text, so the sentinel is
    returned. *)
Theorem braced_text_is_not_rescued
    (loads : string -> Decoder.LoadsOutcome) (mid : string) :
  loads ("{" ++ mid ++ "}") = Decoder.JSONDecodeError ->
  Decoder.safe_json_parse loads ("{" ++ mid ++ "}")
  = Decoder.Returns (Decoder.sentinel ("{" ++ mid ++ "}")).
Proof. apply safe_json_parse_braced_text. Qed.

Lemma braced_text_is_not_rescued_witness :
  Decoder.safe_json_parse (Decoder.json_loads 1000) "{status: broken}"
  = Decoder.Returns (Decoder.sentinel "{status: broken}").
Proof.
  apply (braced_text_is_not_rescued (Decoder.json_loads 1000) "status: broken").
  reflexivity.
Defined.

End Further.

(* ------------------------------------------------------------------ *)
(** ** The first analysis *)

Section AnalysisFacts.
Import PyStr PyText Analysis.

(** *** Decimal keys *)

Lemma to_uint_not_nil (n : nat) : Nat.to_uint n <> Decimal.Nil.
Proof.
  rewrite <- (DecimalNat.Unsigned.of_to n) at 1.
  rewrite DecimalNat.Unsigned.to_of. apply DecimalFacts.unorm_nonnil.
Qed.

Lemma str_inj (n n' : nat) : str n = str n' -> n = n'.
Proof.
  unfold str. intros H. apply DecimalNat.Unsigned.to_uint_inj.
  apply (f_equal DecimalString.NilZero.uint_of_string) in H.
  rewrite !DecimalString.NilZero.usu in H by apply to_uint_not_nil.
  now injection H.
Qed.

(** *** Markers and whitespace *)

Lemma startswith_snoc_free (m q : string) (b : ascii) :
  m <> EmptyString -> mentions b m = false ->
  startswith m (q ++ one b) = startswith m q.
Proof.
  revert m. induction q as [|a q IH]; intros m Hm Hb.
  - destruct m as [|c m]; [contradiction |]. cbn in *.
    apply orb_false_iff in Hb as [Hc _]. now rewrite Hc.
  - destruct m as [|c m]; [contradiction |]. cbn [append startswith].
    cbn in Hb. apply orb_false_iff in Hb as [_ Hb].
    destruct m as [|c' m]; [reflexivity |].
    rewrite IH; [reflexivity | discriminate | exact Hb].
Qed.

Lemma contains_cons_free (m s : string) (b : ascii) :
  m <> EmptyString -> mentions b m = false ->
  contains m (String b s) = contains m s.
Proof.
  intros Hm Hb. destruct m as [|c m]; [contradiction |].
  cbn in Hb. apply orb_false_iff in Hb as [Hc _].
  cbn [contains startswith]. now rewrite Hc.
Qed.

Lemma contains_snoc_free (m p : string) (b : ascii) :
  m <> EmptyString -> mentions b m = false ->
  contains m (p ++ one b) = contains m p.
Proof.
  intros Hm Hb. induction p as [|a p IH].
  - unfold one. cbn [append]. rewrite contains_cons_free by assumption. reflexivity.
  - change (String a p ++ one b)%string with (String a (p ++ one b)).
    cbn [contains]. rewrite IH.
    change (String a (p ++ one b)) with (String a p ++ one b)%string.
    now rewrite startswith_snoc_free.
Qed.

Lemma contains_app_free_l (m w s : string) :
  m <> EmptyString -> shares_byte w m = false ->
  contains m (w ++ s) = contains m s.
Proof.
  intros Hm. induction w as [|b w IH]; cbn [append shares_byte]; [reflexivity |].
  intros H. apply orb_false_iff in H as [Hb Hw].
  rewrite contains_cons_free by assumption. auto.
Qed.

Lemma contains_app_free_r (m w p : string) :
  m <> EmptyString -> shares_byte w m = false ->
  contains m (p ++ w) = contains m p.
Proof.
  intros Hm. revert p. induction w as [|b w IH]; intros p; cbn [shares_byte].
  - intros _. f_equal. induction p as [|c p IHp]; cbn; [reflexivity | now rewrite IHp].
  - intros H. apply orb_false_iff in H as [Hb Hw].
    replace (p ++ String b w)%string with ((p ++ one b) ++ w)%string.
    + rewrite IH by assumption. now apply contains_snoc_free.
    + clear. induction p as [|c p IHp]; cbn; [reflexivity | now rewrite IHp].
Qed.

Lemma is_space_In (w : string) : is_space w = true -> In w whitespace.
Proof.
  unfold is_space. rewrite existsb_exists. intros [x [Hin Heq]].
  apply String.eqb_eq in Heq. now subst.
Qed.

(** A marker that shares no byte with the encoding of a whitespace
    character: true of every text made of ASCII letters and punctuation. *)
Lemma whitespace_free (m w : string) :
  clear_of_whitespace m = true -> is_space w = true ->
  lower w = w /\ shares_byte w m = false.
Proof.
  unfold clear_of_whitespace. rewrite forallb_forall. intros Hall Hw.
  apply is_space_In, Hall in Hw.
  apply andb_true_iff in Hw as [Hl Hs]. apply String.eqb_eq in Hl.
  apply negb_true_iff in Hs. now split.
Qed.

Lemma contains_lstrip (m s : string) :
  m <> EmptyString -> clear_of_whitespace m = true ->
  contains m (lower (lstrip s)) = contains m (lower s).
Proof.
  intros Hm Hclear.
  assert (forall w rest, is_space w = true ->
            contains m (lower (w ++ rest)) = contains m (lower rest)) as Hdrop.
  { intros w rest Hw. destruct (whitespace_free m w Hclear Hw) as [Hl Hs].
    rewrite lower_app, Hl. now apply contains_app_free_l. }
  assert (forall n s, (String.length s <= n)%nat ->
            contains m (lower (lstrip s)) = contains m (lower s)) as H;
    [| now apply (H (String.length s))].
  clear s. induction n as [|n IH]; intros s Hlen.
  - destruct s; [reflexivity | cbn in Hlen; lia].
  - destruct s as [|a rest]; [reflexivity |]. cbn [String.length] in Hlen.
    cbn [lstrip]. destruct (is_space (one a)) eqn:H1.
    { rewrite IH by lia. symmetry. apply (Hdrop (one a) rest H1). }
    destruct rest as [|b rest2]; [reflexivity |]. cbn [String.length] in Hlen.
    destruct (is_space (two a b)) eqn:H2.
    { rewrite IH by lia. symmetry. apply (Hdrop (two a b) rest2 H2). }
    destruct rest2 as [|c rest3]; [reflexivity |]. cbn [String.length] in Hlen.
    destruct (is_space (three a b c)) eqn:H3; [| reflexivity].
    rewrite IH by lia. symmetry. apply (Hdrop (three a b c) rest3 H3).
Qed.

Lemma contains_rstrip (m p s : string) :
  m <> EmptyString -> clear_of_whitespace m = true ->
  contains m (lower (p ++ rstrip s)) = contains m (lower (p ++ s)).
Proof.
  intros Hm Hclear. revert p. induction s as [|a r IH]; intros p; [reflexivity |].
  assert (forall x, (p ++ String a x)%string = ((p ++ one a) ++ x)%string) as Hassoc.
  { intros x. clear. induction p as [|c p IHp]; cbn; [reflexivity | now rewrite IHp]. }
  rewrite (Hassoc r), <- IH, <- Hassoc.
  cbn [rstrip]. cbv zeta. destruct (is_space (String a (rstrip r))) eqn:Hw;
    [| reflexivity].
  destruct (whitespace_free m _ Hclear Hw) as [Hl Hs].
  rewrite !lower_app, Hl. cbn [lower].
  rewrite !contains_app_free_r by (assumption || reflexivity). reflexivity.
Qed.

(** Stripping the ends does not change whether a marker occurs. *)
Lemma contains_strip (m s : string) :
  m <> EmptyString -> clear_of_whitespace m = true ->
  contains m (lower (strip s)) = contains m (lower s).
Proof.
  intros Hm Hclear. unfold strip.
  rewrite <- (contains_lstrip m s Hm Hclear).
  apply (contains_rstrip m EmptyString (lstrip s) Hm Hclear).
Qed.

Lemma looks_good_iff (s : string) :
  looks_good (strip s) = true <->
  ~ occurs_ignoring_case "error" s /\ ~ occurs_ignoring_case "conflict" s.
Proof.
  unfold looks_good. rewrite andb_true_iff, !negb_true_iff.
  rewrite !contains_strip by (discriminate || reflexivity).
  pose proof (contains_lower_iff "error" s) as He.
  pose proof (contains_lower_iff "conflict" s) as Hc.
  change (lower "error") with "error" in He.
  change (lower "conflict") with "conflict" in Hc.
  rewrite <- He, <- Hc.
  destruct (contains "error" (lower s)), (contains "conflict" (lower s));
    split; intros [H1 H2]; try discriminate; try (now split);
    exfalso; auto.
Qed.

(** *** The two loops *)

Lemma run_all_length (shell : Shell) (cmds : list string) :
  forall k allconsole,
    run_all shell k cmds = Some allconsole ->
    List.length allconsole = List.length cmds.
Proof.
  induction cmds as [|i rest IH]; intros k allconsole; cbn [run_all].
  - intros H. now injection H as <-.
  - destruct (shell k i); [| discriminate].
    destruct (run_all shell (S k) rest) eqn:Hrest; [| discriminate].
    intros H. injection H as <-. cbn. f_equal. eauto.
Qed.

Lemma run_all_nth (shell : Shell) (cmds : list string) :
  forall k allconsole,
    run_all shell k cmds = Some allconsole ->
    forall n cmd, nth_error cmds n = Some cmd ->
      exists result, shell (k + n)%nat cmd = Some result /\
                     nth_error allconsole n = Some (console result).
Proof.
  induction cmds as [|i rest IH]; intros k allconsole; cbn [run_all].
  - intros _ [|n] cmd H; discriminate.
  - destruct (shell k i) as [result|] eqn:Hrun; [| discriminate].
    destruct (run_all shell (S k) rest) as [tail|] eqn:Hrest; [| discriminate].
    intros H. injection H as <-. intros [|n] cmd Hn; cbn in Hn.
    + injection Hn as <-. exists result. now rewrite Nat.add_0_r.
    + destruct (IH _ _ Hrest n cmd Hn) as (r & Hr & Hout).
      exists r. split; [| exact Hout].
      now replace (k + S n)%nat with (S k + n)%nat by lia.
Qed.

Lemma run_all_completes (shell : Shell) (cmds : list string) :
  forall k,
    completes shell k cmds ->
    exists allconsole, run_all shell k cmds = Some allconsole.
Proof.
  induction cmds as [|i rest IH]; intros k Hall; cbn [run_all].
  - now exists [].
  - destruct (Hall 0%nat i eq_refl) as [result Hrun].
    rewrite Nat.add_0_r in Hrun. rewrite Hrun.
    destruct (IH (S k)) as [tail ->].
    + intros n cmd Hn. destruct (Hall (S n) cmd Hn) as [r Hr].
      exists r. now replace (S k + n)%nat with (k + S n)%nat by lia.
    + eauto.
Qed.

Lemma run_all_raises (shell : Shell) (cmds : list string) :
  forall k n cmd,
    nth_error cmds n = Some cmd -> shell (k + n)%nat cmd = None ->
    run_all shell k cmds = None.
Proof.
  induction cmds as [|i rest IH]; intros k [|n] cmd Hn Hrun; try discriminate;
    cbn in Hn; cbn [run_all].
  - injection Hn as ->. rewrite Nat.add_0_r in Hrun. now rewrite Hrun.
  - destruct (shell k i); [| reflexivity].
    rewrite (IH (S k) n cmd Hn); [reflexivity |].
    now replace (S k + n)%nat with (k + S n)%nat by lia.
Qed.

Lemma build_problems_spec (allconsole : list string) (cmds : list string) :
  forall idx,
    (1 <= idx)%nat ->
    (idx - 1 + List.length cmds <= List.length allconsole)%nat ->
    exists problems,
      build_problems allconsole idx cmds = Some problems /\
      List.length problems = List.length cmds /\
      forall n cmd, nth_error cmds n = Some cmd ->
        exists output,
          nth_error allconsole (idx - 1 + n) = Some output /\
          nth_error problems n
          = Some (str (idx + n),
                  {| command_executed := cmd; output := output;
                     everything_good_and_no_errors_in_console := looks_good output;
                     analysis_required := true |}).
Proof.
  induction cmds as [|cmd rest IH]; intros idx Hidx Hlen; cbn [build_problems].
  - exists []. repeat split. intros [|n] c H; discriminate.
  - cbn [List.length] in Hlen.
    destruct (nth_error allconsole (idx - 1)) as [out|] eqn:Hout.
    2:{ apply nth_error_None in Hout. lia. }
    destruct (IH (S idx)) as (problems & -> & Hl & Hnth); [lia | lia |].
    eexists. split; [reflexivity |]. split; [cbn; now rewrite Hl |].
    intros [|n] c Hn; cbn in Hn.
    + injection Hn as <-. exists out. rewrite !Nat.add_0_r. now split.
    + destruct (Hnth n c Hn) as (o & Ho & Hp). exists o.
      replace (idx - 1 + S n)%nat with (S idx - 1 + n)%nat by lia.
      replace (idx + S n)%nat with (S idx + n)%nat by lia.
      now split.
Qed.

Lemma build_problems_keys (allconsole : list string) (cmds : list string) :
  forall idx problems,
    build_problems allconsole idx cmds = Some problems ->
    map fst problems = map str (seq idx (List.length cmds)).
Proof.
  induction cmds as [|cmd rest IH]; intros idx problems; cbn [build_problems].
  - intros H. now injection H as <-.
  - destruct (nth_error allconsole (idx - 1)); [| discriminate].
    destruct (build_problems allconsole (S idx) rest) eqn:Hrest; [| discriminate].
    intros H. injection H as <-. cbn. f_equal. eauto.
Qed.

Lemma str_keys_distinct (idx n : nat) : NoDup (map str (seq idx n)).
Proof.
  apply Finite.Injective_map_NoDup; [exact str_inj | apply seq_NoDup].
Qed.

Lemma build_diagnostics_spec (allconsole : list string) (cmds : list string) :
  forall idx,
    (idx + List.length cmds <= List.length allconsole)%nat ->
    exists info,
      build_diagnostics allconsole idx cmds = Some info /\
      List.length info = List.length cmds /\
      forall n cmd, nth_error cmds n = Some cmd ->
        exists output,
          nth_error allconsole (idx + n) = Some output /\
          nth_error info n
          = Some (("diagnostic_" ++ str (idx + n + 1))%string,
                  {| diag_command := cmd; diag_output := output |}).
Proof.
  induction cmds as [|cmd rest IH]; intros idx Hlen; cbn [build_diagnostics].
  - exists []. repeat split. intros [|n] c H; discriminate.
  - cbn [List.length] in Hlen.
    destruct (nth_error allconsole idx) as [out|] eqn:Hout.
    2:{ apply nth_error_None in Hout. lia. }
    destruct (IH (S idx)) as (info & -> & Hl & Hnth); [lia |].
    eexists. split; [reflexivity |]. split; [cbn; now rewrite Hl |].
    intros [|n] c Hn; cbn in Hn.
    + injection Hn as <-. exists out. rewrite !Nat.add_0_r. now split.
    + destruct (Hnth n c Hn) as (o & Ho & Hp). exists o.
      replace (idx + S n)%nat with (S idx + n)%nat by lia.
      now split.
Qed.

Lemma build_main_problems_spec (allconsole : list string) (start_idx : nat)
    (cmds : list string) :
  forall idx,
    (start_idx + idx + List.length cmds <= List.length allconsole)%nat ->
    exists problems,
      build_main_problems allconsole start_idx idx cmds = Some problems /\
      List.length problems = List.length cmds /\
      map fst problems
      = map (fun i => str (i + 1)) (seq idx (List.length cmds)) /\
      forall n cmd, nth_error cmds n = Some cmd ->
        exists output,
          nth_error allconsole (start_idx + idx + n) = Some output /\
          nth_error problems n
          = Some (str (idx + n + 1),
                  {| main_command_executed := cmd; main_output := output;
                     return_code := 0; main_analysis_required := true |}).
Proof.
  induction cmds as [|cmd rest IH]; intros idx Hlen; cbn [build_main_problems].
  - exists []. repeat split. intros [|n] c H; discriminate.
  - cbn [List.length] in Hlen.
    destruct (nth_error allconsole (start_idx + idx)) as [out|] eqn:Hout.
    2:{ apply nth_error_None in Hout. lia. }
    destruct (IH (S idx)) as (problems & -> & Hl & Hk & Hnth); [lia |].
    eexists. split; [reflexivity |]. split; [cbn; now rewrite Hl |].
    split; [cbn; now rewrite Hk |].
    intros [|n] c Hn; cbn in Hn.
    + injection Hn as <-. exists out. rewrite !Nat.add_0_r. now split.
    + destruct (Hnth n c Hn) as (o & Ho & Hp). exists o.
      replace (start_idx + idx + S n)%nat with (start_idx + S idx + n)%nat by lia.
      replace (idx + S n + 1)%nat with (S idx + n + 1)%nat by lia.
      now split.
Qed.

End AnalysisFacts.

Section FirstAnalysis.
Import PyStr PyText Analysis.

Lemma run_all_none (shell : Shell) (cmds : list string) :
  forall k,
    run_all shell k cmds = None ->
    exists n cmd, nth_error cmds n = Some cmd /\ shell (k + n)%nat cmd = None.
Proof.
  induction cmds as [|i rest IH]; intros k; cbn [run_all]; [discriminate |].
  destruct (shell k i) as [result|] eqn:Hrun.
  - destruct (run_all shell (S k) rest) eqn:Hrest; [discriminate |]. intros _.
    destruct (IH _ Hrest) as (n & cmd & Hn & Hnone).
    exists (S n), cmd. split; [exact Hn |].
    now replace (k + S n)%nat with (S k + n)%nat by lia.
  - intros _. exists 0%nat, i. split; [reflexivity |]. now rewrite Nat.add_0_r.
Qed.

Lemma exec_problems_entries (shell : Shell) (k : nat) (cmdslist : list string)
    (problems : list (string * Problem)) :
  exec_problems shell k cmdslist = Some problems ->
  map fst problems = map str (seq 1 (List.length cmdslist)) /\
  forall n cmd, nth_error cmdslist n = Some cmd ->
    exists result,
      shell (k + n)%nat cmd = Some result /\
      nth_error problems n
      = Some (str (n + 1),
              {| command_executed := cmd; output := console result;
                 everything_good_and_no_errors_in_console :=
                   looks_good (console result);
                 analysis_required := true |}).
Proof.
  unfold exec_problems.
  destruct (run_all shell k cmdslist) as [allconsole|] eqn:Hrun; [| discriminate].
  intros Hbuild. split; [now apply build_problems_keys with allconsole |].
  pose proof (run_all_length _ _ _ _ Hrun) as Hlen.
  destruct (build_problems_spec allconsole cmdslist 1) as (p & Hp & _ & Hnth);
    [lia | lia |].
  rewrite Hp in Hbuild. injection Hbuild as ->.
  intros n cmd Hn.
  destruct (run_all_nth _ _ _ _ Hrun n cmd Hn) as (result & Hresult & Hout).
  destruct (Hnth n cmd Hn) as (out & Ho & Hentry).
  cbn [Nat.sub Nat.add] in Ho. rewrite Hout in Ho. injection Ho as <-.
  exists result. split; [exact Hresult |].
  now replace (n + 1)%nat with (1 + n)%nat by lia.
Qed.

Lemma exec_problems_returns (shell : Shell) (k : nat) (cmdslist : list string) :
  completes shell k cmdslist ->
  exists problems, exec_problems shell k cmdslist = Some problems.
Proof.
  intros Hall. unfold exec_problems.
  destruct (run_all_completes _ _ _ Hall) as [allconsole Hrun]. rewrite Hrun.
  pose proof (run_all_length _ _ _ _ Hrun) as Hlen.
  destruct (build_problems_spec allconsole cmdslist 1) as (p & Hp & _);
    [lia | lia |].
  now exists p.
Qed.

(** X17. When every run returns, [exec] builds one entry for each command
    of [cmdslist], in order and under the distinct keys 1, 2, ..., each
    naming its own command and holding the text kept of its own run; the
    lookup in [allconsole] never fails. *)
Theorem exec_reports_every_command_in_order
    (shell : Shell) (k : nat) (cmdslist : list string) :
  completes shell k cmdslist ->
  exists problems,
    exec_problems shell k cmdslist = Some problems /\
    map fst problems = map str (seq 1 (List.length cmdslist)) /\
    NoDup (map fst problems) /\
    forall n cmd, nth_error cmdslist n = Some cmd ->
      exists result,
        shell (k + n)%nat cmd = Some result /\
        nth_error problems n
        = Some (str (n + 1),
                {| command_executed := cmd; output := console result;
                   everything_good_and_no_errors_in_console :=
                     looks_good (console result);
                   analysis_required := true |}).
Proof.
  intros Hall. destruct (exec_problems_returns _ _ _ Hall) as [problems Hp].
  destruct (exec_problems_entries _ _ _ _ Hp) as [Hkeys Hnth].
  exists problems. repeat split; try assumption.
  rewrite Hkeys. apply str_keys_distinct.
Qed.

Lemma exec_reports_every_command_in_order_witness :
  exists problems,
    exec_problems Probe.shell 0 Probe.cmdslist = Some problems /\
    map fst problems = ["1"; "2"; "3"].
Proof.
  destruct (exec_reports_every_command_in_order Probe.shell 0 Probe.cmdslist)
    as (problems & Hp & Hkeys & _).
  - intros n cmd _. unfold Probe.shell.
    destruct (String.eqb cmd "pip install bad -y"); eexists; reflexivity.
  - exists problems. split; [exact Hp | exact Hkeys].
Defined.

(** X18. [exec] raises exactly when one of its runs raises: whatever the
    commands are, the second loop finds an output for every index. *)
Theorem exec_raises_only_with_the_shell
    (shell : Shell) (k : nat) (cmdslist : list string) :
  exec_problems shell k cmdslist = None <->
  exists n cmd, nth_error cmdslist n = Some cmd /\ shell (k + n)%nat cmd = None.
Proof.
  split.
  - unfold exec_problems.
    destruct (run_all shell k cmdslist) as [allconsole|] eqn:Hrun.
    + pose proof (run_all_length _ _ _ _ Hrun) as Hlen.
      destruct (build_problems_spec allconsole cmdslist 1) as (p & -> & _);
        [lia | lia | discriminate].
    + intros _. now apply run_all_none.
  - intros (n & cmd & Hn & Hnone). unfold exec_problems.
    now rewrite (run_all_raises _ _ _ _ _ Hn Hnone).
Qed.

(** X19. The flag everything_good_and_no_errors_in_console of an entry
    looks at one stream only and not at the return code: it is true exactly
    when neither error nor conflict occurs, in any case of letters, in
    stdout for return code 0 and in stderr otherwise. *)
Theorem exec_flag_reads_one_stream
    (shell : Shell) (k : nat) (cmdslist : list string)
    (problems : list (string * Problem)) (n : nat) (cmd : string)
    (result : CompletedProcess) :
  exec_problems shell k cmdslist = Some problems ->
  nth_error cmdslist n = Some cmd ->
  shell (k + n)%nat cmd = Some result ->
  exists p,
    nth_error problems n = Some (str (n + 1), p) /\
    command_executed p = cmd /\
    (everything_good_and_no_errors_in_console p = true <->
     let stream := if returncode result =? 0 then stdout result
                   else stderr result in
     ~ occurs_ignoring_case "error" stream /\
     ~ occurs_ignoring_case "conflict" stream).
Proof.
  intros Hp Hn Hrun.
  destruct (exec_problems_entries _ _ _ _ Hp) as [_ Hnth].
  destruct (Hnth n cmd Hn) as (r & Hr & Hentry).
  rewrite Hrun in Hr. injection Hr as <-.
  eexists. split; [exact Hentry |]. split; [reflexivity |].
  cbn [everything_good_and_no_errors_in_console]. cbv zeta.
  unfold console. destruct (returncode result =? 0); apply looks_good_iff.
Qed.

Lemma exec_flag_reads_one_stream_witness :
  exists p,
    nth_error (Probe.problems) 1 = Some ("2", p) /\
    command_executed p = "pip install bad -y" /\
    (everything_good_and_no_errors_in_console p = true <->
     ~ occurs_ignoring_case "error" (stderr Probe.failed) /\
     ~ occurs_ignoring_case "conflict" (stderr Probe.failed)).
Proof.
  exact (exec_flag_reads_one_stream Probe.shell 0 Probe.cmdslist Probe.problems
           1 "pip install bad -y" Probe.failed eq_refl eq_refl eq_refl).
Defined.

(** X20. When every run returns, [exec_with_diagnostics] runs the four
    diagnostic commands before the commands of [cmdslist] (none without
    include_env_info), files the output of each diagnostic under
    diagnostic_1 to diagnostic_4, and gives each command of [cmdslist]
    the text kept of its own run under the keys 1, 2, ...; every entry of
    main_problems says return_code 0, whatever the run returned. *)
Theorem diagnostics_run_first_and_outputs_align
    (shell : Shell) (k : nat) (cmdslist : list string)
    (include_env_info : bool) :
  completes shell k (diagnostic_cmds include_env_info ++ cmdslist) ->
  exists diagnostic_info main_problems,
    exec_with_diagnostics_problems shell k cmdslist include_env_info
    = Some (diagnostic_info, main_problems) /\
    map fst diagnostic_info
    = (if include_env_info
       then ["diagnostic_1"; "diagnostic_2"; "diagnostic_3"; "diagnostic_4"]
       else []) /\
    map fst main_problems = map str (seq 1 (List.length cmdslist)) /\
    (forall n cmd, nth_error (diagnostic_cmds include_env_info) n = Some cmd ->
       exists result,
         shell (k + n)%nat cmd = Some result /\
         nth_error diagnostic_info n
         = Some (("diagnostic_" ++ str (n + 1))%string,
                 {| diag_command := cmd; diag_output := console result |})) /\
    (forall n cmd, nth_error cmdslist n = Some cmd ->
       exists result,
         shell (k + List.length (diagnostic_cmds include_env_info) + n)%nat cmd
         = Some result /\
         nth_error main_problems n
         = Some (str (n + 1),
                 {| main_command_executed := cmd; main_output := console result;
                    return_code := 0; main_analysis_required := true |})).
Proof.
  intros Hall. unfold exec_with_diagnostics_problems. cbv zeta.
  set (d := diagnostic_cmds include_env_info) in *.
  destruct (run_all_completes _ _ _ Hall) as [allconsole Hrun]. rewrite Hrun.
  pose proof (run_all_length _ _ _ _ Hrun) as Hlen. rewrite length_app in Hlen.
  destruct (build_diagnostics_spec allconsole d 0) as (info & Hinfo & Hil & Hin);
    [cbn; lia |].
  destruct (build_main_problems_spec allconsole (List.length d) cmdslist 0)
    as (main & Hmain & _ & Hkeys & Hmn); [lia |].
  rewrite Hmain.
  assert (forall n cmd, nth_error d n = Some cmd ->
            exists result, shell (k + n)%nat cmd = Some result /\
                           nth_error allconsole n = Some (console result)) as Hd.
  { intros n cmd Hn. apply (run_all_nth _ _ _ _ Hrun).
    rewrite nth_error_app1; [exact Hn |].
    apply nth_error_Some. now rewrite Hn. }
  assert (forall n cmd, nth_error cmdslist n = Some cmd ->
            exists result,
              shell (k + List.length d + n)%nat cmd = Some result /\
              nth_error allconsole (List.length d + n) = Some (console result))
    as Hc.
  { intros n cmd Hn.
    destruct (run_all_nth _ _ _ _ Hrun (List.length d + n)%nat cmd)
      as (r & Hr & Ho).
    - rewrite nth_error_app2 by lia.
      now replace (List.length d + n - List.length d)%nat with n by lia.
    - exists r. split; [| exact Ho].
      now replace (k + List.length d + n)%nat
        with (k + (List.length d + n))%nat by lia. }
  assert (map fst main = map str (seq 1 (List.length cmdslist))) as Hkeys'.
  { rewrite Hkeys, <- seq_shift, map_map. apply map_ext.
    intros i. f_equal. lia. }
  assert (forall n cmd, nth_error cmdslist n = Some cmd ->
            exists result,
              shell (k + List.length d + n)%nat cmd = Some result /\
              nth_error main n
              = Some (str (n + 1),
                      {| main_command_executed := cmd;
                         main_output := console result;
                         return_code := 0; main_analysis_required := true |}))
    as Hmain'.
  { intros n cmd Hn. destruct (Hc n cmd Hn) as (r & Hr & Ho).
    destruct (Hmn n cmd Hn) as (o & Ho' & He).
    rewrite Nat.add_0_r, Ho in Ho'. injection Ho' as <-.
    exists r. split; [exact Hr | exact He]. }
  destruct include_env_info.
  - rewrite Hinfo. exists info, main. split; [reflexivity |].
    split.
    { assert (forall n cmd, nth_error d n = Some cmd ->
                option_map fst (nth_error info n)
                = Some ("diagnostic_" ++ str (n + 1))%string) as Hk.
      { intros n cmd Hn. destruct (Hin n cmd Hn) as (o & _ & ->). reflexivity. }
      subst d. cbn [diagnostic_cmds List.length] in Hil.
      destruct info as [|[k1 i1] [|[k2 i2] [|[k3 i3] [|[k4 i4] [|]]]]];
        try discriminate Hil.
      pose proof (Hk 0%nat _ eq_refl) as H1. pose proof (Hk 1%nat _ eq_refl) as H2.
      pose proof (Hk 2%nat _ eq_refl) as H3. pose proof (Hk 3%nat _ eq_refl) as H4.
      cbn in H1, H2, H3, H4.
      injection H1 as ->. injection H2 as ->. injection H3 as ->.
      injection H4 as ->. reflexivity. }
    split; [exact Hkeys' |]. split; [| exact Hmain'].
    intros n cmd Hn. destruct (Hd n cmd Hn) as (r & Hr & Ho).
    destruct (Hin n cmd Hn) as (o & Ho' & He).
    cbn [Nat.add] in Ho'. rewrite Ho in Ho'. injection Ho' as <-.
    exists r. split; [exact Hr | exact He].
  - exists [], main. split; [reflexivity |]. split; [reflexivity |].
    split; [exact Hkeys' |]. split; [| exact Hmain'].
    intros [|n] cmd Hn; discriminate Hn.
Qed.

Lemma diagnostics_run_first_and_outputs_align_witness :
  exists diagnostic_info main_problems,
    exec_with_diagnostics_problems Probe.shell 0 Probe.cmdslist true
    = Some (diagnostic_info, main_problems) /\
    map fst main_problems = ["1"; "2"; "3"].
Proof.
  destruct (diagnostics_run_first_and_outputs_align Probe.shell 0
              Probe.cmdslist true)
    as (info & main & H & _ & Hkeys & _).
  - intros n cmd _. unfold Probe.shell.
    destruct (String.eqb cmd "pip install bad -y"); eexists; reflexivity.
  - exists info, main. split; [exact H | exact Hkeys].
Defined.

End FirstAnalysis.
